(** * Changesets wrapper: min-version propagation and changed-package detection

    A shallow embedding of the two scripts with graph logic:

    - [update-min-versions]: after a release, bump the caret ranges that
      unreleased dependents declare on minor-released packages
      (module [MinVersions]);
    - the changed-package helpers: resolution of changed files to workspace
      packages, the mandatory-changeset file filter and the transitive
      dependency walker (module [ChangedPackages]).

    JavaScript objects that the code shares by reference (the [Package]
    records returned by [getPackages]) live in an explicit heap; a
    reference is an index into it.  File-system and git calls are recorded
    in a trace.  Console output is not part of the model. *)

From Stdlib Require Import String Ascii ZArith.
From stdpp Require Import gmap strings list fin_maps.

(** ** JavaScript strings and outcomes *)

Module Js.

(** A JavaScript string is modelled by a Rocq [string]: a sequence of 8-bit
    characters standing for the code units. *)
Definition chars (s : string) : list ascii := list_ascii_of_string s.

(** [s.startsWith(p)] and [s.endsWith(p)]. *)
Definition startsWith (s p : string) : bool :=
  bool_decide (chars p `prefix_of` chars s).

Definition endsWith (s p : string) : bool :=
  bool_decide (chars p `suffix_of` chars s).

(** The outcome of a call that may throw. *)
Inductive Result (E A : Type) :=
| Ok (a : A)
| Throw (e : E).
Arguments Ok {E A} a.
Arguments Throw {E A} e.

End Js.

Module MinVersions.

(** The three dependency categories, in the order of [dependencyTypes]. *)
Inductive DepType := T_dependencies | T_devDependencies | T_peerDependencies.

#[global] Instance DepType_eq_dec : EqDecision DepType.
Proof. solve_decision. Defined.

Definition dependencyTypes : list DepType :=
  [T_dependencies; T_devDependencies; T_peerDependencies].

(** A dependency object of a manifest: own string keys mapped to range
    strings.  Keys of a JavaScript object are unique, which [gmap] has by
    construction; the enumeration order of [Object.entries] is not
    observable by [getDependentsGraph], because the entries of one object
    go to pairwise different graph keys. *)
Abbreviation DepMap := (gmap string string).

(** [packageJson]: [name] is optional at run time (a manifest may lack it),
    the dependency objects are optional by type. *)
Record PackageJSON := mkPackageJSON {
  name : option string;
  version : string;
  isPrivate : bool;
  dependencies : option DepMap;
  devDependencies : option DepMap;
  peerDependencies : option DepMap
}.

Record Package := mkPackage {
  dir : string;
  packageJson : PackageJSON
}.

(** [packageJson[depType]] *)
Definition get_deps (t : DepType) (pj : PackageJSON) : option DepMap :=
  match t with
  | T_dependencies => dependencies pj
  | T_devDependencies => devDependencies pj
  | T_peerDependencies => peerDependencies pj
  end.

Definition set_deps (t : DepType) (m : DepMap) (pj : PackageJSON) : PackageJSON :=
  match t with
  | T_dependencies =>
      mkPackageJSON (name pj) (version pj) (isPrivate pj)
                    (Some m) (devDependencies pj) (peerDependencies pj)
  | T_devDependencies =>
      mkPackageJSON (name pj) (version pj) (isPrivate pj)
                    (dependencies pj) (Some m) (peerDependencies pj)
  | T_peerDependencies =>
      mkPackageJSON (name pj) (version pj) (isPrivate pj)
                    (dependencies pj) (devDependencies pj) (Some m)
  end.

(** [type Dependency = { name, versionRange, depType }]: one edge of the
    dependents graph; [dep_name] is the dependent's name. *)
Record Dependency := mkDependency {
  dep_name : option string;
  versionRange : string;
  depType : DepType
}.

(** [VersionType] of changesets. *)
Inductive VersionType := major | minor | patch | none.

#[global] Instance VersionType_eq_dec : EqDecision VersionType.
Proof. solve_decision. Defined.

(** [ComprehensiveRelease] *)
Record Release := mkRelease {
  release_name : string;
  release_type : VersionType;
  oldVersion : string;
  newVersion : string
}.

(** [ReleasePlan]; only [releases] is read. *)
Record ReleasePlan := mkReleasePlan {
  releases : list Release
}.

(** File-system and git calls, in the order they are issued. *)
Inductive Event :=
| WriteFile (pkgDir : string) (json : PackageJSON)
    (* fsp.writeFile(path.join(pkgDir, 'package.json'),
                     JSON.stringify(json, null, 2) + '\n') *)
| GitAdd (args : list string)
| GitCommit (message : list string) (noVerify : bool).

Inductive Error :=
| CannotFindPackage (dep : Dependency)
    (* throw new Error(`Cannot find package: ${dep}`) *)
| AssertionFailed (t : DepType) (dependent : option string)
    (* assert(dependentDeps != null, `Missing ${dep.depType} in ${dep.name}`) *)
| DanglingReference (ref : nat).
    (* not reachable from [main]: a reference outside the heap *)

Abbreviation Result := (Js.Result Error).
Abbreviation Ok := Js.Ok.
Abbreviation Throw := Js.Throw.

(** The world a run acts on: the [Package] objects and the calls issued so
    far.  A throw keeps the world as it was when the error was raised. *)
Record World := mkWorld {
  heap : list Package;
  trace : list Event
}.

Definition M (A : Type) : Type := World → Result A * World.

Definition ret {A} (a : A) : M A := λ w, (Ok a, w).

Definition bind {A B} (m : M A) (k : A → M B) : M B :=
  λ w, match m w with
       | (Ok a, w') => k a w'
       | (Throw e, w') => (Throw e, w')
       end.

Definition throw {A} (e : Error) : M A := λ w, (Throw e, w).

Definition emit (e : Event) : M unit :=
  λ w, (Ok tt, mkWorld (heap w) (trace w ++ [e])).

(** Read the object behind a reference. *)
Definition deref (ref : nat) : M Package :=
  λ w, match heap w !! ref with
       | Some p => (Ok p, w)
       | None => (Throw (DanglingReference ref), w)
       end.

(** [pkg.packageJson[t][key] = value] on the object behind [ref]. *)
Definition assign_dep (p : Package) (t : DepType) (key value : string) : Package :=
  match get_deps t (packageJson p) with
  | Some deps => mkPackage (dir p) (set_deps t (<[key := value]> deps) (packageJson p))
  | None => p
  end.

Definition assign (ref : nat) (t : DepType) (key value : string) : M unit :=
  λ w, match heap w !! ref with
       | Some p => (Ok tt, mkWorld (<[ref := assign_dep p t key value]> (heap w)) (trace w))
       | None => (Throw (DanglingReference ref), w)
       end.

#[global] Instance M_ret : MRet M := @ret.
#[global] Instance M_bind : MBind M := λ A B k m, bind m k.

(** *** [getDependentsGraph] *)

Abbreviation Graph := (gmap string (list Dependency)).

(** The body of the innermost loop:
    [dependents = graph.get(depName) || []; dependents.push(..);
     graph.set(depName, dependents)]. *)
Definition add_edge (pkgName : option string) (t : DepType)
    (graph : Graph) (entry : string * string) : Graph :=
  let dependents := default [] (graph !! entry.1) in
  <[entry.1 := dependents ++ [mkDependency pkgName entry.2 t]]> graph.

Definition add_depType (pkgName : option string) (pj : PackageJSON)
    (graph : Graph) (t : DepType) : Graph :=
  let deps := map_to_list (default ∅ (get_deps t pj)) in
  foldl (add_edge pkgName t) graph deps.

Definition add_package (graph : Graph) (pkg : Package) : Graph :=
  let pkgName := name (packageJson pkg) in
  foldl (add_depType pkgName (packageJson pkg)) graph dependencyTypes.

Definition getDependentsGraph (packages : list Package) : Graph :=
  foldl add_package ∅ packages.

(** *** [updateDependents] *)

(** [!existingRelease || existingRelease.oldVersion === existingRelease.newVersion] *)
Definition notReleased (releasesByName : gmap string Release)
    (dependent : option string) : bool :=
  match dependent ≫= (λ n, releasesByName !! n) with
  | None => true
  | Some existingRelease =>
      bool_decide (oldVersion existingRelease = newVersion existingRelease)
  end.

Definition caret_of (v : string) : string := String.append "^" v.

(** The loop over [dependents]; [updatedDependents] is the array built by
    [push], holding references. *)
Fixpoint updateDependents_from (release : Release) (dependents : list Dependency)
    (packagesByName : gmap (option string) nat)
    (releasesByName : gmap string Release)
    (updatedDependents : list nat) : M (list nat) :=
  match dependents with
  | [] => ret updatedDependents
  | dep :: rest =>
      if notReleased releasesByName (dep_name dep) then
        if negb (Js.startsWith (versionRange dep) "^") then
          (* console.warn; continue *)
          updateDependents_from release rest packagesByName releasesByName
                                updatedDependents
        else
          match packagesByName !! dep_name dep with
          | None => throw (CannotFindPackage dep)
          | Some ref =>
              dependentPkg ← deref ref;
              match get_deps (depType dep) (packageJson dependentPkg) with
              | None => throw (AssertionFailed (depType dep) (dep_name dep))
              | Some _ =>
                  assign ref (depType dep) (release_name release)
                         (caret_of (newVersion release));;
                  updateDependents_from release rest packagesByName releasesByName
                                        (updatedDependents ++ [ref])
              end
          end
      else
        updateDependents_from release rest packagesByName releasesByName
                              updatedDependents
  end.

Definition updateDependents (release : Release) (dependents : list Dependency)
    (packagesByName : gmap (option string) nat)
    (releasesByName : gmap string Release) : M (list nat) :=
  updateDependents_from release dependents packagesByName releasesByName [].

(** *** [main] *)

(** [new Map(pairs)]: a later pair with the same key replaces the earlier. *)
Definition Map_of {K V} `{Countable K} (pairs : list (K * V)) : gmap K V :=
  foldl (λ m kv, <[kv.1 := kv.2]> m) ∅ pairs.

(** [Set.prototype.add] on a set of references kept in insertion order. *)
Definition Set_add (s : list nat) (ref : nat) : list nat :=
  if bool_decide (ref ∈ s) then s else s ++ [ref].

(** The loop over [releasePlan.releases]. *)
Fixpoint forReleases (rs : list Release) (dependentsGraph : Graph)
    (packagesByName : gmap (option string) nat)
    (releasesByName : gmap string Release)
    (updatedDependents : list nat) : M (list nat) :=
  match rs with
  | [] => ret updatedDependents
  | release :: rest =>
      if bool_decide (release_type release = minor) then
        match dependentsGraph !! release_name release with
        | None =>
            (* console.error; continue *)
            forReleases rest dependentsGraph packagesByName releasesByName
                        updatedDependents
        | Some dependents =>
            deps ← updateDependents release dependents packagesByName releasesByName;
            forReleases rest dependentsGraph packagesByName releasesByName
                        (foldl Set_add updatedDependents deps)
        end
      else
        forReleases rest dependentsGraph packagesByName releasesByName
                    updatedDependents
  end.

(** [Promise.all([...updatedDependents].map(pkg => fsp.writeFile(..)))]:
    the calls are issued in the order of the set, each serialising the
    object as it is at that moment. *)
Fixpoint writeAll (refs : list nat) : M unit :=
  match refs with
  | [] => ret tt
  | ref :: rest =>
      pkg ← deref ref;
      emit (WriteFile (dir pkg) (packageJson pkg));;
      writeAll rest
  end.

Definition commitMessage : list string :=
  ["CI: Update version ranges of unreleased dependents"; "[skip ci]"].

(** The body of [main] after its four [const] bindings. *)
Definition main_body (releasePlan : ReleasePlan) (dependentsGraph : Graph)
    (packagesByName : gmap (option string) nat)
    (releasesByName : gmap string Release) : M unit :=
  updatedDependents ←
    forReleases (releases releasePlan) dependentsGraph packagesByName
                releasesByName [];
  writeAll updatedDependents;;
  (if bool_decide (0 < length updatedDependents) then
     emit (GitAdd ["-u"]);;
     emit (GitCommit commitMessage true)
   else ret tt).

(** [getPackages(cwd)]: the workspace packages are the objects of the heap;
    the array holds the references [0 .. n-1]. *)
Definition getPackages : M (list (nat * Package)) :=
  λ w, (Ok (imap pair (heap w)), w).

(** [new Map(packages.map(x => [x.packageJson.name, x]))]; the values are
    the references. *)
Definition packagesByName_of (packages : list (nat * Package))
    : gmap (option string) nat :=
  Map_of (map (λ x, (name (packageJson x.2), x.1)) packages).

(** [new Map(releasePlan.releases.map(x => [x.name, x]))] *)
Definition releasesByName_of (releasePlan : ReleasePlan) : gmap string Release :=
  Map_of (map (λ x, (release_name x, x)) (releases releasePlan)).

Definition main (releasePlan : ReleasePlan) : M unit :=
  packages ← getPackages;
  let dependentsGraph := getDependentsGraph packages.*2 in
  let packagesByName := packagesByName_of packages in
  let releasesByName := releasesByName_of releasePlan in
  main_body releasePlan dependentsGraph packagesByName releasesByName.

(** A run of the script on a workspace: the packages are loaded, nothing has
    been written yet. *)
Definition run (releasePlan : ReleasePlan) (packages : list Package)
    : Result unit * World :=
  main releasePlan (mkWorld packages []).


(** *** Notions used to state what a run does *)

(** The range a package declares on [key] in category [t], if any. *)
Definition declared (p : Package) (t : DepType) (key : string) : option string :=
  get_deps t (packageJson p) ≫= λ m, m !! key.

Definition edge_of (key : string) (p : Package) (t : DepType) : list Dependency :=
  match declared p t key with
  | Some versionRange => [mkDependency (name (packageJson p)) versionRange t]
  | None => []
  end.

(** The dependents of [key]: packages in input order, categories in the
    order of [dependencyTypes]. *)
Definition edges_of (key : string) (packages : list Package) : list Dependency :=
  flat_map (λ p, flat_map (edge_of key p) dependencyTypes) packages.

(** One assignment [heap[ref].packageJson[t][key] = value]. *)
Record Action := mkAction {
  a_ref : nat;
  a_type : DepType;
  a_key : string;
  a_val : string
}.

Definition apply_action (h : list Package) (a : Action) : list Package :=
  match h !! a_ref a with
  | Some p => <[a_ref a := assign_dep p (a_type a) (a_key a) (a_val a)]> h
  | None => h
  end.

(** The assignment an edge gives rise to, if any. *)
Definition action_of (release : Release) (pbn : gmap (option string) nat)
    (rbn : gmap string Release) (dep : Dependency) : option Action :=
  if notReleased rbn (dep_name dep) && Js.startsWith (versionRange dep) "^"
  then ref ← pbn !! dep_name dep;
       Some (mkAction ref (depType dep) (release_name release)
                      (caret_of (newVersion release)))
  else None.

(** An edge is resolvable when its dependent is in the package map and the
    object found has the dependency object of the edge's category. *)
Definition resolvable (pbn : gmap (option string) nat) (h : list Package)
    (dep : Dependency) : Prop :=
  ∃ ref p, pbn !! dep_name dep = Some ref ∧ h !! ref = Some p ∧
           is_Some (get_deps (depType dep) (packageJson p)).

(** All assignments of a run, release by release. *)
Definition all_actions (rs : list Release) (g : Graph)
    (pbn : gmap (option string) nat) (rbn : gmap string Release) : list Action :=
  flat_map (λ r,
    if bool_decide (release_type r = minor)
    then omap (action_of r pbn rbn) (default [] (g !! release_name r))
    else []) rs.

Definition graph_resolvable (g : Graph) (pbn : gmap (option string) nat)
    (h : list Package) : Prop :=
  ∀ key deps, g !! key = Some deps → Forall (resolvable pbn h) deps.

(** The names of the heap objects, in order. *)
Definition names (h : list Package) : list (option string) :=
  map (λ p, name (packageJson p)) h.

(** The [writeFile] call issued for a reference. *)
Definition write_of (h : list Package) (ref : nat) : option Event :=
  (λ p, WriteFile (dir p) (packageJson p)) <$> h !! ref.

(** The calls that commit the rewritten manifests. *)
Definition commit_of (updatedDependents : list nat) : list Event :=
  if bool_decide (0 < length updatedDependents)
  then [GitAdd ["-u"]; GitCommit commitMessage true]
  else [].

(** The assignments, the updated set and the final heap of a run on
    [packages]. *)
Definition run_actions (plan : ReleasePlan) (packages : list Package) : list Action :=
  all_actions (releases plan) (getDependentsGraph packages)
              (packagesByName_of (imap pair packages)) (releasesByName_of plan).

Definition run_updated (plan : ReleasePlan) (packages : list Package) : list nat :=
  foldl Set_add [] (map a_ref (run_actions plan packages)).

Definition run_heap (plan : ReleasePlan) (packages : list Package) : list Package :=
  foldl apply_action packages (run_actions plan packages).

Definition cell (h : list Package) (ref : nat) (t : DepType) (key : string)
    : option string :=
  h !! ref ≫= λ p, declared p t key.

(** The object has a dependency object of category [t]. *)
Definition has_deps (h : list Package) (ref : nat) (t : DepType) : Prop :=
  ∃ p, h !! ref = Some p ∧ is_Some (get_deps t (packageJson p)).

Definition targets (a : Action) (ref : nat) (t : DepType) (key : string) : Prop :=
  a_ref a = ref ∧ a_type a = t ∧ a_key a = key.

#[global] Instance targets_dec a ref t key : Decision (targets a ref t key).
Proof. unfold targets. apply _. Defined.

(** Assignments change ranges only: directory, name, version and privacy
    flag of every object stay. *)
Definition same_identity (p q : Package) : Prop :=
  dir q = dir p ∧ name (packageJson q) = name (packageJson p) ∧
  version (packageJson q) = version (packageJson p) ∧
  isPrivate (packageJson q) = isPrivate (packageJson p).

End MinVersions.

(** ** Regular expressions, as far as the file filter uses them *)

Module Regex.

Inductive regex :=
| Eps
| Chr (c : ascii)
| Dot                       (* [.]: any character but a line terminator *)
| Cat (r1 r2 : regex)
| Alt (r1 r2 : regex)
| Star (r : regex)
| Opt (r : regex)
| Bol                       (* [^] without the [m] flag *)
| Eol.                      (* [$] without the [m] flag *)

(** The literal pattern [s]. *)
Definition lit (s : string) : regex :=
  foldr (λ c r, Cat (Chr c) r) Eps (Js.chars s).

(** A position in the input: how much has been read and what is left. *)
Record pos := mkPos {
  before : nat;
  rest : list ascii
}.

Definition isLineTerminator (c : ascii) : bool :=
  bool_decide (c = "010"%char) || bool_decide (c = "013"%char).

Definition advance (p : pos) (xs : list ascii) : pos :=
  mkPos (S (before p)) xs.

(** A piece of input [.*] can run over: no line terminator in it. *)
Definition oneLine (l : list ascii) : Prop :=
  Forall (λ c, isLineTerminator c = false) l.

(** The iterations of a star: stop, or match the body once, reading
    something, and go on.  [n] bounds the iterations. *)
Fixpoint star_run (body : pos → (pos → bool) → bool) (k : pos → bool)
    (n : nat) (p : pos) : bool :=
  k p ||
  match n with
  | 0 => false
  | S n' =>
      body p (λ p', if bool_decide (length (rest p') < length (rest p))
                    then star_run body k n' p' else false)
  end.

(** Backtracking matcher: [run r p k] holds when [r] matches from [p] up
    to a position accepted by the continuation [k].  An iteration of a
    star must consume input, which bounds the iterations by the length of
    the rest. *)
Fixpoint run (r : regex) (p : pos) (k : pos → bool) : bool :=
  match r with
  | Eps => k p
  | Chr c =>
      match rest p with
      | x :: xs => if bool_decide (x = c) then k (advance p xs) else false
      | [] => false
      end
  | Dot =>
      match rest p with
      | x :: xs => if isLineTerminator x then false else k (advance p xs)
      | [] => false
      end
  | Cat r1 r2 => run r1 p (λ p', run r2 p' k)
  | Alt r1 r2 => run r1 p k || run r2 p k
  | Opt r1 => run r1 p k || k p
  | Star r1 => star_run (run r1) k (length (rest p)) p
  | Bol => if bool_decide (before p = 0) then k p else false
  | Eol => match rest p with [] => k p | _ :: _ => false end
  end.

(** The positions of an input, from the start to the end. *)
Fixpoint positions (n : nat) (s : list ascii) : list pos :=
  mkPos n s :: match s with [] => [] | _ :: s' => positions (S n) s' end.

(** [s.match(r)] is not [null] (for a pattern without the [g] flag): some
    position starts a match. *)
Definition matches (r : regex) (s : string) : bool :=
  existsb (λ p, run r p (λ _, true)) (positions 0 (Js.chars s)).

(** What a pattern denotes: [Den r p p'] when [r] matches the input between
    the positions [p] and [p']. *)
Inductive Den : regex → pos → pos → Prop :=
| Den_Eps p : Den Eps p p
| Den_Chr c p xs : rest p = c :: xs → Den (Chr c) p (advance p xs)
| Den_Dot x p xs :
    rest p = x :: xs → isLineTerminator x = false → Den Dot p (advance p xs)
| Den_Cat r1 r2 p p' p'' : Den r1 p p' → Den r2 p' p'' → Den (Cat r1 r2) p p''
| Den_Alt_l r1 r2 p p' : Den r1 p p' → Den (Alt r1 r2) p p'
| Den_Alt_r r1 r2 p p' : Den r2 p p' → Den (Alt r1 r2) p p'
| Den_Star_stop r p : Den (Star r) p p
| Den_Star_more r p p' p'' :
    Den r p p' → Den (Star r) p' p'' → Den (Star r) p p''
| Den_Opt_some r p p' : Den r p p' → Den (Opt r) p p'
| Den_Opt_none r p : Den (Opt r) p p
| Den_Bol p : before p = 0 → Den Bol p p
| Den_Eol p : rest p = [] → Den Eol p p.

End Regex.

(** ** Changed packages *)

Module ChangedPackages.

Import Regex.

(** A workspace as [bolt.getWorkspaces] lists it ([config] is not read by
    the functions below), and with the added [relativeDir]. *)
Record Workspace := mkWorkspace {
  ws_dir : string;
  ws_name : string
}.

Record AFPackage := mkAFPackage {
  dir : string;
  name : string;
  relativeDir : string
}.

Inductive Error :=
| CannotFindInGraph (pkg : string)
    (* throw new Error(`Cannot find '${currentPkg}' in dependency graph`) *)
| TypeError.
    (* reading [changedFiles] of a value inherited from [Object.prototype] *)

Abbreviation Result := (Js.Result Error).
Abbreviation Ok := Js.Ok.
Abbreviation Throw := Js.Throw.

Section resolver.

(** From node's [path] module: [path.sep] and [path.relative]. *)
Variable sep : string.
Variable path_relative : string → string → string.

(** From bolt: [project.dir] and the workspaces. *)
Variable projectDir : string.
Variable workspaces : list Workspace.

Definition allPackages : list AFPackage :=
  map (λ pkg, mkAFPackage (ws_dir pkg) (ws_name pkg)
                          (path_relative projectDir (ws_dir pkg)))
      workspaces.

(** [allPackages.find(pkg => fileName.startsWith(pkg.dir + path.sep))]:
    the first match, as a reference (its index) with the object. *)
Definition fileNameToPackage (fileName : string) : option (nat * AFPackage) :=
  list_find (λ pkg, Js.startsWith fileName (String.append (dir pkg) sep) = true)
            allPackages.

Definition isRatchet (fileName : string) : bool :=
  Js.endsWith fileName "bundle-size-ratchet.json".

(** [fileName] lies below the directory of [pkg]: the directory and the
    separator, then anything. *)
Definition inPackageDir (pkg : AFPackage) (fileName : string) : Prop :=
  ∃ rest, fileName = String.append (String.append (dir pkg) sep) rest.

(** No package directory lies below another one, and no two are equal. *)
Definition nonOverlapping : Prop :=
  ∀ i j p q, allPackages !! i = Some p → allPackages !! j = Some q → i ≠ j →
             ¬ inPackageDir p (String.append (dir q) sep).

(** Modelled from the spec: the guard [isDefined] of [./guards] is not among
    the sources.  "A file matching no package is dropped silently":
    [.filter(isDefined)] keeps the values that are not [undefined]. *)
Definition filterDefined {A} (values : list (option A)) : list A :=
  omap id values.

(** [packages.indexOf(pkg)], comparing references. *)
Definition indexOf (packages : list (nat * AFPackage)) (pkg : nat * AFPackage)
    : option nat :=
  fst <$> list_find (λ q, q.1 = pkg.1) packages.

(** [.filter((pkg, idx, packages) => packages.indexOf(pkg) === idx)] *)
Definition unique (packages : list (nat * AFPackage)) : list (nat * AFPackage) :=
  omap (λ x, if bool_decide (indexOf packages x.2 = Some x.1) then Some x.2 else None)
       (imap pair packages).

Definition getChangedPackagesFromChangedFiles (changedFiles : list string)
    : list (nat * AFPackage) :=
  unique
    (filterDefined
       (map fileNameToPackage
          (filter (λ fileName, isRatchet fileName = false) changedFiles))).

(** An entry of the [PackagesWithChangedFiles] object:
    [{ changedFiles, ...correspondingPackage }]. *)
Record Changed := mkChanged {
  changedFiles : list string;
  package : AFPackage
}.

(** Names that [{}] inherits from [Object.prototype]: [acc[name]] is truthy
    for them although no entry was stored. *)
Definition inherited : list string :=
  ["constructor"; "hasOwnProperty"; "isPrototypeOf"; "propertyIsEnumerable";
   "toLocaleString"; "toString"; "valueOf"; "__proto__";
   "__defineGetter__"; "__defineSetter__"; "__lookupGetter__";
   "__lookupSetter__"]%string.

Fixpoint acc_get (acc : list (string * Changed)) (key : string) : option Changed :=
  match acc with
  | [] => None
  | (k, v) :: acc' => if bool_decide (k = key) then Some v else acc_get acc' key
  end.

(** [acc[key].changedFiles.push(fileName)] on a stored entry. *)
Fixpoint acc_push (acc : list (string * Changed)) (key fileName : string)
    : list (string * Changed) :=
  match acc with
  | [] => []
  | (k, v) :: acc' =>
      if bool_decide (k = key)
      then (k, mkChanged (changedFiles v ++ [fileName]) (package v)) :: acc'
      else (k, v) :: acc_push acc' key fileName
  end.

(** The reducer of [getChangedPackagesWithChangedFiles]. *)
Definition reducer (acc : list (string * Changed)) (fileName : string)
    : Result (list (string * Changed)) :=
  let correspondingPackage := snd <$> fileNameToPackage fileName in
  let relativeName := path_relative projectDir fileName in
  match correspondingPackage with
  | None => Ok acc
  | Some pkg =>
      let packagename := name pkg in
      if bool_decide (packagename = ""%string) then Ok acc
      else
        match acc_get acc packagename with
        | Some _ => Ok (acc_push acc packagename relativeName)
        | None =>
            if bool_decide (packagename ∈ inherited) then Throw TypeError
            else Ok (acc ++ [(packagename, mkChanged [relativeName] pkg)])
        end
  end.

Fixpoint reduce (files : list string) (acc : list (string * Changed))
    : Result (list (string * Changed)) :=
  match files with
  | [] => Ok acc
  | fileName :: files' =>
      match reducer acc fileName with
      | Js.Ok acc' => reduce files' acc'
      | Js.Throw e => Throw e
      end
  end.

(** The file names are strings, so [.filter(isDefined)] keeps them all.
    The entries are returned in the order of [Object.keys], which is the
    insertion order as long as no package name is an array index. *)
Definition getChangedPackagesWithChangedFiles (changedFiles : list string)
    : Result (list Changed) :=
  match reduce (filter (λ fileName, isRatchet fileName = false) changedFiles) [] with
  | Js.Ok acc => Ok (map snd acc)
  | Js.Throw e => Throw e
  end.

(** The entries of the accumulator only hold kept files of [files], each
    resolved to a package of the entry's name. *)
Definition recorded_from (files : list string) (acc : list (string * Changed)) : Prop :=
  ∀ key c, (key, c) ∈ acc →
    name (package c) = key ∧
    ∀ r, r ∈ changedFiles c →
      ∃ fileName pkg, fileName ∈ files ∧ isRatchet fileName = false ∧
        r = path_relative projectDir fileName ∧
        snd <$> fileNameToPackage fileName = Some pkg ∧ name pkg = key.

(** *** The mandatory-changeset filter *)

Definition definitelyNeedChangeset : list string :=
  ["package.json"; "tsconfig.json"]%string.

(** [new RegExp('.*.(examples|test).(ts|js)x?$')] *)
Definition isTestFileRegex : regex :=
  Cat (Star Dot) (Cat Dot (Cat (Alt (lit "examples") (lit "test"))
    (Cat Dot (Cat (Alt (lit "ts") (lit "js")) (Cat (Opt (Chr "x")) Eol))))).

(** [new RegExp('^.*/src/.*')] *)
Definition isInSrcFileRegex : regex :=
  Cat Bol (Cat (Star Dot) (Cat (lit "/src/") (Star Dot))).

(** [new RegExp('^.*/src/.*__tests__.*')] *)
Definition isInTestDirRegex : regex :=
  Cat Bol (Cat (Star Dot) (Cat (lit "/src/") (Cat (Star Dot)
    (Cat (lit "__tests__") (Star Dot))))).

(** The callback passed to [filter]. *)
Definition needsChangeset (changedFile : string) : bool :=
  if matches isInTestDirRegex changedFile || matches isTestFileRegex changedFile
  then false
  else if existsb (λ pattern, Js.endsWith changedFile pattern) definitelyNeedChangeset
          || matches isInSrcFileRegex changedFile
  then true
  else false.

(** [gitChangedFiles] is what [git.getChangedFilesSince(commit, true)]
    returns. *)
Definition getChangedPackagesWithMandatoryChangesetSinceCommit
    (gitChangedFiles : list string) : list (nat * AFPackage) :=
  getChangedPackagesFromChangedFiles
    (filter (λ f, needsChangeset f = true) gitChangedFiles).

End resolver.

(** *** [getTransitiveDependencies] *)

(** [bolt.Graph]: package name to the names of its dependencies. *)
Abbreviation DepGraph := (gmap string (list string)).

(** The state of the [while] loop. *)
Record Walk := mkWalk {
  visited : list string;            (* the [Set], in insertion order *)
  queue : list string;
  nodesUntilDepthIncrease : Z;
  currentDepth : Z
}.

Inductive Step :=
| Continue (st : Walk)
| Done (visited : list string)
| Fail (e : Error).

(** One evaluation of the loop condition and, if it holds, of the body. *)
Definition step (depGraph : DepGraph) (depth : Z) (st : Walk) : Step :=
  match queue st with
  | [] => Done (visited st)
  | currentPkg :: queue' =>
      let nodes := (nodesUntilDepthIncrease st - 1)%Z in
      let '(cur, nodes) :=
        if bool_decide (nodes = 0%Z)
        then ((currentDepth st + 1)%Z, Z.of_nat (length (queue st)))
        else (currentDepth st, nodes) in
      if bool_decide (cur = (depth + 1)%Z) then Done (visited st)   (* break *)
      else if bool_decide (currentPkg ∈ visited st)
      then Continue (mkWalk (visited st) queue' nodes cur)
      else
        match depGraph !! currentPkg with
        | None => Fail (CannotFindInGraph currentPkg)
        | Some dependencies =>
            Continue (mkWalk (visited st ++ [currentPkg])
                             (queue' ++ dependencies) nodes cur)
        end
  end.

Fixpoint loop (fuel : nat) (depGraph : DepGraph) (depth : Z) (st : Walk)
    : option (Result (list string)) :=
  match fuel with
  | 0 => None
  | S fuel' =>
      match step depGraph depth st with
      | Continue st' => loop fuel' depGraph depth st'
      | Done v => Some (Ok v)
      | Fail e => Some (Throw e)
      end
  end.

(** The number of dependency entries of the graph; the loop body runs at
    most once per entry and once for the root. *)
Definition entries (depGraph : DepGraph) : nat :=
  map_fold (λ _ deps n, length deps + n) 0 depGraph.

(** [depth] is [None] when the option is omitted (default [-100]);
    [depGraph] is [userOpts.dependencyGraph] or what bolt computes.  The
    result is [None] only if the iteration bound were too small, which
    [getTransitiveDependencies_terminates] excludes. *)
Definition getTransitiveDependencies (pkgName : string) (depth : option Z)
    (depGraph : DepGraph) : option (Result (list string)) :=
  let depth := default (-100)%Z depth in
  match loop (entries depGraph + 2) depGraph depth (mkWalk [] [pkgName] 1 (-1)) with
  | Some (Js.Ok visited) =>
      (* visited.delete(pkgName); Array.from(visited) *)
      Some (Ok (filter (λ x, x ≠ pkgName) visited))
  | Some (Js.Throw e) => Some (Throw e)
  | None => None
  end.

(** [b] is listed among the dependencies of [a]; reachability is its
    reflexive-transitive closure. *)
Definition dependsOn (depGraph : DepGraph) (a b : string) : Prop :=
  ∃ deps, depGraph !! a = Some deps ∧ b ∈ deps.

Definition reachable (depGraph : DepGraph) : string → string → Prop :=
  rtc (dependsOn depGraph).

(** The part of the graph not visited yet. *)
Definition remaining (depGraph : DepGraph) (seen : list string) : DepGraph :=
  filter (λ kv, kv.1 ∉ seen) depGraph.



End ChangedPackages.

(** ** Notions for the walk at a given depth *)

Module Walker.

Import ChangedPackages.

(** The state of the walk from [root] while it is at level [c]: the front
    [q1] of the queue holds what is left of level [c], the back [q2] what
    has been found of level [c + 1]; the packages within [c] steps are
    visited or wait in [q1]. *)
Definition levelled (depGraph : DepGraph) (root : string) (c : nat) (st : Walk)
    (q1 q2 : list string) : Prop :=
  queue st = q1 ++ q2 ∧
  currentDepth st = Z.of_nat c ∧
  nodesUntilDepthIncrease st = Z.of_nat (S (length q1)) ∧
  NoDup (visited st) ∧
  (∀ x, x ∈ visited st → bsteps (dependsOn depGraph) c root x) ∧
  (∀ x, x ∈ q1 → bsteps (dependsOn depGraph) c root x) ∧
  (∀ x, x ∈ q2 → bsteps (dependsOn depGraph) (S c) root x) ∧
  (∀ x, bsteps (dependsOn depGraph) c root x → x ∈ visited st ∨ x ∈ q1) ∧
  (∀ v deps d, v ∈ visited st → depGraph !! v = Some deps → d ∈ deps →
               d ∈ visited st ∨ d ∈ queue st).

End Walker.

(** ** Changed packages with their dependents *)

Module Dependents.

Import ChangedPackages.

(** What is read of [pkg.config]. *)
Record Config := mkConfig {
  dependencies : option (gmap string string)
}.

(** A workspace as [bolt.getWorkspaces] lists it. *)
Record BoltPackage := mkBoltPackage {
  bp_dir : string;
  bp_name : string;
  bp_config : Config
}.

Inductive Error :=
| CannotFindDependents (changedPkgName : string)
    (* throw new Error(`Cannot find dependents of '${changedPkgName}'`) *)
| CannotFindPackage (dependent : string)
    (* throw new Error(`Cannot find package '${dependent}'`) *)
| FlagNotRecognised
    (* throw new Error(`The parsed flag is not recognised ${process.argv}`) *)
| TypeError.
    (* reading [dir] of [undefined] *)

Abbreviation Result := (Js.Result Error).
Abbreviation Ok := Js.Ok.
Abbreviation Throw := Js.Throw.

Section dependents.

(** From node: [path.relative] and [process.cwd()]; from bolt:
    [getWorkspaces({ cwd })] and [getDependentsGraph({ cwd })]. *)
Variable path_relative : string → string → string.
Variable cwd : string.
Variable allPackages : list BoltPackage.
Variable dependencyGraph : gmap string (list string).

(** [allPackages.find(({ name }) => name === pkgName)] *)
Definition getPackageJSON (pkgName : string) : option BoltPackage :=
  snd <$> list_find (λ pkg, bp_name pkg = pkgName) allPackages.

(** [dependencies && dependencies[changedPkgName] !== undefined]: the
    lookup also finds what the object inherits from [Object.prototype]. *)
Definition declares (dependentPkgJSON : Config) (changedPkgName : string) : bool :=
  match dependencies dependentPkgJSON with
  | None => false
  | Some deps =>
      bool_decide (is_Some (deps !! changedPkgName))
      || bool_decide (changedPkgName ∈ inherited)
  end.

(** [dependents.filter(dependent => ...)]: the callback runs over the
    array in order; a throw ends the whole call. *)
Fixpoint filterDependents (dependentFlag changedPkgName : string)
    (dependents : list string) : Result (list string) :=
  match dependents with
  | [] => Ok []
  | dependent :: rest =>
      match getPackageJSON dependent with
      | None => Throw (CannotFindPackage dependent)
      | Some pkg =>
          if bool_decide (dependentFlag = "direct"%string) then
            match filterDependents dependentFlag changedPkgName rest with
            | Js.Ok kept =>
                Ok (if declares (bp_config pkg) changedPkgName
                    then dependent :: kept else kept)
            | Js.Throw e => Throw e
            end
          else Throw FlagNotRecognised
      end
  end.

(** [.map(pkg => (getPackageJSON(pkg) as bolt.Package<AFPackageJson>).dir)] *)
Fixpoint dirsOf (kept : list string) : Result (list string) :=
  match kept with
  | [] => Ok []
  | pkg :: rest =>
      match getPackageJSON pkg with
      | None => Throw TypeError
      | Some p =>
          match dirsOf rest with
          | Js.Ok dirs => Ok (bp_dir p :: dirs)
          | Js.Throw e => Throw e
          end
      end
  end.

(** The callback of [changedPackages.map]. *)
Definition dependentsOf (dependentFlag : string) (changed : AFPackage)
    : Result (list string) :=
  let changedPkgName := name changed in
  match dependencyGraph !! changedPkgName with
  | None => Throw (CannotFindDependents changedPkgName)
  | Some dependents =>
      match filterDependents dependentFlag changedPkgName dependents with
      | Js.Throw e => Throw e
      | Js.Ok kept =>
          match dirsOf kept with
          | Js.Throw e => Throw e
          | Js.Ok dirs => Ok (map (path_relative cwd) dirs)
          end
      end
  end.

Fixpoint mapDependents (dependentFlag : string) (changedPackages : list AFPackage)
    : Result (list (list string)) :=
  match changedPackages with
  | [] => Ok []
  | changed :: rest =>
      match dependentsOf dependentFlag changed with
      | Js.Throw e => Throw e
      | Js.Ok paths =>
          match mapDependents dependentFlag rest with
          | Js.Throw e => Throw e
          | Js.Ok others => Ok (paths :: others)
          end
      end
  end.

(** [[...new Set(paths)]]: the first occurrence of each path, in order. *)
Definition dedupe (paths : list string) : list string :=
  foldl (λ s x, if bool_decide (x ∈ s) then s else s ++ [x]) [] paths.

Definition getChangedPackagesWithDependents (changedPackages : list AFPackage)
    (dependentFlag : string) : Result (list string) :=
  let changedPackagesRelativePaths := map relativeDir changedPackages in
  match mapDependents dependentFlag changedPackages with
  | Js.Throw e => Throw e
  | Js.Ok changedPackagesWithDependent =>
      (* flattenDeep, concat, and the Set *)
      Ok (dedupe (changedPackagesRelativePaths
                  ++ concat changedPackagesWithDependent))
  end.

(** What it takes for the call to return: every changed package has an
    entry in the graph, every dependent listed there is a workspace, and
    the flag is [direct] as soon as some dependent is listed. *)
Definition answerable (changedPackages : list AFPackage) (dependentFlag : string)
    : Prop :=
  ∀ changed, changed ∈ changedPackages →
    ∃ dependents, dependencyGraph !! name changed = Some dependents ∧
      (∀ d, d ∈ dependents → is_Some (getPackageJSON d)) ∧
      (dependents = [] ∨ dependentFlag = "direct"%string).

End dependents.

End Dependents.

(** ** The changeset check of the CI *)

Module CheckChangesets.

Import ChangedPackages.

Definition BRANCH_PREFIX_OPTOUTS : list string :=
  ["no-changeset/"; "renovate/no-changeset/"; "merge-branch/";
   "release-candidate/"]%string.

Definition BRANCH_EXACT_OPTOUTS : list string := ["develop"; "master"]%string.

Definition privatePackageOptIn : list string := ["@af/af-ops"]%string.

(** What is read of [pkg.config]. *)
Record Config := mkConfig {
  private : bool;
  config_name : string
}.

(** What is read of a release of the plan. *)
Record Release := mkRelease {
  release_name : string;
  changesets : list string
}.

Inductive Outcome :=
| Skipped                                   (* process.exit(0) *)
| Passed
| Failed (missingChangesets : list string). (* throw missingChangesetsMessage(..) *)

Section check.

Variable sep : string.
Variable path_relative : string → string → string.
Variable projectDir : string.
Variable workspaces : list Workspace.

(** The [config] of the workspace behind a reference. *)
Variable config : nat → Config.

(** From [@af/build-utils/branchPrefixes]. *)
Variable containsBranchPrefix : string → list string → bool.

Definition isExcluded (pkg : nat * AFPackage) : bool :=
  private (config pkg.1)
  && negb (bool_decide (config_name (config pkg.1) ∈ privatePackageOptIn)).

Definition packagesWithChangesets (releases : list Release) : list string :=
  map release_name (filter (λ release, 0 < length (changesets release)) releases).

Definition missingChangesets (releases : list Release)
    (changedPackages : list (nat * AFPackage)) : list string :=
  map (λ pkg, name pkg.2)
      (filter (λ pkg, (name pkg.2 ∉ packagesWithChangesets releases) ∧
                      isExcluded pkg = false)
              changedPackages).

(** [main], after the branch and [sinceRef] have been worked out:
    [releases] is [releasePlan.releases] of [getReleasePlan(cwd, sinceRef)]
    and [gitChangedFiles] is what git lists as changed since [sinceRef]. *)
Definition main (branch : string) (releases : list Release)
    (gitChangedFiles : list string) : Outcome :=
  if containsBranchPrefix branch BRANCH_PREFIX_OPTOUTS
     || existsb (λ name, bool_decide (branch = name)) BRANCH_EXACT_OPTOUTS
  then Skipped
  else
    let changedPackages :=
      getChangedPackagesWithMandatoryChangesetSinceCommit
        sep path_relative projectDir workspaces gitChangedFiles in
    let missing := missingChangesets releases changedPackages in
    if bool_decide (0 < length missing) then Failed missing else Passed.

End check.

End CheckChangesets.

(** ** Sample inputs

    The workspace of the jest tests of [update-min-versions] and a small
    workspace layout for the resolver. *)

Module Sample.

Import MinVersions.

Definition manifest (n : string) (deps : option DepMap) : PackageJSON :=
  mkPackageJSON (Some n) "1.0.0" true deps None None.

Definition package_a : Package :=
  mkPackage "foo/package-a" (manifest "@af/package-a" None).

Definition package_b : Package :=
  mkPackage "foo/package-b"
    (manifest "@af/package-b" (Some {[ "@af/package-a" := "^1.0.0" ]})).

Definition package_c : Package :=
  mkPackage "foo/package-c"
    (manifest "@af/package-c"
       (Some (<["@af/package-b" := "^1.0.0"]> {[ "@af/package-a" := "^1.0.0" ]}))).

Definition packages : list Package := [package_a; package_b; package_c].

Definition minor_a : Release := mkRelease "@af/package-a" minor "1.0.0" "1.1.0".
Definition minor_b : Release := mkRelease "@af/package-b" minor "1.0.0" "1.1.0".
Definition patch_a : Release := mkRelease "@af/package-a" patch "1.0.0" "1.0.1".

(** A dependent with a tilde range. *)
Definition tilde_b : Package :=
  mkPackage "foo/package-b"
    (manifest "@af/package-b" (Some {[ "@af/package-a" := "~1.0.0" ]})).


(** A manifest without a name. *)
Definition nameless : Package :=
  mkPackage "foo/nameless"
    (mkPackageJSON None "1.0.0" true (Some {[ "@af/package-a" := "^1.0.0" ]})
                   None None).

(** A dependency graph with a cycle, and one that lacks a key. *)
Definition cyclic : gmap string (list string) :=
  <["a" := ["b"]]> (<["b" := ["a"; "c"]]> {[ "c" := [] ]}).


Definition foo : ChangedPackages.Workspace :=
  ChangedPackages.mkWorkspace "packages/foo" "foo".

Definition foo_bar : ChangedPackages.Workspace :=
  ChangedPackages.mkWorkspace "packages/foo-bar" "foo-bar".

(** A workspace nested in the directory of [foo]. *)
Definition foo_nested : ChangedPackages.Workspace :=
  ChangedPackages.mkWorkspace "packages/foo/nested" "foo-nested".

(** The same two packages as bolt lists them, [foo-bar] depending on
    [foo], with the graph of their dependents. *)
Definition bolt_foo : Dependents.BoltPackage :=
  Dependents.mkBoltPackage "/repo/packages/foo" "foo" (Dependents.mkConfig None).

Definition bolt_foo_bar : Dependents.BoltPackage :=
  Dependents.mkBoltPackage "/repo/packages/foo-bar" "foo-bar"
    (Dependents.mkConfig (Some {[ "foo" := "^1.0.0" ]})).

Definition dependents_graph : gmap string (list string) :=
  <["foo" := ["foo-bar"]]> {[ "foo-bar" := [] ]}.

Definition changed_foo : ChangedPackages.AFPackage :=
  ChangedPackages.mkAFPackage "/repo/packages/foo" "foo" "packages/foo".

End Sample.

(** * Proofs *)

Module MinVersionsFacts.

Import MinVersions.

(** ** Proofs about the propagator *)

Lemma bind_run {A B} (m : M A) (k : A → M B) (w : World) :
  (m ≫= k) w =
  match m w with
  | (Ok a, w') => k a w'
  | (Throw e, w') => (Throw e, w')
  end.
Proof. reflexivity. Qed.



(** *** The dependents graph in closed form *)

Lemma filter_key_NoDup (l : list (string * string)) (key : string) :
  NoDup l.*1 →
  filter (λ e, e.1 = key) l =
  match (list_to_map l : gmap string string) !! key with
  | Some v => [(key, v)]
  | None => []
  end.
Proof.
  induction l as [|[k v] l IH]; intros Hnd; [done|].
  apply NoDup_cons in Hnd as [Hk Hnd]. cbn [list_to_map foldr fst snd].
  rewrite filter_cons. cbn [fst]. case_decide as Hkey.
  - subst k. rewrite lookup_insert_eq. f_equal.
    rewrite IH by done.
    rewrite (not_elem_of_list_to_map_1 l key) by done. done.
  - rewrite lookup_insert_ne by done. by apply IH.
Qed.

Lemma foldl_add_edge_lookup n t (l : list (string * string)) (g : Graph) key :
  default [] (foldl (add_edge n t) g l !! key) =
  default [] (g !! key) ++
  map (λ e, mkDependency n e.2 t) (filter (λ e, e.1 = key) l).
Proof.
  revert g. induction l as [|[k v] l IH]; intros g; cbn [foldl].
  - by rewrite app_nil_r.
  - rewrite IH. unfold add_edge at 1. cbn [fst snd].
    rewrite filter_cons. cbn [fst]. case_decide as Hkey.
    + subst k. rewrite lookup_insert_eq. cbn. by rewrite <- app_assoc.
    + by rewrite lookup_insert_ne.
Qed.

Lemma add_depType_lookup n pj (g : Graph) t key :
  default [] (add_depType n pj g t !! key) =
  default [] (g !! key) ++
  match get_deps t pj ≫= (λ m, m !! key) with
  | Some versionRange => [mkDependency n versionRange t]
  | None => []
  end.
Proof.
  unfold add_depType. rewrite foldl_add_edge_lookup. f_equal.
  rewrite filter_key_NoDup by apply NoDup_fst_map_to_list.
  rewrite list_to_map_to_list.
  destruct (get_deps t pj) as [m|]; cbn.
  - by destruct (m !! key).
  - by rewrite lookup_empty.
Qed.

Lemma add_package_lookup (g : Graph) p key :
  default [] (add_package g p !! key) =
  default [] (g !! key) ++ flat_map (edge_of key p) dependencyTypes.
Proof.
  unfold add_package, dependencyTypes. cbn [foldl flat_map].
  rewrite !add_depType_lookup, app_nil_r, <- !app_assoc. done.
Qed.

Lemma foldl_add_package_lookup packages (g : Graph) key :
  default [] (foldl add_package g packages !! key) =
  default [] (g !! key) ++ edges_of key packages.
Proof.
  revert g. induction packages as [|p ps IH]; intros g; cbn [foldl].
  - unfold edges_of. cbn. by rewrite app_nil_r.
  - rewrite IH, add_package_lookup. unfold edges_of. cbn [flat_map].
    by rewrite <- app_assoc.
Qed.

(** The graph entry of a dependency lists exactly the packages declaring
    it; a key without entry has no dependents. *)
Lemma getDependentsGraph_lookup packages key :
  default [] (getDependentsGraph packages !! key) = edges_of key packages.
Proof.
  unfold getDependentsGraph. rewrite foldl_add_package_lookup.
  by rewrite lookup_empty.
Qed.

(** *** What the loops do: the assignments of a run *)

Lemma assign_dep_get_deps p t key v t' :
  is_Some (get_deps t' (packageJson (assign_dep p t key v))) ↔
  is_Some (get_deps t' (packageJson p)).
Proof.
  unfold assign_dep. destruct (get_deps t (packageJson p)) eqn:Ht; [|done].
  destruct t, t'; simpl in *; rewrite ?Ht; split; eauto.
Qed.

Lemma resolvable_apply pbn h a dep :
  resolvable pbn h dep → resolvable pbn (apply_action h a) dep.
Proof.
  intros (ref & p & Hn & Hp & Hd). unfold apply_action.
  destruct (h !! a_ref a) as [q|] eqn:Hq; [|by exists ref, p].
  destruct (decide (a_ref a = ref)) as [Heq|Hne].
  - exists ref, (assign_dep q (a_type a) (a_key a) (a_val a)).
    split_and!; [done| |].
    + rewrite Heq. apply list_lookup_insert_eq. by eapply lookup_lt_Some.
    + apply assign_dep_get_deps. rewrite Heq in Hq. by assert (q = p) as -> by congruence.
  - exists ref, p. split_and!; [done| |done].
    by rewrite list_lookup_insert_ne.
Qed.

Lemma omap_cons_eq {A B} (f : A → option B) (x : A) (l : list A) :
  omap f (x :: l) =
  match f x with Some y => y :: omap f l | None => omap f l end.
Proof. reflexivity. Qed.

Lemma updateDependents_from_spec release dependents pbn rbn acc w :
  Forall (resolvable pbn (heap w)) dependents →
  updateDependents_from release dependents pbn rbn acc w =
  (Ok (acc ++ map a_ref (omap (action_of release pbn rbn) dependents)),
   mkWorld (foldl apply_action (heap w)
                  (omap (action_of release pbn rbn) dependents)) (trace w)).
Proof.
  revert acc w. induction dependents as [|dep rest IH]; intros acc w Hall.
  - cbn. rewrite app_nil_r. by destruct w.
  - apply Forall_cons in Hall as [(ref & p & Hn & Hp & [m Hm]) Hrest].
    cbn [updateDependents_from]. rewrite omap_cons_eq.
    assert (action_of release pbn rbn dep =
            if notReleased rbn (dep_name dep) && Js.startsWith (versionRange dep) "^"
            then Some (mkAction ref (depType dep) (release_name release)
                                (caret_of (newVersion release)))
            else None) as ->.
    { unfold action_of. by rewrite Hn. }
    destruct (notReleased rbn (dep_name dep)); cbn [andb negb]; [|by apply IH].
    destruct (Js.startsWith (versionRange dep) "^"); cbn [andb negb]; [|by apply IH].
    rewrite Hn, bind_run. unfold deref. rewrite Hp, Hm.
    rewrite bind_run. unfold assign. rewrite Hp.
    rewrite IH; cbn [heap trace].
    + cbn [map foldl]. unfold apply_action at 3. cbn [a_ref a_type a_key a_val].
      rewrite Hp. by rewrite <- app_assoc.
    + eapply Forall_impl; [exact Hrest|]. intros d Hd.
      apply (resolvable_apply pbn (heap w)
               (mkAction ref (depType dep) (release_name release)
                         (caret_of (newVersion release)))) in Hd.
      unfold apply_action in Hd. cbn in Hd. by rewrite Hp in Hd.
Qed.

Lemma resolvable_foldl pbn acts h dep :
  resolvable pbn h dep → resolvable pbn (foldl apply_action h acts) dep.
Proof.
  revert h. induction acts as [|a acts IH]; intros h Hr; simpl; [done|].
  apply IH. by apply resolvable_apply.
Qed.

Lemma forReleases_spec rs g pbn rbn acc w :
  graph_resolvable g pbn (heap w) →
  forReleases rs g pbn rbn acc w =
  (Ok (foldl Set_add acc (map a_ref (all_actions rs g pbn rbn))),
   mkWorld (foldl apply_action (heap w) (all_actions rs g pbn rbn)) (trace w)).
Proof.
  revert acc w. induction rs as [|r rest IH]; intros acc w Hg.
  - cbn. by destruct w.
  - unfold all_actions. cbn [forReleases flat_map]. fold (all_actions rest g pbn rbn).
    case_bool_decide; cbn [app]; [|by apply IH].
    destruct (g !! release_name r) as [deps|] eqn:Hdeps; cbn [default app];
      [|by apply IH].
    rewrite bind_run. unfold updateDependents.
    rewrite updateDependents_from_spec by eauto. cbn [app].
    rewrite IH; cbn [heap trace].
    + by rewrite map_app, !foldl_app.
    + intros key ds Hk. eapply Forall_impl; [by eapply Hg|].
      intros d. apply resolvable_foldl.
Qed.

(** *** The maps built by [main] *)

Lemma Map_of_from_lookup_notin {K V} `{Countable K} (l : list (K * V))
    (m : gmap K V) k :
  k ∉ l.*1 → foldl (λ m kv, <[kv.1 := kv.2]> m) m l !! k = m !! k.
Proof.
  revert m. induction l as [|[k' v'] l IH]; intros m Hk; cbn [foldl]; [done|].
  rewrite fmap_cons in Hk. apply not_elem_of_cons in Hk as [Hne Hk].
  rewrite IH by done. cbn [fst snd]. by rewrite lookup_insert_ne.
Qed.

Lemma Map_of_from_lookup_in {K V} `{Countable K} (l : list (K * V))
    (m : gmap K V) k v :
  NoDup l.*1 → (k, v) ∈ l →
  foldl (λ m kv, <[kv.1 := kv.2]> m) m l !! k = Some v.
Proof.
  revert m. induction l as [|[k' v'] l IH]; intros m Hnd Hin; cbn [foldl].
  - by apply elem_of_nil in Hin.
  - rewrite fmap_cons in Hnd. apply NoDup_cons in Hnd as [Hk' Hnd].
    apply elem_of_cons in Hin as [[= <- <-]|Hin].
    + rewrite Map_of_from_lookup_notin by done. cbn [fst snd].
      by rewrite lookup_insert_eq.
    + by apply IH.
Qed.

Lemma Map_of_from_lookup_Some {K V} `{Countable K} (l : list (K * V))
    (m : gmap K V) k v :
  foldl (λ m kv, <[kv.1 := kv.2]> m) m l !! k = Some v →
  (k, v) ∈ l ∨ m !! k = Some v.
Proof.
  revert m. induction l as [|[k' v'] l IH]; intros m Hl; cbn [foldl] in Hl.
  - by right.
  - apply IH in Hl as [Hin|Hl]; [left; by apply elem_of_cons; right|].
    cbn [fst snd] in Hl. destruct (decide (k' = k)) as [->|Hne].
    + rewrite lookup_insert_eq in Hl. injection Hl as ->. left. by left.
    + rewrite lookup_insert_ne in Hl by done. by right.
Qed.

Lemma Map_of_lookup_in {K V} `{Countable K} (l : list (K * V)) k v :
  NoDup l.*1 → (k, v) ∈ l → Map_of l !! k = Some v.
Proof. apply Map_of_from_lookup_in. Qed.

Lemma Map_of_lookup_Some {K V} `{Countable K} (l : list (K * V)) k v :
  Map_of l !! k = Some v → (k, v) ∈ l.
Proof.
  intros Hl. apply Map_of_from_lookup_Some in Hl as [Hin|Hl]; [done|].
  by rewrite lookup_empty in Hl.
Qed.

Lemma packagesByName_pairs (h : list Package) :
  map (λ x : nat * Package, (name (packageJson x.2), x.1)) (imap pair h) =
  imap (λ i n, (n, i)) (names h).
Proof.
  unfold names. change (map ?f ?l) with (f <$> l).
  rewrite fmap_imap, imap_fmap. done.
Qed.

Lemma packagesByName_of_names (h h' : list Package) :
  names h = names h' →
  packagesByName_of (imap pair h) = packagesByName_of (imap pair h').
Proof.
  intros Hn. unfold packagesByName_of. by rewrite !packagesByName_pairs, Hn.
Qed.

Lemma imap_pair_snd {A} (l : list A) : (imap pair l).*2 = l.
Proof.
  rewrite fmap_imap. cbn. clear. induction l as [|x l IH]; [done|].
  cbn. f_equal. etrans; [|exact IH]. by apply imap_ext.
Qed.

Lemma elem_of_imap_swap {A} (l : list A) (x : A) (i : nat) :
  (x, i) ∈ imap (λ i n, (n, i)) l ↔ l !! i = Some x.
Proof.
  rewrite elem_of_lookup_imap. split.
  - intros (j & y & [= -> ->] & Hl). done.
  - intros Hl. eauto.
Qed.

Lemma imap_swap_fst {A} (l : list A) : (imap (λ i n, (n, i)) l).*1 = l.
Proof.
  rewrite fmap_imap. cbn. clear. induction l as [|x l IH]; [done|].
  cbn. f_equal. etrans; [|exact IH]. by apply imap_ext.
Qed.

Lemma packagesByName_of_lookup (h : list Package) i p :
  NoDup (names h) → h !! i = Some p →
  packagesByName_of (imap pair h) !! name (packageJson p) = Some i.
Proof.
  intros Hnd Hp. unfold packagesByName_of. rewrite packagesByName_pairs.
  apply Map_of_lookup_in.
  - by rewrite imap_swap_fst.
  - apply elem_of_imap_swap. unfold names.
    change (map ?f ?l) with (f <$> l). by rewrite list_lookup_fmap, Hp.
Qed.

Lemma packagesByName_of_valid (h : list Package) n i :
  packagesByName_of (imap pair h) !! n = Some i →
  ∃ p, h !! i = Some p ∧ name (packageJson p) = n.
Proof.
  unfold packagesByName_of. rewrite packagesByName_pairs.
  intros Hl%Map_of_lookup_Some%elem_of_imap_swap.
  unfold names in Hl. change (map ?f ?l) with (f <$> l) in Hl.
  rewrite list_lookup_fmap in Hl.
  destruct (h !! i) as [p|]; [|done]. injection Hl as <-. eauto.
Qed.

Lemma releasesByName_of_Some plan n r :
  releasesByName_of plan !! n = Some r →
  r ∈ releases plan ∧ release_name r = n.
Proof.
  unfold releasesByName_of. intros Hl%Map_of_lookup_Some.
  apply list_elem_of_fmap in Hl as (r' & [= -> ->] & Hin). done.
Qed.

(** *** The set of updated dependents and the final phase *)

Lemma elem_of_Set_add s ref x : x ∈ Set_add s ref ↔ x ∈ s ∨ x = ref.
Proof.
  unfold Set_add. case_bool_decide as Hin.
  - split; [by left|]. intros [?| ->]; done.
  - rewrite elem_of_app, list_elem_of_singleton. done.
Qed.

Lemma NoDup_Set_add s ref : NoDup s → NoDup (Set_add s ref).
Proof.
  intros Hnd. unfold Set_add. case_bool_decide as Hin; [done|].
  apply NoDup_app. split_and!; [done| |apply NoDup_singleton].
  intros x Hx ->%list_elem_of_singleton. done.
Qed.

Lemma elem_of_foldl_Set_add l s x : x ∈ foldl Set_add s l ↔ x ∈ s ∨ x ∈ l.
Proof.
  revert s. induction l as [|y l IH]; intros s; cbn [foldl].
  - rewrite elem_of_nil. tauto.
  - rewrite IH, elem_of_Set_add, elem_of_cons. tauto.
Qed.

Lemma NoDup_foldl_Set_add l s : NoDup s → NoDup (foldl Set_add s l).
Proof.
  revert s. induction l as [|y l IH]; intros s Hs; cbn [foldl]; [done|].
  by apply IH, NoDup_Set_add.
Qed.

Lemma writeAll_spec refs w :
  Forall (λ ref, is_Some (heap w !! ref)) refs →
  writeAll refs w =
  (Ok tt, mkWorld (heap w) (trace w ++ omap (write_of (heap w)) refs)).
Proof.
  revert w. induction refs as [|ref refs IH]; intros w Hall.
  - cbn. rewrite app_nil_r. by destruct w.
  - apply Forall_cons in Hall as [[p Hp] Hall].
    cbn [writeAll]. rewrite bind_run. unfold deref. rewrite Hp.
    rewrite bind_run. unfold emit. rewrite IH by done. cbn [heap trace].
    rewrite omap_cons_eq. unfold write_of at 2. rewrite Hp. cbn.
    by rewrite <- app_assoc.
Qed.

Lemma length_apply_action h a : length (apply_action h a) = length h.
Proof.
  unfold apply_action. destruct (h !! a_ref a); [|done]. apply length_insert.
Qed.

Lemma length_foldl_apply_action acts h :
  length (foldl apply_action h acts) = length h.
Proof.
  revert h. induction acts as [|a acts IH]; intros h; cbn [foldl]; [done|].
  by rewrite IH, length_apply_action.
Qed.

(** A run whose graph edges all resolve, and whose package map holds
    references into the heap, succeeds: it performs the assignments, then
    writes each updated object once, then commits if anything was
    updated. *)
Lemma main_body_spec plan g pbn rbn w :
  graph_resolvable g pbn (heap w) →
  (∀ n ref, pbn !! n = Some ref → ref < length (heap w)) →
  let acts := all_actions (releases plan) g pbn rbn in
  let upd := foldl Set_add [] (map a_ref acts) in
  let h' := foldl apply_action (heap w) acts in
  main_body plan g pbn rbn w =
  (Ok tt, mkWorld h' (trace w ++ omap (write_of h') upd ++ commit_of upd)).
Proof.
  intros Hg Hpbn acts upd h'. unfold main_body.
  rewrite bind_run, forReleases_spec by done. fold acts upd h'.
  rewrite bind_run, writeAll_spec; cbn [heap trace].
  - unfold commit_of. case_bool_decide.
    + rewrite bind_run. unfold emit. cbn.
      by rewrite <- !app_assoc.
    + cbn. by rewrite app_nil_r.
  - apply Forall_forall. intros ref Href.
    apply elem_of_foldl_Set_add in Href as [Href|Href];
      [by apply elem_of_nil in Href|].
    apply list_elem_of_fmap in Href as (a & -> & Ha).
    apply lookup_lt_is_Some. unfold h'. rewrite length_foldl_apply_action.
    unfold acts, all_actions in Ha.
    apply list_elem_of_In, in_flat_map in Ha as (r & _ & Ha).
    case_bool_decide; [|done].
    apply list_elem_of_In, list_elem_of_omap in Ha as (d & _ & Ha).
    unfold action_of in Ha. destruct (_ && _); [|done].
    destruct (pbn !! dep_name d) as [ref|] eqn:Href; [|done].
    injection Ha as <-. cbn. eauto.
Qed.

(** *** A run on a workspace with pairwise different package names *)

Lemma elem_of_edges_of key packages d :
  d ∈ edges_of key packages ↔
  ∃ i p t versionRange,
    packages !! i = Some p ∧ declared p t key = Some versionRange ∧
    d = mkDependency (name (packageJson p)) versionRange t.
Proof.
  unfold edges_of. rewrite list_elem_of_In, in_flat_map. split.
  - intros (p & Hp & Hd). apply list_elem_of_In, list_elem_of_lookup in Hp as [i Hi].
    apply in_flat_map in Hd as (t & _ & Hd). unfold edge_of in Hd.
    destruct (declared p t key) as [vr|] eqn:Hvr; [|done].
    destruct Hd as [<-|[]]. by exists i, p, t, vr.
  - intros (i & p & t & vr & Hi & Hvr & ->). exists p. split.
    + apply list_elem_of_In. by eapply list_elem_of_lookup_2.
    + apply in_flat_map. exists t. split.
      * unfold dependencyTypes. destruct t; cbn; tauto.
      * unfold edge_of. rewrite Hvr. by left.
Qed.

Lemma graph_lookup_edges_of packages key deps :
  getDependentsGraph packages !! key = Some deps → deps = edges_of key packages.
Proof.
  intros Hg. rewrite <- getDependentsGraph_lookup. by rewrite Hg.
Qed.

Lemma declared_is_Some p t key versionRange :
  declared p t key = Some versionRange → is_Some (get_deps t (packageJson p)).
Proof.
  unfold declared. destruct (get_deps t (packageJson p)); [eauto|done].
Qed.

Lemma graph_resolvable_workspace packages :
  NoDup (names packages) →
  graph_resolvable (getDependentsGraph packages)
                   (packagesByName_of (imap pair packages)) packages.
Proof.
  intros Hnd key deps ->%graph_lookup_edges_of.
  apply Forall_forall. intros d (i & p & t & vr & Hi & Hvr & ->)%elem_of_edges_of.
  exists i, p. split_and!; [|done|].
  - by apply packagesByName_of_lookup.
  - by eapply declared_is_Some.
Qed.

Lemma run_spec plan packages :
  NoDup (names packages) →
  run plan packages =
  (Ok tt,
   mkWorld (run_heap plan packages)
           (omap (write_of (run_heap plan packages)) (run_updated plan packages)
            ++ commit_of (run_updated plan packages))).
Proof.
  intros Hnd. unfold run, main. rewrite bind_run. unfold getPackages.
  cbn [heap]. rewrite imap_pair_snd.
  rewrite main_body_spec; cbn [heap trace].
  - done.
  - by apply graph_resolvable_workspace.
  - intros n ref (p & Hp & _)%packagesByName_of_valid. by eapply lookup_lt_Some.
Qed.

(** Where the assignments of a run come from. *)
Lemma elem_of_run_actions plan packages a :
  NoDup (names packages) →
  a ∈ run_actions plan packages ↔
  ∃ r p versionRange,
    r ∈ releases plan ∧ release_type r = minor ∧
    packages !! a_ref a = Some p ∧
    declared p (a_type a) (release_name r) = Some versionRange ∧
    notReleased (releasesByName_of plan) (name (packageJson p)) = true ∧
    Js.startsWith versionRange "^" = true ∧
    a_key a = release_name r ∧ a_val a = caret_of (newVersion r).
Proof.
  intros Hnd. unfold run_actions, all_actions.
  rewrite list_elem_of_In, in_flat_map. split.
  - intros (r & Hr%list_elem_of_In & Ha). case_bool_decide as Hm; [|done].
    rewrite getDependentsGraph_lookup in Ha.
    apply list_elem_of_In, list_elem_of_omap in Ha as (d & Hd & Ha).
    apply elem_of_edges_of in Hd as (i & p & t & vr & Hi & Hvr & ->).
    unfold action_of in Ha. cbn [dep_name versionRange depType] in Ha.
    destruct (notReleased _ _) eqn:Hnr; [|done].
    destruct (Js.startsWith vr "^") eqn:Hc; [|done]. cbn [andb] in Ha.
    rewrite (packagesByName_of_lookup _ i p) in Ha by done.
    injection Ha as <-. cbn. by exists r, p, vr.
  - intros (r & p & vr & Hr & Hm & Hp & Hvr & Hnr & Hc & Hk & Hv).
    exists r. split; [by apply list_elem_of_In|].
    rewrite bool_decide_eq_true_2 by done.
    rewrite getDependentsGraph_lookup.
    apply list_elem_of_In, list_elem_of_omap.
    exists (mkDependency (name (packageJson p)) vr (a_type a)). split.
    + apply elem_of_edges_of. by exists (a_ref a), p, (a_type a), vr.
    + unfold action_of. cbn [dep_name versionRange depType].
      rewrite Hnr, Hc. cbn [andb].
      rewrite (packagesByName_of_lookup _ (a_ref a) p) by done.
      cbn. destruct a; cbn in *. by subst.
Qed.

(** *** Cells: the range a heap object declares *)

Lemma get_deps_set_deps t m pj t' :
  get_deps t' (set_deps t m pj) = if decide (t = t') then Some m else get_deps t' pj.
Proof. by destruct t, t'. Qed.

Lemma declared_assign_dep p t key v t' key' :
  is_Some (get_deps t (packageJson p)) →
  declared (assign_dep p t key v) t' key' =
  if decide (t = t' ∧ key = key') then Some v else declared p t' key'.
Proof.
  intros [m Hm]. unfold declared, assign_dep. rewrite Hm. cbn [packageJson].
  rewrite get_deps_set_deps. destruct (decide (t = t')) as [<-|Hne].
  - rewrite Hm. cbn. destruct (decide (key = key')) as [<-|Hk].
    + rewrite lookup_insert_eq. by rewrite decide_True.
    + rewrite lookup_insert_ne by done. rewrite decide_False; [done|tauto].
  - rewrite decide_False; [done|tauto].
Qed.

Lemma declared_assign_dep_absent p t key v t' key' :
  get_deps t (packageJson p) = None →
  declared (assign_dep p t key v) t' key' = declared p t' key'.
Proof. intros Hm. unfold assign_dep. by rewrite Hm. Qed.

Lemma has_deps_apply h a ref t :
  has_deps (apply_action h a) ref t ↔ has_deps h ref t.
Proof.
  unfold has_deps, apply_action.
  destruct (h !! a_ref a) as [q|] eqn:Hq; [|done].
  destruct (decide (a_ref a = ref)) as [Heq|Hne].
  - rewrite <- Heq, list_lookup_insert_eq by by eapply lookup_lt_Some.
    rewrite Hq. split.
    + intros (p & [= <-] & Hs). exists q. split; [done|].
      by apply assign_dep_get_deps in Hs.
    + intros (p & [= <-] & Hs). eexists. split; [done|].
      by apply assign_dep_get_deps.
  - by rewrite list_lookup_insert_ne.
Qed.

Lemma cell_apply_hit h a :
  has_deps h (a_ref a) (a_type a) →
  cell (apply_action h a) (a_ref a) (a_type a) (a_key a) = Some (a_val a).
Proof.
  intros (p & Hp & Hs). unfold cell, apply_action. rewrite Hp.
  rewrite list_lookup_insert_eq by by eapply lookup_lt_Some. cbn.
  rewrite declared_assign_dep by done. by rewrite decide_True.
Qed.

Lemma cell_apply_miss h a ref t key :
  ¬ targets a ref t key →
  cell (apply_action h a) ref t key = cell h ref t key.
Proof.
  intros Hn. unfold cell, apply_action.
  destruct (h !! a_ref a) as [q|] eqn:Hq; [|done].
  destruct (decide (a_ref a = ref)) as [Heq|Hne].
  - rewrite <- Heq, list_lookup_insert_eq by by eapply lookup_lt_Some.
    rewrite Hq. cbn.
    destruct (get_deps (a_type a) (packageJson q)) as [m|] eqn:Hm.
    + rewrite declared_assign_dep by eauto.
      rewrite decide_False; [done|]. unfold targets in Hn. tauto.
    + by rewrite declared_assign_dep_absent.
  - by rewrite list_lookup_insert_ne.
Qed.

Lemma cell_has_deps h ref t key v :
  cell h ref t key = Some v → has_deps h ref t.
Proof.
  unfold cell, has_deps. destruct (h !! ref) as [p|]; [|done]. cbn.
  intros Hd%declared_is_Some. eauto.
Qed.

(** A cell that holds [v] keeps it when every assignment to it writes [v]. *)
Lemma cell_foldl_stable acts h ref t key v :
  cell h ref t key = Some v →
  (∀ a, a ∈ acts → targets a ref t key → a_val a = v) →
  cell (foldl apply_action h acts) ref t key = Some v.
Proof.
  revert h. induction acts as [|a acts IH]; intros h Hc Hv; cbn [foldl]; [done|].
  apply IH; [|intros a' Ha'; apply Hv; by right].
  destruct (decide (targets a ref t key)) as [(<- & <- & <-)|Hn].
  - rewrite cell_apply_hit by by eapply cell_has_deps.
    f_equal. apply Hv; [by left|done].
  - by rewrite cell_apply_miss.
Qed.

(** A cell that is assigned holds the assigned value in the end, when all
    assignments to it agree. *)
Lemma cell_foldl_assigned acts h ref t key v :
  has_deps h ref t →
  (∃ a, a ∈ acts ∧ targets a ref t key) →
  (∀ a, a ∈ acts → targets a ref t key → a_val a = v) →
  cell (foldl apply_action h acts) ref t key = Some v.
Proof.
  revert h. induction acts as [|a acts IH]; intros h Hh (a0 & Ha0 & Ht) Hv.
  - by apply elem_of_nil in Ha0.
  - cbn [foldl].
    destruct (decide (targets a ref t key)) as [(<- & <- & <-)|Hn].
    + apply cell_foldl_stable; [|intros a' Ha'; apply Hv; by right].
      rewrite cell_apply_hit by done. f_equal. apply Hv; [by left|done].
    + apply IH.
      * by apply has_deps_apply.
      * apply elem_of_cons in Ha0 as [->|Ha0]; [done|]. eauto.
      * intros a' Ha'. apply Hv. by right.
Qed.

(** A cell that is never assigned keeps its value. *)
Lemma cell_foldl_untouched acts h ref t key :
  (∀ a, a ∈ acts → ¬ targets a ref t key) →
  cell (foldl apply_action h acts) ref t key = cell h ref t key.
Proof.
  revert h. induction acts as [|a acts IH]; intros h Hn; cbn [foldl]; [done|].
  rewrite IH by (intros a' Ha'; apply Hn; by right).
  apply cell_apply_miss, Hn. by left.
Qed.

Lemma assign_dep_identity p t key v : same_identity p (assign_dep p t key v).
Proof.
  unfold same_identity, assign_dep.
  destruct (get_deps t (packageJson p)); [|done]. by destruct t.
Qed.

Lemma apply_action_identity h a ref q :
  apply_action h a !! ref = Some q →
  ∃ p, h !! ref = Some p ∧ same_identity p q.
Proof.
  unfold apply_action. destruct (h !! a_ref a) as [p0|] eqn:Hp0.
  - destruct (decide (a_ref a = ref)) as [Heq|Hne].
    + rewrite <- Heq, list_lookup_insert_eq by by eapply lookup_lt_Some.
      intros [= <-]. exists p0. split; [done|]. apply assign_dep_identity.
    + rewrite list_lookup_insert_ne by done. intros Hq. by exists q.
  - intros Hq. by exists q.
Qed.

Lemma foldl_apply_action_identity acts h ref q :
  foldl apply_action h acts !! ref = Some q →
  ∃ p, h !! ref = Some p ∧ same_identity p q.
Proof.
  revert h. induction acts as [|a acts IH]; intros h; cbn [foldl].
  - intros Hq. by exists q.
  - intros (p1 & (p & Hp & Hi)%apply_action_identity & Hi1)%IH.
    exists p. split; [done|]. unfold same_identity in *.
    destruct Hi as (<- & <- & <- & <-). done.
Qed.

Lemma names_apply_action h a : names (apply_action h a) = names h.
Proof.
  unfold apply_action. destruct (h !! a_ref a) as [p|] eqn:Hp; [|done].
  unfold names. change (map ?f ?l) with (f <$> l).
  rewrite list_fmap_insert.
  apply list_insert_id. rewrite list_lookup_fmap, Hp. cbn. f_equal.
  symmetry. apply assign_dep_identity.
Qed.

Lemma names_foldl_apply_action acts h :
  names (foldl apply_action h acts) = names h.
Proof.
  revert h. induction acts as [|a acts IH]; intros h; cbn [foldl]; [done|].
  by rewrite IH, names_apply_action.
Qed.

Lemma NoDup_fmap_elem_inj {A B} (f : A → B) (l : list A) x y :
  NoDup (f <$> l) → x ∈ l → y ∈ l → f x = f y → x = y.
Proof.
  induction l as [|z l IH]; intros Hnd Hx Hy Hf; [by apply elem_of_nil in Hx|].
  rewrite fmap_cons in Hnd. apply NoDup_cons in Hnd as [Hz Hnd].
  apply elem_of_cons in Hx as [->|Hx]; apply elem_of_cons in Hy as [->|Hy].
  - done.
  - exfalso. apply Hz. rewrite Hf. by apply list_elem_of_fmap_2.
  - exfalso. apply Hz. rewrite <- Hf. by apply list_elem_of_fmap_2.
  - by apply IH.
Qed.

(** The package is absent from the plan or its release changes nothing:
    [notReleased] holds of it. *)
Lemma notReleased_unreleased plan n :
  (∀ r, r ∈ releases plan → n = Some (release_name r) →
        oldVersion r = newVersion r) →
  notReleased (releasesByName_of plan) n = true.
Proof.
  intros Hr. unfold notReleased. destruct n as [n|]; cbn; [|done].
  destruct (releasesByName_of plan !! n) as [r|] eqn:Hl; [|done].
  apply releasesByName_of_Some in Hl as [Hin <-].
  apply bool_decide_eq_true_2. by apply Hr.
Qed.

(** With pairwise different release names, all assignments under one key
    write the same value. *)
Lemma run_actions_agree plan packages a r :
  NoDup (names packages) →
  NoDup (map release_name (releases plan)) →
  a ∈ run_actions plan packages →
  r ∈ releases plan → a_key a = release_name r →
  a_val a = caret_of (newVersion r).
Proof.
  intros Hnd Hrel Ha Hr Hk.
  apply elem_of_run_actions in Ha
    as (r' & _ & _ & Hr' & _ & _ & _ & _ & _ & Hk' & ->); [|done].
  f_equal. f_equal.
  apply (NoDup_fmap_elem_inj release_name (releases plan)); [done..|congruence].
Qed.

Lemma elem_of_omap_write_of h (refs : list nat) ref p :
  ref ∈ refs → h !! ref = Some p →
  WriteFile (dir p) (packageJson p) ∈ omap (write_of h) refs.
Proof.
  intros Hin Hp. apply list_elem_of_omap. exists ref. split; [done|].
  unfold write_of. by rewrite Hp.
Qed.

(** The heart of C1 and C4: the final cell of an unreleased dependent. *)
Lemma run_bumps_cell plan packages i P t rng r :
  NoDup (names packages) →
  NoDup (map release_name (releases plan)) →
  packages !! i = Some P →
  declared P t (release_name r) = Some rng →
  Js.startsWith rng "^" = true →
  r ∈ releases plan → release_type r = minor →
  (∀ r', r' ∈ releases plan → name (packageJson P) = Some (release_name r') →
         oldVersion r' = newVersion r') →
  cell (run_heap plan packages) i t (release_name r)
    = Some (caret_of (newVersion r)) ∧
  i ∈ run_updated plan packages.
Proof.
  intros Hnd Hrel HP Hdecl Hcaret Hr Hminor Hunrel.
  assert (mkAction i t (release_name r) (caret_of (newVersion r))
            ∈ run_actions plan packages) as Hact.
  { apply elem_of_run_actions; [done|]. exists r, P, rng. cbn.
    split_and!; try done. by apply notReleased_unreleased. }
  split.
  - unfold run_heap. apply cell_foldl_assigned.
    + exists P. split; [done|]. by eapply declared_is_Some.
    + eexists. split; [exact Hact|]. done.
    + intros a Ha (_ & _ & Hk). by eapply run_actions_agree.
  - unfold run_updated. apply elem_of_foldl_Set_add. right.
    apply list_elem_of_fmap. eexists. split; [|exact Hact]. done.
Qed.

(** *** Running again on the result *)

Lemma set_deps_get_deps t m pj :
  get_deps t pj = Some m → set_deps t m pj = pj.
Proof. destruct pj, t; cbn; by intros ->. Qed.

(** Assigning the value a cell already holds changes nothing. *)
Lemma apply_action_noop h a :
  cell h (a_ref a) (a_type a) (a_key a) = Some (a_val a) →
  apply_action h a = h.
Proof.
  unfold cell, apply_action. destruct (h !! a_ref a) as [p|] eqn:Hp; [|done].
  cbn. unfold declared, assign_dep.
  destruct (get_deps (a_type a) (packageJson p)) as [m|] eqn:Hm; [|done].
  cbn. intros Hv. rewrite insert_id by done.
  rewrite set_deps_get_deps by done. apply list_insert_id.
  rewrite Hp. by destruct p.
Qed.

Lemma foldl_apply_action_noop acts h :
  (∀ a, a ∈ acts → apply_action h a = h) → foldl apply_action h acts = h.
Proof.
  induction acts as [|a acts IH]; intros Hn; cbn [foldl]; [done|].
  rewrite Hn by by left. apply IH. intros a' Ha'. apply Hn. by right.
Qed.

Lemma startsWith_caret_of v : Js.startsWith (caret_of v) "^" = true.
Proof.
  unfold Js.startsWith, caret_of. apply bool_decide_eq_true_2.
  by exists (Js.chars v).
Qed.

(** Every assignment of a run is in place when the run ends. *)
Lemma run_heap_assigned plan packages a :
  NoDup (names packages) →
  NoDup (map release_name (releases plan)) →
  a ∈ run_actions plan packages →
  cell (run_heap plan packages) (a_ref a) (a_type a) (a_key a) = Some (a_val a).
Proof.
  intros Hnd Hrel Ha.
  pose proof Ha as (r & p & vr & Hr & _ & Hp & Hvr & _ & _ & Hk & Hv)%elem_of_run_actions;
    [|done].
  unfold run_heap. apply cell_foldl_assigned.
  - exists p. split; [done|]. by eapply declared_is_Some.
  - by exists a.
  - intros a' Ha' (_ & _ & Hk'). rewrite Hv.
    eapply run_actions_agree; [done..|congruence].
Qed.

Lemma edges_of_cons key p l :
  edges_of key (p :: l) =
  edge_of key p T_dependencies ++ edge_of key p T_devDependencies ++
  edge_of key p T_peerDependencies ++ edges_of key l.
Proof.
  unfold edges_of, dependencyTypes. cbn [flat_map].
  by rewrite app_nil_r, <- !app_assoc.
Qed.

Lemma omap_edges_of_ext {B} (f : Dependency → option B) key (l l' : list Package) :
  Forall2 (λ p q, ∀ t, omap f (edge_of key p t) = omap f (edge_of key q t)) l l' →
  omap f (edges_of key l) = omap f (edges_of key l').
Proof.
  induction 1 as [|p q l l' HR _ IH]; [done|].
  rewrite !edges_of_cons, !omap_app, !HR. by rewrite IH.
Qed.

(** The graph of the result gives rise to the same assignments. *)
Lemma run_actions_again plan packages :
  NoDup (names packages) →
  NoDup (map release_name (releases plan)) →
  run_actions plan (run_heap plan packages) = run_actions plan packages.
Proof.
  intros Hnd Hrel. unfold run_actions at 1 2.
  rewrite (packagesByName_of_names (run_heap plan packages) packages)
    by apply names_foldl_apply_action.
  unfold all_actions.
  set (pbn := packagesByName_of (imap pair packages)).
  set (rbn := releasesByName_of plan).
  assert (∀ rs, (∀ r, r ∈ rs → r ∈ releases plan) →
    flat_map (λ r, if bool_decide (release_type r = minor)
                   then omap (action_of r pbn rbn)
                          (default [] (getDependentsGraph (run_heap plan packages)
                                         !! release_name r))
                   else []) rs =
    flat_map (λ r, if bool_decide (release_type r = minor)
                   then omap (action_of r pbn rbn)
                          (default [] (getDependentsGraph packages !! release_name r))
                   else []) rs) as Hrs; [|by apply Hrs].
  induction rs as [|r rs IH]; intros Hin; [done|]. cbn [flat_map].
  rewrite IH by (intros r' Hr'; apply Hin; by right). f_equal.
  case_bool_decide as Hminor; [|done].
  rewrite !getDependentsGraph_lookup. apply omap_edges_of_ext.
  apply Forall2_same_length_lookup_2.
  { unfold run_heap. by rewrite length_foldl_apply_action. }
  intros i q p Hq Hp t.
  pose proof Hq as (p' & Hp' & _ & Hname & _)%foldl_apply_action_identity.
  assert (p' = p) as -> by congruence.
  assert (declared q t (release_name r)
          = cell (run_heap plan packages) i t (release_name r)) as Hcq.
  { unfold cell. by rewrite Hq. }
  unfold edge_of. rewrite Hcq, Hname.
  destruct (decide (Exists (λ a, targets a i t (release_name r))
                           (run_actions plan packages))) as [Hex|Hnex].
  - apply Exists_exists in Hex as (a & Ha & Href & Htype & Hkey).
    pose proof (run_heap_assigned plan packages a Hnd Hrel Ha) as Hcell.
    rewrite Href, Htype, Hkey in Hcell. rewrite Hcell.
    apply elem_of_run_actions in Ha
      as (r' & p0 & vr & _ & _ & Hp0 & Hvr & Hnr & Hcaret & Hk & Hv); [|done].
    rewrite Href in Hp0. assert (p0 = p) as -> by congruence.
    rewrite Htype in Hvr. rewrite <- Hk, Hkey in Hvr. rewrite Hvr.
    cbn [omap list_omap]. unfold action_of.
    cbn [dep_name versionRange depType]. fold rbn in Hnr.
    by rewrite Hnr, Hcaret, Hv, startsWith_caret_of.
  - rewrite <- Forall_Exists_neg, Forall_forall in Hnex.
    unfold run_heap. rewrite cell_foldl_untouched by done.
    unfold cell. by rewrite Hp.
Qed.

Lemma run_heap_again plan packages :
  NoDup (names packages) →
  NoDup (map release_name (releases plan)) →
  run_heap plan (run_heap plan packages) = run_heap plan packages.
Proof.
  intros Hnd Hrel. unfold run_heap at 1.
  rewrite run_actions_again by done.
  apply foldl_apply_action_noop. intros a Ha.
  apply apply_action_noop. by apply run_heap_assigned.
Qed.

(** *** Plans without a minor release *)

Lemma forReleases_no_minor rs g pbn rbn acc w :
  (∀ r, r ∈ rs → release_type r ≠ minor) →
  forReleases rs g pbn rbn acc w = (Ok acc, w).
Proof.
  induction rs as [|r rs IH]; intros Hn; cbn [forReleases]; [done|].
  rewrite bool_decide_eq_false_2 by (apply Hn; by left).
  apply IH. intros r' Hr'. apply Hn. by right.
Qed.

Lemma run_no_minor plan packages :
  (∀ r, r ∈ releases plan → release_type r ≠ minor) →
  run plan packages = (Ok tt, mkWorld packages []).
Proof.
  intros Hn. unfold run, main, main_body. rewrite bind_run. unfold getPackages.
  rewrite bind_run, forReleases_no_minor by done. done.
Qed.

(** *** Resolving the dependents *)

(** In [main] the graph and the package map are built from the same
    objects, so the lookup of a dependent never fails there. *)
Lemma Map_of_is_Some {K V} `{Countable K} (l : list (K * V)) k :
  k ∈ l.*1 → is_Some (Map_of l !! k).
Proof.
  unfold Map_of. generalize (∅ : gmap K V).
  induction l as [|[k' v'] l IH]; intros m Hk; [by apply elem_of_nil in Hk|].
  cbn [foldl]. destruct (decide (k ∈ l.*1)) as [Hin|Hnin]; [by apply IH|].
  rewrite Map_of_from_lookup_notin by done.
  rewrite fmap_cons in Hk. apply elem_of_cons in Hk as [->|Hk]; [|done].
  cbn. rewrite lookup_insert_eq. eauto.
Qed.

Lemma workspace_edges_in_package_map packages key d :
  d ∈ edges_of key packages →
  is_Some (packagesByName_of (imap pair packages) !! dep_name d).
Proof.
  intros (i & p & t & vr & Hi & _ & ->)%elem_of_edges_of. cbn.
  unfold packagesByName_of. rewrite packagesByName_pairs.
  apply Map_of_is_Some. rewrite imap_swap_fst. unfold names.
  apply list_elem_of_fmap. exists p. split; [done|].
  by eapply list_elem_of_lookup_2.
Qed.

(** No entry of the graph is an empty list. *)
Lemma foldl_add_edge_nonempty n t (l : list (string * string)) (g : Graph) :
  (∀ key, g !! key ≠ Some []) →
  ∀ key, foldl (add_edge n t) g l !! key ≠ Some [].
Proof.
  revert g. induction l as [|[k v] l IH]; intros g Hg; cbn [foldl]; [done|].
  apply IH. intros key. unfold add_edge. cbn [fst snd].
  destruct (decide (k = key)) as [->|Hne].
  - rewrite lookup_insert_eq. intros [= Heq]. by destruct (default [] (g !! key)).
  - by rewrite lookup_insert_ne.
Qed.

Lemma getDependentsGraph_nonempty packages key :
  getDependentsGraph packages !! key ≠ Some [].
Proof.
  unfold getDependentsGraph.
  assert (∀ key, (∅ : Graph) !! key ≠ Some []) as Hg
    by (intros k; by rewrite lookup_empty).
  revert key. generalize dependent (∅ : Graph).
  induction packages as [|p ps IH]; intros g Hg; cbn [foldl]; [done|].
  apply IH. unfold add_package, dependencyTypes. cbn [foldl].
  unfold add_depType.
  by do 3 apply foldl_add_edge_nonempty.
Qed.

Lemma filter_eq_absent (l : list nat) x :
  x ∉ l → filter (λ y, y = x) l = [].
Proof.
  induction l as [|y l IH]; intros Hx; [done|].
  apply not_elem_of_cons in Hx as [Hne Hx]. rewrite filter_cons.
  rewrite decide_False by done. by apply IH.
Qed.

Lemma NoDup_filter_eq_length (l : list nat) x :
  NoDup l → x ∈ l → length (filter (λ y, y = x) l) = 1.
Proof.
  induction l as [|y l IH]; intros Hnd Hin; [by apply elem_of_nil in Hin|].
  apply NoDup_cons in Hnd as [Hy Hnd]. rewrite filter_cons.
  case_decide as Hyx.
  - subst y. cbn. f_equal. by rewrite filter_eq_absent.
  - apply elem_of_cons in Hin as [->|Hin]; [done|]. by apply IH.
Qed.

Lemma run_updated_valid plan packages ref :
  NoDup (names packages) →
  ref ∈ run_updated plan packages →
  ∃ p a, packages !! ref = Some p ∧ a ∈ run_actions plan packages ∧ a_ref a = ref.
Proof.
  intros Hnd [Hin|Hin]%elem_of_foldl_Set_add; [by apply elem_of_nil in Hin|].
  apply list_elem_of_fmap in Hin as (a & -> & Ha).
  pose proof Ha as (r & p & vr & _ & _ & Hp & _)%elem_of_run_actions; [|done].
  eauto.
Qed.

Lemma writes_Forall2 (h : list Package) (refs : list nat) :
  Forall (λ ref, is_Some (h !! ref)) refs →
  Forall2 (λ ref e, ∃ p, h !! ref = Some p ∧ e = WriteFile (dir p) (packageJson p))
          refs (omap (write_of h) refs).
Proof.
  induction 1 as [|ref refs [p Hp] _ IH]; [constructor|].
  rewrite omap_cons_eq. unfold write_of at 1. rewrite Hp. cbn.
  constructor; [by exists p|done].
Qed.

(** No run of [main] fails on a dependent it cannot find: graph and
    package map come from the same objects. *)
Lemma updateDependents_from_finds release dependents pbn rbn acc w d w' :
  Forall (λ dep, is_Some (pbn !! dep_name dep)) dependents →
  updateDependents_from release dependents pbn rbn acc w
    ≠ (Throw (CannotFindPackage d), w').
Proof.
  revert acc w. induction dependents as [|dep rest IH]; intros acc w Hall;
    cbn [updateDependents_from]; [done|].
  apply Forall_cons in Hall as [[ref Href] Hall].
  destruct (notReleased rbn (dep_name dep)); [|by apply IH].
  destruct (negb _); [by apply IH|]. rewrite Href, bind_run. unfold deref.
  destruct (heap w !! ref) as [p|] eqn:Hp; [|done].
  destruct (get_deps _ _); [|done].
  rewrite bind_run. unfold assign. rewrite Hp. by apply IH.
Qed.

Lemma run_finds_dependents plan packages d w' :
  run plan packages ≠ (Throw (CannotFindPackage d), w').
Proof.
  unfold run, main. rewrite bind_run. unfold getPackages. cbn [heap].
  rewrite imap_pair_snd. unfold main_body. rewrite bind_run.
  set (g := getDependentsGraph packages).
  set (pbn := packagesByName_of (imap pair packages)).
  set (rbn := releasesByName_of plan).
  assert (∀ rs acc w w1,
            forReleases rs g pbn rbn acc w ≠ (Throw (CannotFindPackage d), w1))
    as Hloop.
  { induction rs as [|r rs IH]; intros acc w w1; cbn [forReleases]; [done|].
    case_bool_decide; [|by apply IH].
    destruct (g !! release_name r) as [deps|] eqn:Hdeps; [|by apply IH].
    rewrite bind_run. unfold updateDependents.
    destruct (updateDependents_from _ _ _ _ _ _) as [[upd|e] w2] eqn:Hupd;
      [by apply IH|].
    intros [= -> ->]. revert Hupd. apply updateDependents_from_finds.
    apply Forall_forall. intros dep Hdep.
    apply (workspace_edges_in_package_map packages (release_name r)).
    by rewrite <- (graph_lookup_edges_of _ _ _ Hdeps). }
  destruct (forReleases _ _ _ _ _ _) as [[upd|e] w1] eqn:Hfor.
  - rewrite bind_run.
    destruct (writeAll upd w1) as [[[]|e] w2] eqn:Hw.
    + case_bool_decide; [rewrite bind_run|]; cbn; done.
    + intros [= -> ->]. clear -Hw. revert w1 Hw.
      induction upd as [|ref upd IH]; intros w1; cbn [writeAll]; [done|].
      rewrite bind_run. unfold deref. destruct (heap w1 !! ref); [|done].
      rewrite bind_run. unfold emit. apply IH.
  - intros [= -> ->]. by apply Hloop in Hfor.
Qed.

(** ** The claims about the propagator *)

(** C1.  A workspace package [P] declares, in one of its three dependency
    maps, a range starting with a caret on [D]; [D] is in the release plan
    with bump type minor; [P] is absent from the plan or present with equal
    old and new version.  Then the run succeeds, and afterwards [P]'s range
    for [D] in that map is the string ["^"] followed by [D]'s new version,
    in memory and in the manifest written for [P].  Package names and
    release names are pairwise different. *)
Theorem C1_caret_range_bumped plan packages i P t D rng r :
  NoDup (names packages) →
  NoDup (map release_name (releases plan)) →
  packages !! i = Some P →
  declared P t D = Some rng →
  Js.startsWith rng "^" = true →
  r ∈ releases plan → release_name r = D → release_type r = minor →
  (∀ r', r' ∈ releases plan → name (packageJson P) = Some (release_name r') →
         oldVersion r' = newVersion r') →
  ∃ w' P',
    run plan packages = (Ok tt, w') ∧
    heap w' !! i = Some P' ∧
    dir P' = dir P ∧ name (packageJson P') = name (packageJson P) ∧
    declared P' t D = Some (String.append "^" (newVersion r)) ∧
    WriteFile (dir P) (packageJson P') ∈ trace w'.
Proof.
  intros Hnd Hrel HP Hdecl Hcaret Hr <- Hminor Hunrel.
  destruct (run_bumps_cell plan packages i P t rng r) as [Hcell Hupd]; [done..|].
  rewrite run_spec by done.
  unfold cell, caret_of in Hcell.
  destruct (run_heap plan packages !! i) as [P'|] eqn:HP'; [|done].
  cbn in Hcell.
  pose proof HP' as (P0 & HP0 & Hdir & Hname & _)%foldl_apply_action_identity.
  assert (P0 = P) as -> by congruence.
  eexists _, P'. split_and!; [done..|]. cbn [trace].
  apply elem_of_app. left. rewrite <- Hdir.
  by apply (elem_of_omap_write_of _ _ i).
Qed.

Lemma C1_witness :
  ∃ w' P',
    run (mkReleasePlan [Sample.minor_a]) Sample.packages = (Ok tt, w') ∧
    heap w' !! 1 = Some P' ∧
    dir P' = dir Sample.package_b ∧
    name (packageJson P') = name (packageJson Sample.package_b) ∧
    declared P' T_dependencies "@af/package-a" = Some "^1.1.0"%string ∧
    WriteFile (dir Sample.package_b) (packageJson P') ∈ trace w'.
Proof.
  apply (C1_caret_range_bumped (mkReleasePlan [Sample.minor_a]) Sample.packages
           1 Sample.package_b T_dependencies "@af/package-a" "^1.0.0"
           Sample.minor_a).
  - apply (bool_decide_unpack _). vm_compute. exact I.
  - apply (bool_decide_unpack _). vm_compute. exact I.
  - reflexivity.
  - vm_compute. reflexivity.
  - vm_compute. reflexivity.
  - cbn. by left.
  - reflexivity.
  - reflexivity.
  - intros r' ->%list_elem_of_singleton. discriminate.
Defined.

(** C3.  When every release of the plan has bump type patch or major, the
    run rewrites no range (the objects are as loaded), writes no manifest
    and makes no commit: the trace is empty. *)
Theorem C3_patch_major_no_rewrite plan packages :
  (∀ r, r ∈ releases plan → release_type r = patch ∨ release_type r = major) →
  run plan packages = (Ok tt, mkWorld packages []).
Proof.
  intros Hpm. apply run_no_minor. intros r Hr Hm.
  destruct (Hpm r Hr) as [Ht|Ht]; rewrite Ht in Hm; discriminate.
Qed.

Lemma C3_witness :
  run (mkReleasePlan [Sample.patch_a]) Sample.packages
  = (Ok tt, mkWorld Sample.packages []).
Proof.
  apply (C3_patch_major_no_rewrite (mkReleasePlan [Sample.patch_a]) Sample.packages).
  intros r ->%list_elem_of_singleton. by left.
Defined.

(** C4.  When the plan has several minor releases and an unreleased
    package [C] declares caret ranges on them, the run updates every one of
    these ranges and writes [C]'s manifest exactly once, after all updates:
    the updated references are pairwise different, one write is issued
    per reference with the final content of the object, and they are
    followed by one commit.  The one manifest written for [C] holds, for
    every such release, the string ["^"] followed by the new version. *)
Theorem C4_written_once plan packages c C :
  NoDup (names packages) →
  NoDup (map release_name (releases plan)) →
  packages !! c = Some C →
  (∀ r', r' ∈ releases plan → name (packageJson C) = Some (release_name r') →
         oldVersion r' = newVersion r') →
  ∃ upd h' writes C',
    run plan packages = (Ok tt, mkWorld h' (writes ++ commit_of upd)) ∧
    NoDup upd ∧
    Forall2 (λ ref e, ∃ p, h' !! ref = Some p ∧
                           e = WriteFile (dir p) (packageJson p)) upd writes ∧
    h' !! c = Some C' ∧ dir C' = dir C ∧
    ∀ r t rng,
      r ∈ releases plan → release_type r = minor →
      declared C t (release_name r) = Some rng →
      Js.startsWith rng "^" = true →
      declared C' t (release_name r)
        = Some (String.append "^" (newVersion r)) ∧
      length (filter (λ ref, ref = c) upd) = 1 ∧
      WriteFile (dir C) (packageJson C') ∈ writes ∧
      commit_of upd = [GitAdd ["-u"]; GitCommit commitMessage true].
Proof.
  intros Hnd Hrel HC Hunrel.
  assert (∃ C', run_heap plan packages !! c = Some C' ∧ dir C' = dir C)
    as (C' & HC' & Hdir).
  { destruct (run_heap plan packages !! c) as [C'|] eqn:HC'.
    - exists C'. split; [done|].
      apply foldl_apply_action_identity in HC' as (P0 & HP0 & Hdir & _).
      by assert (P0 = C) as -> by congruence.
    - apply lookup_ge_None in HC'. unfold run_heap in HC'.
      rewrite length_foldl_apply_action in HC'.
      apply lookup_lt_Some in HC. lia. }
  exists (run_updated plan packages), (run_heap plan packages),
         (omap (write_of (run_heap plan packages)) (run_updated plan packages)),
         C'.
  assert (NoDup (run_updated plan packages)) as Hupd_nd
    by apply NoDup_foldl_Set_add, NoDup_nil_2.
  split_and!; [by apply run_spec|done| |done|done|].
  - apply writes_Forall2, Forall_forall. intros ref Href.
    apply run_updated_valid in Href as (p & _ & Hp & _); [|done].
    apply lookup_lt_is_Some. unfold run_heap.
    rewrite length_foldl_apply_action. by eapply lookup_lt_Some.
  - intros r t rng Hr Hminor Hdecl Hcaret.
    destruct (run_bumps_cell plan packages c C t rng r) as [Hcell Hin]; [done..|].
    unfold cell, caret_of in Hcell. rewrite HC' in Hcell. cbn in Hcell.
    split_and!; [done|by apply NoDup_filter_eq_length| |].
    + rewrite <- Hdir. by apply (elem_of_omap_write_of _ _ c).
    + unfold commit_of. rewrite bool_decide_eq_true_2; [done|].
      destruct (run_updated plan packages); [by apply elem_of_nil in Hin|cbn; lia].
Qed.

Lemma C4_witness :
  ∃ upd h' writes C',
    run (mkReleasePlan [Sample.minor_a; Sample.minor_b]) Sample.packages
    = (Ok tt, mkWorld h' (writes ++ commit_of upd)) ∧
    NoDup upd ∧
    Forall2 (λ ref e, ∃ p, h' !! ref = Some p ∧
                           e = WriteFile (dir p) (packageJson p)) upd writes ∧
    h' !! 2 = Some C' ∧ dir C' = dir Sample.package_c ∧
    ∀ r t rng,
      r ∈ [Sample.minor_a; Sample.minor_b] → release_type r = minor →
      declared Sample.package_c t (release_name r) = Some rng →
      Js.startsWith rng "^" = true →
      declared C' t (release_name r)
        = Some (String.append "^" (newVersion r)) ∧
      length (filter (λ ref, ref = 2) upd) = 1 ∧
      WriteFile (dir Sample.package_c) (packageJson C') ∈ writes ∧
      commit_of upd = [GitAdd ["-u"]; GitCommit commitMessage true].
Proof.
  apply (C4_written_once (mkReleasePlan [Sample.minor_a; Sample.minor_b])
           Sample.packages 2 Sample.package_c).
  - apply (bool_decide_unpack _). vm_compute. exact I.
  - apply (bool_decide_unpack _). vm_compute. exact I.
  - reflexivity.
  - intros r' [->|[->|[]%elem_of_nil]%elem_of_cons]%elem_of_cons; discriminate.
Defined.

(** C2, as the code has it.  A second run on the packages left by a first
    run, with the same plan, changes no range: the objects stay as the
    first run left them.  But it issues the calls of the first run again:
    each updated dependent's manifest is written once more, with the same
    content, and a commit follows whenever the first run made one. *)
Theorem C2_second_run_repeats plan packages w1 :
  NoDup (names packages) →
  NoDup (map release_name (releases plan)) →
  run plan packages = (Ok tt, w1) →
  run plan (heap w1) = (Ok tt, w1).
Proof.
  intros Hnd Hrel. rewrite run_spec by done. intros [= <-]. cbn [heap].
  assert (NoDup (names (run_heap plan packages))) as Hnd1.
  { unfold run_heap. by rewrite names_foldl_apply_action. }
  rewrite run_spec by done.
  assert (run_updated plan (run_heap plan packages) = run_updated plan packages)
    as -> by (unfold run_updated; by rewrite run_actions_again).
  by rewrite run_heap_again.
Qed.

Lemma C2_witness :
  run (mkReleasePlan [Sample.minor_a])
      (heap (run (mkReleasePlan [Sample.minor_a]) Sample.packages).2)
  = run (mkReleasePlan [Sample.minor_a]) Sample.packages.
Proof.
  apply (C2_second_run_repeats (mkReleasePlan [Sample.minor_a]) Sample.packages).
  - apply (bool_decide_unpack _). vm_compute. exact I.
  - apply (bool_decide_unpack _). vm_compute. exact I.
  - vm_compute. reflexivity.
Defined.

(** C2 as stated fails: on the jest workspace with [@af/package-a]
    released as minor, the second run writes both dependents' manifests
    again and commits again. *)
Lemma C2_counterexample :
  let plan := mkReleasePlan [Sample.minor_a] in
  let first := run plan Sample.packages in
  let second := run plan (heap first.2) in
  first.1 = Ok tt ∧ second.1 = Ok tt ∧
  heap second.2 = heap first.2 ∧
  trace second.2 =
    [WriteFile "foo/package-b"
       (Sample.manifest "@af/package-b" (Some {[ "@af/package-a" := "^1.1.0" ]}));
     WriteFile "foo/package-c"
       (Sample.manifest "@af/package-c"
          (Some (<["@af/package-b" := "^1.0.0"]> {[ "@af/package-a" := "^1.1.0" ]})));
     GitAdd ["-u"];
     GitCommit commitMessage true].
Proof. vm_compute. done. Qed.

(** C9, as the code has it.  [getDependentsGraph] cannot fail: for every
    list of packages, with or without names, it returns the graph whose
    entry for a key lists the declaring packages in input order, category
    by category, and which has no entry for a key nobody declares.  A
    package without a name contributes edges without a dependent name. *)
Theorem C9_graph_total packages key :
  getDependentsGraph packages !! key =
  match edges_of key packages with
  | [] => None
  | dependents => Some dependents
  end.
Proof.
  pose proof (getDependentsGraph_lookup packages key) as Hl.
  pose proof (getDependentsGraph_nonempty packages key) as Hne.
  destruct (getDependentsGraph packages !! key) as [deps|]; cbn in Hl.
  - rewrite <- Hl. destruct deps; [done|done].
  - by rewrite <- Hl.
Qed.

(** C9 as stated fails: a package record without a name does not make the
    builder fail; it yields an edge whose dependent name is undefined, and
    the whole run goes through. *)
Lemma C9_counterexample :
  name (packageJson Sample.nameless) = None ∧
  getDependentsGraph [Sample.nameless] !! "@af/package-a"
  = Some [mkDependency None "^1.0.0" T_dependencies] ∧
  (run (mkReleasePlan [Sample.minor_a]) [Sample.nameless]).1 = Ok tt.
Proof. vm_compute. done. Qed.

End MinVersionsFacts.

Module RegexFacts.

Import Regex.

(** The matcher only accepts what the pattern denotes. *)
Lemma run_sound r p k :
  run r p k = true → ∃ p', Den r p p' ∧ k p' = true.
Proof.
  revert p k. induction r as [|c| |r1 IH1 r2 IH2|r1 IH1 r2 IH2|r1 IH1|r1 IH1| |];
    intros p k; cbn [run].
  - intros Hk. exists p. split; [constructor|done].
  - destruct (rest p) as [|x xs] eqn:Hr; [done|]. case_bool_decide; [|done].
    subst x. intros Hk. eexists. split; [by apply Den_Chr|done].
  - destruct (rest p) as [|x xs] eqn:Hr; [done|].
    destruct (isLineTerminator x) eqn:Hx; [done|].
    intros Hk. eexists. split; [by eapply Den_Dot|done].
  - intros (p1 & H1 & (p2 & H2 & Hk)%IH2)%IH1.
    exists p2. split; [by econstructor|done].
  - intros [(p1 & H1 & Hk)%IH1|(p1 & H1 & Hk)%IH2]%orb_true_iff.
    + exists p1. split; [by apply Den_Alt_l|done].
    + exists p1. split; [by apply Den_Alt_r|done].
  - generalize (length (rest p)). intros n. revert p.
    induction n as [|n IHn]; intros p; cbn [star_run].
    + rewrite orb_false_r. intros Hk. exists p. split; [constructor|done].
    + intros [Hk|Hrun]%orb_true_iff.
      * exists p. split; [constructor|done].
      * apply IH1 in Hrun as (p1 & H1 & Hk). case_bool_decide; [|done].
        apply IHn in Hk as (p2 & H2 & Hk).
        exists p2. split; [by econstructor|done].
  - intros [(p1 & H1 & Hk)%IH1|Hk]%orb_true_iff.
    + exists p1. split; [by apply Den_Opt_some|done].
    + exists p. split; [apply Den_Opt_none|done].
  - case_bool_decide; [|done]. intros Hk. exists p. split; [by constructor|done].
  - destruct (rest p) eqn:Hr; [|done]. intros Hk.
    exists p. split; [by constructor|done].
Qed.

(** A match reads a part of the rest and leaves what follows. *)
Lemma Den_read r p p' :
  Den r p p' →
  ∃ read, rest p = read ++ rest p' ∧ before p' = before p + length read.
Proof.
  induction 1 as [p|c p xs Hr|x p xs Hr _
                 |r1 r2 p p' p'' _ (a & Ha & Ha') _ (b & Hb & Hb')
                 |r1 r2 p p' _ IH|r1 r2 p p' _ IH|r p
                 |r p p' p'' _ (a & Ha & Ha') _ (b & Hb & Hb')
                 |r p p' _ IH|r p|p _|p _];
    try (exists []; cbn; split; [done|lia]); try done.
  - exists [c]. cbn. split; [done|lia].
  - exists [x]. cbn. split; [done|lia].
  - exists (a ++ b). rewrite Ha, Hb, Hb', Ha', length_app, <- app_assoc.
    split; [done|lia].
  - exists (a ++ b). rewrite Ha, Hb, Hb', Ha', length_app, <- app_assoc.
    split; [done|lia].
Qed.

Lemma Den_rest r p p' : Den r p p' → ∃ read, rest p = read ++ rest p'.
Proof. intros (read & Hr & _)%Den_read. eauto. Qed.

Lemma Den_lit_chars l p p' :
  Den (foldr (λ c r, Cat (Chr c) r) Eps l) p p' → rest p = l ++ rest p'.
Proof.
  revert p. induction l as [|c l IH]; intros p; cbn [foldr].
  - by inversion 1.
  - inversion 1 as [| | |r1 r2 q q' q'' Hc Hl| | | | | | | |]; subst.
    inversion Hc as [|c' q0 xs Hr| | | | | | | | | |]; subst.
    apply IH in Hl. cbn in Hl. by rewrite Hr, Hl.
Qed.

Lemma Den_lit s p p' : Den (lit s) p p' → rest p = Js.chars s ++ rest p'.
Proof. apply Den_lit_chars. Qed.

(** Split a match of a concatenation at the position in between. *)
Tactic Notation "den_cat" hyp(H) "as" ident(p) ident(H1) ident(H2) :=
  inversion H as [| | |? ? ? p ? H1 H2| | | | | | | |]; subst.

(** What [.*] runs over has no line terminator. *)
Lemma Den_star_dot p p' :
  Den (Star Dot) p p' → ∃ read, oneLine read ∧ rest p = read ++ rest p'.
Proof.
  intros Hden. remember (Star Dot) as r eqn:Hr.
  induction Hden as [| | | | | |r p|r p p' p'' Hbody _ _ IH| | | |];
    try discriminate.
  - exists []. split; [constructor|done].
  - injection Hr as ->. destruct (IH eq_refl) as (read & Hone & Hrest).
    inversion Hbody as [| |x q xs Hx Hlt| | | | | | | | |]; subst.
    exists (x :: read). split; [by constructor|].
    rewrite Hx. cbn in Hrest. by rewrite Hrest.
Qed.

(** A successful search exhibits a match somewhere in the input. *)
Lemma positions_spec n s p :
  p ∈ positions n s ↔
  ∃ read, s = read ++ rest p ∧ before p = n + length read.
Proof.
  revert n. induction s as [|x s IH]; intros n; cbn [positions].
  - rewrite list_elem_of_singleton. split.
    + intros ->. exists []. cbn. split; [done|lia].
    + intros (read & Hs & Hb). symmetry in Hs.
      apply app_eq_nil in Hs as [-> Hs]. destruct p. cbn in *.
      subst. f_equal. lia.
  - rewrite elem_of_cons, IH. split.
    + intros [->|(read & -> & ->)].
      * exists []. cbn. split; [done|lia].
      * exists (x :: read). cbn. split; [done|lia].
    + intros ([|y read] & Hs & Hb); cbn in *.
      * left. destruct p. cbn in *. subst. f_equal. lia.
      * right. injection Hs as -> ->. exists read. split; [done|lia].
Qed.

Lemma matches_sound r s :
  matches r s = true →
  ∃ read p p', Js.chars s = read ++ rest p ∧ before p = length read ∧ Den r p p'.
Proof.
  unfold matches. intros (p & Hp%list_elem_of_In & Hrun)%existsb_exists.
  apply run_sound in Hrun as (p' & Hden & _).
  apply positions_spec in Hp as (read & Hs & Hb). exists read, p, p'. done.
Qed.

(** The matcher accepts everything the pattern denotes. *)
Lemma run_mono r p k k' :
  (∀ q, k q = true → k' q = true) → run r p k = true → run r p k' = true.
Proof.
  revert p k k'.
  induction r as [|c| |r1 IH1 r2 IH2|r1 IH1 r2 IH2|r1 IH1|r1 IH1| |];
    intros p k k' Hk; cbn [run].
  - apply Hk.
  - destruct (rest p); [done|]. case_bool_decide; [apply Hk|done].
  - destruct (rest p); [done|]. destruct (isLineTerminator _); [done|apply Hk].
  - apply IH1. intros q. by apply IH2.
  - rewrite !orb_true_iff. intros [?|?]; [left|right]; by eauto.
  - generalize (length (rest p)). intros n. revert p.
    induction n as [|n IHn]; intros p; cbn [star_run];
      rewrite !orb_true_iff; (intros [?|Hrun]; [left; by apply Hk|]); [done|].
    right. revert Hrun. apply IH1. intros q. case_bool_decide; [apply IHn|done].
  - rewrite !orb_true_iff. intros [?|?]; [left|right]; by eauto.
  - case_bool_decide; [apply Hk|done].
  - destruct (rest p); [apply Hk|done].
Qed.

Lemma star_run_fuel r k n m p :
  n ≤ m → star_run (run r) k n p = true → star_run (run r) k m p = true.
Proof.
  revert m p. induction n as [|n IHn]; intros m p Hle; cbn [star_run].
  - rewrite orb_false_r. intros Hk. destruct m; cbn [star_run]; by rewrite Hk.
  - destruct m as [|m]; [lia|]. cbn [star_run].
    rewrite !orb_true_iff. intros [?|Hrun]; [by left|]. right.
    revert Hrun. apply run_mono. intros q.
    case_bool_decide; [|done]. apply IHn. lia.
Qed.

Lemma run_complete r p p' k :
  Den r p p' → k p' = true → run r p k = true.
Proof.
  intros Hden. revert k.
  induction Hden as [p|c p xs Hr|x p xs Hr Hx|r1 r2 p p' p'' _ IH1 _ IH2
                    |r1 r2 p p' _ IH|r1 r2 p p' _ IH|r p
                    |r p p' p'' Hbody IH1 Hmore IH2|r p p' _ IH|r p|p Hb|p Hr];
    intros k Hk; cbn [run].
  - done.
  - rewrite Hr. by rewrite bool_decide_eq_true_2.
  - rewrite Hr, Hx. done.
  - apply IH1. by apply IH2.
  - rewrite IH by done. done.
  - rewrite (IH _ Hk). apply orb_true_r.
  - destruct (length (rest p)); cbn [star_run]; by rewrite Hk.
  - specialize (IH2 k Hk). cbn [run] in IH2.
    apply Den_read in Hbody as (read & Hrest & Hbefore).
    destruct read as [|c read].
    + replace p' with p in IH2; [done|].
      destruct p, p'. cbn in *. subst. f_equal. lia.
    + rewrite Hrest. cbn [length app star_run].
      apply orb_true_iff. right. apply IH1.
      rewrite bool_decide_eq_true_2 by (rewrite Hrest, length_app; cbn; lia).
      revert IH2. apply star_run_fuel. rewrite length_app. lia.
  - rewrite IH by done. done.
  - rewrite Hk. apply orb_true_r.
  - by rewrite bool_decide_eq_true_2.
  - by rewrite Hr.
Qed.

(** A search succeeds exactly when the pattern matches somewhere. *)
Lemma matches_iff r s :
  matches r s = true ↔
  ∃ read p p', Js.chars s = read ++ rest p ∧ before p = length read ∧ Den r p p'.
Proof.
  split; [apply matches_sound|].
  intros (read & p & p' & Hs & Hb & Hden). unfold matches.
  apply existsb_exists. exists p. split.
  - apply list_elem_of_In, positions_spec. exists read. split; [done|lia].
  - by eapply run_complete.
Qed.

(** How [.*] and a literal match. *)
Lemma Den_star_dot_intro read n tail :
  oneLine read →
  Den (Star Dot) (mkPos n (read ++ tail)) (mkPos (n + length read) tail).
Proof.
  intros Hone. revert n. induction Hone as [|c read Hc _ IH]; intros n; cbn.
  - rewrite Nat.add_0_r. constructor.
  - eapply Den_Star_more.
    + by apply (Den_Dot c (mkPos n (c :: read ++ tail)) (read ++ tail)).
    + unfold advance. cbn. replace (n + S (length read)) with (S n + length read) by lia.
      apply IH.
Qed.

Lemma Den_lit_intro s n tail :
  Den (lit s) (mkPos n (Js.chars s ++ tail)) (mkPos (n + length (Js.chars s)) tail).
Proof.
  unfold lit. generalize (Js.chars s). intros l. revert n.
  induction l as [|c l IH]; intros n; cbn.
  - rewrite Nat.add_0_r. constructor.
  - eapply Den_Cat.
    + by apply (Den_Chr c (mkPos n (c :: l ++ tail)) (l ++ tail)).
    + unfold advance. cbn. replace (n + S (length l)) with (S n + length l) by lia.
      apply IH.
Qed.

End RegexFacts.

Module ChangedPackagesFacts.

Import Regex RegexFacts ChangedPackages.

(** *** Strings *)

Lemma chars_append (a b : string) :
  Js.chars (String.append a b) = Js.chars a ++ Js.chars b.
Proof.
  unfold Js.chars. induction a as [|c a IH]; [done|].
  change (c :: list_ascii_of_string (String.append a b) =
          c :: (list_ascii_of_string a ++ list_ascii_of_string b)).
  by rewrite IH.
Qed.

Lemma chars_inj (a b : string) : Js.chars a = Js.chars b → a = b.
Proof.
  intros Heq. rewrite <- (string_of_list_ascii_of_string a),
    <- (string_of_list_ascii_of_string b). unfold Js.chars in Heq. by rewrite Heq.
Qed.

Lemma startsWith_spec (s p : string) :
  Js.startsWith s p = true ↔ ∃ rest, s = String.append p rest.
Proof.
  unfold Js.startsWith. rewrite bool_decide_eq_true. split.
  - intros [k Hk]. exists (string_of_list_ascii k). apply chars_inj.
    rewrite chars_append. unfold Js.chars at 3.
    by rewrite list_ascii_of_string_of_list_ascii.
  - intros [rest ->]. exists (Js.chars rest). apply chars_append.
Qed.

Lemma endsWith_spec (s p : string) :
  Js.endsWith s p = true ↔ ∃ front, Js.chars s = front ++ Js.chars p.
Proof. unfold Js.endsWith. by rewrite bool_decide_eq_true. Qed.

(** *** The file filter *)

(** A path the test-file pattern matches ends in [ts], [js], [tsx] or
    [jsx]. *)
Lemma isTestFileRegex_tail f :
  matches isTestFileRegex f = true →
  ∃ front tail, Js.chars f = front ++ tail ∧
    tail ∈ [Js.chars "ts"; Js.chars "js"; Js.chars "tsx"; Js.chars "jsx"].
Proof.
  intros (read & p & p' & Hs & _ & Hden)%matches_sound.
  unfold isTestFileRegex in Hden.
  den_cat Hden as p1 H1 Hden1.
  den_cat Hden1 as p2 H2 Hden2.
  den_cat Hden2 as p3 H3 Hden3.
  den_cat Hden3 as p4 H4 Hden4.
  den_cat Hden4 as p5 H5 Hden5.
  den_cat Hden5 as p6 H6 H7.
  apply Den_rest in H1 as [r1 E1]. apply Den_rest in H2 as [r2 E2].
  apply Den_rest in H3 as [r3 E3]. apply Den_rest in H4 as [r4 E4].
  inversion H7 as [| | | | | | | | | | |? E7]; subst.
  assert (rest p4 = Js.chars "ts" ++ rest p5 ∨ rest p4 = Js.chars "js" ++ rest p5)
    as E5.
  { inversion H5 as [| | | |? ? ? ? Hl|? ? ? ? Hl| | | | | |]; subst;
      apply Den_lit in Hl; eauto. }
  assert (rest p5 = [] ∨ rest p5 = Js.chars "x") as E6.
  { inversion H6 as [| | | | | | | |? ? ? Hx| | |]; subst; [|by left; congruence].
    inversion Hx as [|? ? ? Hr| | | | | | | | | |]; subst. cbn in E7. subst.
    by right. }
  exists (read ++ r1 ++ r2 ++ r3 ++ r4), (rest p4). split.
  - rewrite Hs, E1, E2, E3, E4. by rewrite <- !app_assoc.
  - destruct E5 as [->| ->], E6 as [->| ->]; cbn; set_solver.
Qed.

Lemma last_chars_app (front tail : list ascii) c :
  last tail = Some c → last (front ++ tail) = Some c.
Proof.
  intros Hl. destruct tail as [|x tail]; [done|].
  rewrite last_app. by rewrite Hl.
Qed.

(** The privileged file names end in [n]: the test-file pattern never
    matches them. *)
Lemma privileged_not_test_file f :
  existsb (λ pattern, Js.endsWith f pattern) definitelyNeedChangeset = true →
  matches isTestFileRegex f = false.
Proof.
  intros Hp. apply not_true_is_false. intros Hm.
  assert (last (Js.chars f) = Some "n"%char) as Hn.
  { cbn [existsb definitelyNeedChangeset] in Hp. rewrite orb_false_r in Hp.
    apply orb_true_iff in Hp as [(front & ->)%endsWith_spec|(front & ->)%endsWith_spec];
      by apply last_chars_app. }
  apply isTestFileRegex_tail in Hm as (front & tail & Hf & Ht).
  rewrite Hf in Hn.
  assert (∀ c, last tail = Some c → c = "n"%char) as Hlast.
  { intros c Hc. rewrite (last_chars_app front tail c Hc) in Hn. congruence. }
  repeat (apply elem_of_cons in Ht as [->|Ht];
          [by specialize (Hlast _ eq_refl)|]).
  by apply elem_of_nil in Ht.
Qed.

(** The test-directory pattern matches the paths that have [/src/] and,
    later, [__tests__] in them, on one line up to there. *)
Lemma isInTestDirRegex_iff f :
  matches isInTestDirRegex f = true ↔
  ∃ a b c, oneLine a ∧ oneLine b ∧
    Js.chars f = a ++ Js.chars "/src/" ++ b ++ Js.chars "__tests__" ++ c.
Proof.
  rewrite matches_iff. split.
  - intros (read & p & p' & Hs & Hb & Hden). unfold isInTestDirRegex in Hden.
    den_cat Hden as p1 H1 Hden1.
    den_cat Hden1 as p2 H2 Hden2.
    den_cat Hden2 as p3 H3 Hden3.
    den_cat Hden3 as p4 H4 Hden4.
    den_cat Hden4 as p5 H5 H6.
    inversion H1 as [| | | | | | | | | |? Hstart|]; subst.
    assert (read = []) as -> by (apply nil_length_inv; lia).
    apply Den_star_dot in H2 as (a & Ha & E2). apply Den_lit in H3.
    apply Den_star_dot in H4 as (b & Hb' & E4). apply Den_lit in H5.
    exists a, b, (rest p5). split_and!; [done..|].
    rewrite Hs, E2, H3, E4, H5. done.
  - intros (a & b & c & Ha & Hb & Hf).
    exists [], (mkPos 0 (Js.chars f)). eexists. split_and!; [done..|].
    rewrite Hf. unfold isInTestDirRegex.
    eapply Den_Cat; [by apply Den_Bol|].
    eapply Den_Cat; [by apply Den_star_dot_intro|].
    eapply Den_Cat; [apply Den_lit_intro|].
    eapply Den_Cat; [by apply Den_star_dot_intro|].
    eapply Den_Cat; [apply Den_lit_intro|].
    apply Den_Star_stop.
Qed.

(** *** Resolution of files to packages *)

Section resolver_facts.

Context (sep : string) (path_relative : string → string → string)
        (projectDir : string) (workspaces : list Workspace).

Local Abbreviation allPkgs := (allPackages path_relative projectDir workspaces).
Local Abbreviation resolve :=
  (fileNameToPackage sep path_relative projectDir workspaces).
Local Abbreviation fromFiles :=
  (getChangedPackagesFromChangedFiles sep path_relative projectDir workspaces).
Local Abbreviation withFiles :=
  (getChangedPackagesWithChangedFiles sep path_relative projectDir workspaces).
Local Abbreviation kept := (λ fileName, isRatchet fileName = false).

(** A file resolves to the first package it lies below. *)
Lemma fileNameToPackage_Some fileName i pkg :
  resolve fileName = Some (i, pkg) ↔
  allPkgs !! i = Some pkg ∧ inPackageDir sep pkg fileName ∧
  ∀ j q, allPkgs !! j = Some q → j < i → ¬ inPackageDir sep q fileName.
Proof.
  unfold fileNameToPackage. rewrite list_find_Some. unfold inPackageDir.
  rewrite startsWith_spec.
  split; intros (Hi & Hp & Hfirst); (split_and!; [done..|]);
    intros j q Hj Hlt; specialize (Hfirst j q Hj Hlt);
    by rewrite startsWith_spec in *.
Qed.

Lemma fileNameToPackage_None fileName :
  resolve fileName = None ↔
  ∀ pkg, pkg ∈ allPkgs → ¬ inPackageDir sep pkg fileName.
Proof.
  unfold fileNameToPackage. rewrite list_find_None, Forall_forall.
  unfold inPackageDir. split; intros Hn pkg Hin; specialize (Hn pkg Hin);
    by rewrite startsWith_spec in *.
Qed.

Lemma fileNameToPackage_is_Some fileName :
  is_Some (resolve fileName) ↔
  ∃ pkg, pkg ∈ allPkgs ∧ inPackageDir sep pkg fileName.
Proof.
  split.
  - intros [[i pkg] (Hi & Hp & _)%fileNameToPackage_Some].
    exists pkg. split; [by eapply list_elem_of_lookup_2|done].
  - intros (pkg & Hin & Hp). apply not_eq_None_Some.
    intros Hn. rewrite fileNameToPackage_None in Hn. by eapply Hn.
Qed.

Lemma inPackageDir_startsWith pkg fileName :
  inPackageDir sep pkg fileName ↔
  Js.startsWith fileName (String.append (dir pkg) sep) = true.
Proof. unfold inPackageDir. by rewrite startsWith_spec. Qed.

(** Two directories a file lies below lie one below the other. *)
Lemma inPackageDir_comparable p q fileName :
  inPackageDir sep p fileName → inPackageDir sep q fileName →
  inPackageDir sep p (String.append (dir q) sep) ∨
  inPackageDir sep q (String.append (dir p) sep).
Proof.
  rewrite !inPackageDir_startsWith. unfold Js.startsWith.
  rewrite !bool_decide_eq_true. intros Hp Hq.
  destruct (prefix_weak_total _ _ _ Hp Hq); [by left|by right].
Qed.

(** Among directories that do not overlap, a file resolves to the package
    whose directory it lies below. *)
Lemma fileNameToPackage_nonOverlapping fileName i pkg :
  nonOverlapping sep path_relative projectDir workspaces →
  allPkgs !! i = Some pkg →
  resolve fileName = Some (i, pkg) ↔ inPackageDir sep pkg fileName.
Proof.
  intros Hno Hi. rewrite fileNameToPackage_Some. split; [by intros (_ & ? & _)|].
  intros Hin. split_and!; [done..|]. intros j q Hj Hlt Hq.
  destruct (inPackageDir_comparable pkg q fileName Hin Hq) as [Hc|Hc].
  - eapply (Hno i j); [done..|lia|done].
  - eapply (Hno j i); [done..|lia|done].
Qed.

(** A discarded file leaves the list of kept files as it is. *)
Lemma filter_kept_insert (l1 l2 : list string) x :
  isRatchet x = true → filter kept (l1 ++ x :: l2) = filter kept (l1 ++ l2).
Proof.
  intros Hx. rewrite !filter_app, filter_cons.
  rewrite decide_False; [done|]. by rewrite Hx.
Qed.

Lemma elem_of_unique (l : list (nat * AFPackage)) x : x ∈ unique l → x ∈ l.
Proof.
  unfold unique. intros ([idx y] & Hin & Hx)%list_elem_of_omap.
  cbn in Hx. case_bool_decide; [|done]. injection Hx as ->.
  apply elem_of_lookup_imap in Hin as (j & z & [= -> ->] & Hl).
  by eapply list_elem_of_lookup_2.
Qed.

(** Every returned package is the package of a kept changed file. *)
Lemma fromFiles_witness files x :
  x ∈ fromFiles files →
  ∃ fileName, fileName ∈ files ∧ isRatchet fileName = false ∧
              resolve fileName = Some x.
Proof.
  unfold getChangedPackagesFromChangedFiles, filterDefined.
  intros (o & Ho & Hx)%elem_of_unique%list_elem_of_omap. cbn in Hx. subst o.
  apply list_elem_of_fmap in Ho as (f & Hf & [Hk Hin]%list_elem_of_filter).
  by exists f.
Qed.

Lemma elem_of_acc_push acc key fileName k c :
  (k, c) ∈ acc_push acc key fileName →
  (k, c) ∈ acc ∨
  ∃ c0, (k, c0) ∈ acc ∧ k = key ∧
        c = mkChanged (changedFiles c0 ++ [fileName]) (package c0).
Proof.
  induction acc as [|[k0 v0] acc IH]; cbn [acc_push]; [by left|].
  case_bool_decide as Hk.
  - intros [[= -> ->]|Hin]%elem_of_cons.
    + right. exists v0. split_and!; [by left|done..].
    + left. by right.
  - intros [[= -> ->]|Hin]%elem_of_cons.
    + left. by left.
    + apply IH in Hin as [Hin|(c0 & Hin & Heq)].
      * left. by right.
      * right. exists c0. split; [by right|done].
Qed.

Lemma reducer_recorded files acc fileName acc' :
  fileName ∈ files → isRatchet fileName = false →
  recorded_from sep path_relative projectDir workspaces files acc →
  reducer sep path_relative projectDir workspaces acc fileName = Ok acc' →
  recorded_from sep path_relative projectDir workspaces files acc'.
Proof.
  intros Hin Hkept Hacc. unfold reducer.
  destruct (resolve fileName) as [[i pkg]|] eqn:Hres; cbn [fmap option_fmap option_map snd];
    [|by intros [= <-]].
  case_bool_decide as Hempty; [by intros [= <-]|].
  assert (∃ fileName0 pkg0, fileName0 ∈ files ∧ isRatchet fileName0 = false ∧
            path_relative projectDir fileName = path_relative projectDir fileName0 ∧
            snd <$> resolve fileName0 = Some pkg0 ∧ name pkg0 = name pkg) as Hnew.
  { exists fileName, pkg. by rewrite Hres. }
  destruct (acc_get acc (name pkg)) as [c0|] eqn:Hget.
  - intros [= <-]. intros key c [Hc|(c1 & Hc1 & -> & ->)]%elem_of_acc_push.
    + by apply Hacc.
    + destruct (Hacc _ _ Hc1) as [Hname Hfiles]. cbn. split; [done|].
      intros r [Hr| ->%list_elem_of_singleton]%elem_of_app; [by apply Hfiles|done].
  - case_bool_decide; [done|]. intros [= <-].
    intros key c [Hc|[= -> ->]%list_elem_of_singleton]%elem_of_app.
    + by apply Hacc.
    + cbn. split; [done|]. by intros r ->%list_elem_of_singleton.
Qed.

Lemma reduce_recorded files todo acc acc' :
  (∀ f, f ∈ todo → f ∈ files ∧ isRatchet f = false) →
  recorded_from sep path_relative projectDir workspaces files acc →
  reduce sep path_relative projectDir workspaces todo acc = Ok acc' →
  recorded_from sep path_relative projectDir workspaces files acc'.
Proof.
  revert acc. induction todo as [|f todo IH]; intros acc Htodo Hacc; cbn [reduce].
  - by intros [= <-].
  - destruct (reducer _ _ _ _ acc f) as [acc1|e] eqn:Hred; [|done].
    apply IH; [intros f' Hf'; apply Htodo; by right|].
    destruct (Htodo f) as [Hin Hk]; [by left|].
    by eapply reducer_recorded.
Qed.

(** Every recorded file is a kept changed file. *)
Lemma withFiles_witness files cs c r :
  withFiles files = Ok cs → c ∈ cs → r ∈ changedFiles c →
  ∃ fileName pkg, fileName ∈ files ∧ isRatchet fileName = false ∧
    r = path_relative projectDir fileName ∧
    snd <$> resolve fileName = Some pkg ∧ name pkg = name (package c).
Proof.
  unfold getChangedPackagesWithChangedFiles.
  destruct (reduce _ _ _ _ _ _) as [acc|e] eqn:Hred; [|done].
  intros [= <-] ([k0 c'] & -> & Hin)%list_elem_of_fmap Hr. cbn in Hr.
  apply reduce_recorded with (files := files) in Hred.
  - destruct (Hred _ _ Hin) as [Hname Hfiles]. cbn.
    destruct (Hfiles r Hr) as (f & pkg & ? & ? & ? & ? & ?).
    exists f, pkg. split_and!; try done. congruence.
  - intros f [Hk Hf]%list_elem_of_filter. done.
  - intros key c0 Hc0. by apply elem_of_nil in Hc0.
Qed.

(** C8, as the code has it.  Resolution matches on the boundary of a path
    segment, not on a string prefix: a file resolves to a package exactly
    when the file name is the package's directory, the path separator and
    a rest, the package being the first such in workspace order (not the
    one with the longest directory); among package directories
    that do not overlap it is the only such, and the file resolves to a
    package exactly when it lies below that package's directory.  With a
    package in [packages/foo], the file [packages/foo-bar/src/index.ts]
    does not resolve and yields no changed package, while
    [packages/foo/src/index.ts] resolves to that package. *)
Theorem C8_resolution_on_segment_boundary fileName :
  (∀ i pkg,
     resolve fileName = Some (i, pkg) ↔
     allPkgs !! i = Some pkg ∧ inPackageDir sep pkg fileName ∧
     ∀ j q, allPkgs !! j = Some q → j < i → ¬ inPackageDir sep q fileName) ∧
  (nonOverlapping sep path_relative projectDir workspaces →
   ∀ i pkg, allPkgs !! i = Some pkg →
     resolve fileName = Some (i, pkg) ↔ inPackageDir sep pkg fileName) ∧
  (is_Some (resolve fileName) ↔
   ∃ pkg, pkg ∈ allPkgs ∧ inPackageDir sep pkg fileName) ∧
  (let foo := mkAFPackage "packages/foo" "foo"
                          (path_relative projectDir "packages/foo") in
   fileNameToPackage "/" path_relative projectDir [Sample.foo]
     "packages/foo-bar/src/index.ts" = None ∧
   getChangedPackagesFromChangedFiles "/" path_relative projectDir [Sample.foo]
     ["packages/foo-bar/src/index.ts"] = [] ∧
   fileNameToPackage "/" path_relative projectDir [Sample.foo]
     "packages/foo/src/index.ts" = Some (0, foo) ∧
   getChangedPackagesFromChangedFiles "/" path_relative projectDir [Sample.foo]
     ["packages/foo/src/index.ts"] = [(0, foo)]).
Proof.
  split_and!.
  - intros i pkg. apply fileNameToPackage_Some.
  - intros Hno i pkg Hi. by apply fileNameToPackage_nonOverlapping.
  - apply fileNameToPackage_is_Some.
  - cbv zeta. split_and!; reflexivity.
Qed.

(** C10.  A changed file whose path ends with [bundle-size-ratchet.json]
    is discarded before resolution, in both functions: with or without
    such a file in the input the result is the same, every returned
    package is the package of a changed file that does not end so, and
    every recorded file is such a file. *)
Theorem C10_ratchet_files_discarded files :
  (∀ l1 x l2, isRatchet x = true →
     fromFiles (l1 ++ x :: l2) = fromFiles (l1 ++ l2) ∧
     withFiles (l1 ++ x :: l2) = withFiles (l1 ++ l2)) ∧
  (∀ x, x ∈ fromFiles files →
     ∃ fileName, fileName ∈ files ∧ isRatchet fileName = false ∧
                 resolve fileName = Some x) ∧
  (∀ cs c r, withFiles files = Ok cs → c ∈ cs → r ∈ changedFiles c →
     ∃ fileName pkg, fileName ∈ files ∧ isRatchet fileName = false ∧
       r = path_relative projectDir fileName ∧
       snd <$> resolve fileName = Some pkg ∧ name pkg = name (package c)).
Proof.
  split_and!.
  - intros l1 x l2 Hx.
    unfold getChangedPackagesFromChangedFiles, getChangedPackagesWithChangedFiles.
    by rewrite filter_kept_insert.
  - apply fromFiles_witness.
  - apply withFiles_witness.
Qed.

End resolver_facts.

Lemma C10_witness :
  let ratchet := "packages/foo/bundle-size-ratchet.json"%string in
  let files := ["packages/foo/src/index.ts"]%string in
  getChangedPackagesFromChangedFiles "/" (λ _ f, f) "" [Sample.foo]
    ([] ++ ratchet :: files)
  = getChangedPackagesFromChangedFiles "/" (λ _ f, f) "" [Sample.foo]
      ([] ++ files) ∧
  getChangedPackagesWithChangedFiles "/" (λ _ f, f) "" [Sample.foo]
    ([] ++ ratchet :: files)
  = getChangedPackagesWithChangedFiles "/" (λ _ f, f) "" [Sample.foo]
      ([] ++ files).
Proof.
  cbv zeta.
  destruct (C10_ratchet_files_discarded "/" (λ _ f, f) "" [Sample.foo] [])
    as (Hsame & _ & _).
  apply Hsame. vm_compute. reflexivity.
Defined.

(** C8 as stated fails: with a workspace nested in the directory of
    another one that is listed first, a file below the nested directory has
    that directory and the separator as a prefix, but resolves to the outer
    package, the first match; it does not resolve to the nested one. *)
Lemma C8_counterexample :
  let ws := [Sample.foo; Sample.foo_nested] in
  let foo := mkAFPackage "packages/foo" "foo" "packages/foo" in
  let nested := mkAFPackage "packages/foo/nested" "foo-nested" "packages/foo/nested" in
  let fileName := "packages/foo/nested/src/index.ts"%string in
  allPackages (λ _ d, d) "" ws !! 1 = Some nested ∧
  Js.startsWith fileName (String.append (dir nested) "/") = true ∧
  fileNameToPackage "/" (λ _ d, d) "" ws fileName = Some (0, foo) ∧
  fileNameToPackage "/" (λ _ d, d) "" ws fileName ≠ Some (1, nested) ∧
  getChangedPackagesFromChangedFiles "/" (λ _ d, d) "" ws [fileName] = [(0, foo)].
Proof. vm_compute. split_and!; done. Qed.

(** Two sibling packages whose names share a prefix: each file resolves to
    the package whose directory it lies below. *)
Lemma C8_witness :
  let ws := [Sample.foo; Sample.foo_bar] in
  let foo_bar := mkAFPackage "packages/foo-bar" "foo-bar" "" in
  fileNameToPackage "/" (λ _ _, ""%string) "" ws "packages/foo-bar/src/index.ts"
    = Some (1, foo_bar) ↔
  inPackageDir "/" foo_bar "packages/foo-bar/src/index.ts".
Proof.
  cbv zeta.
  destruct (C8_resolution_on_segment_boundary "/" (λ _ _, ""%string) ""
              [Sample.foo; Sample.foo_bar] "packages/foo-bar/src/index.ts")
    as (_ & Hno & _).
  apply Hno; [|reflexivity].
  intros i j p q Hi Hj Hne Hin. apply inPackageDir_startsWith in Hin.
  destruct i as [|[|i]], j as [|[|j]]; try done;
    injection Hi as <-; injection Hj as <-; vm_compute in Hin; discriminate.
Defined.

(** *** The transitive dependency walker *)

Lemma step_cases depGraph depth st currentPkg queue' :
  queue st = currentPkg :: queue' →
  step depGraph depth st = Done (visited st) ∨
  ((currentPkg ∈ visited st) ∧
   ∃ n c, step depGraph depth st = Continue (mkWalk (visited st) queue' n c)) ∨
  ((currentPkg ∉ visited st) ∧ depGraph !! currentPkg = None ∧
   step depGraph depth st = Fail (CannotFindInGraph currentPkg)) ∨
  ((currentPkg ∉ visited st) ∧
   ∃ deps n c, depGraph !! currentPkg = Some deps ∧
     step depGraph depth st =
     Continue (mkWalk (visited st ++ [currentPkg]) (queue' ++ deps) n c)).
Proof.
  intros Hq. unfold step. rewrite Hq.
  destruct (if bool_decide _ then _ else _) as [cur nodes].
  case_bool_decide; [by left|]. right.
  case_bool_decide as Hv; [left; eauto|]. right.
  destruct (depGraph !! currentPkg) as [deps|]; [right|left]; eauto 10.
Qed.


Lemma remaining_lookup depGraph seen key deps :
  remaining depGraph seen !! key = Some deps ↔
  depGraph !! key = Some deps ∧ key ∉ seen.
Proof. unfold remaining. by rewrite map_lookup_filter_Some. Qed.

Lemma remaining_snoc depGraph seen key :
  remaining depGraph (seen ++ [key]) = delete key (remaining depGraph seen).
Proof.
  apply map_eq. intros k. apply option_eq. intros deps.
  rewrite remaining_lookup, lookup_delete_Some, remaining_lookup.
  rewrite not_elem_of_app, list_elem_of_singleton.
  split; [intros (? & ? & ?)|intros (? & ? & ?)]; split_and!; congruence.
Qed.

Lemma entries_delete (m : DepGraph) key deps :
  m !! key = Some deps → entries m = length deps + entries (delete key m).
Proof.
  intros Hk. unfold entries.
  apply (map_fold_delete_L (λ _ (deps : list string) n, length deps + n)); [|done].
  intros. lia.
Qed.

Lemma entries_remaining_nil depGraph : remaining depGraph [] = depGraph.
Proof.
  apply map_eq. intros k. apply option_eq. intros deps.
  rewrite remaining_lookup. split; [by intros [? _]|].
  intros Hk. split; [done|]. apply not_elem_of_nil.
Qed.

(** The loop ends within its iteration bound, whatever the depth. *)
Lemma loop_terminates fuel depGraph depth st :
  length (queue st) + entries (remaining depGraph (visited st)) < fuel →
  ∃ r, loop fuel depGraph depth st = Some r.
Proof.
  revert st. induction fuel as [|fuel IH]; intros st Hfuel; [lia|].
  cbn [loop]. destruct (queue st) as [|currentPkg queue'] eqn:Hq.
  { unfold step. rewrite Hq. eauto. }
  destruct (step_cases depGraph depth st _ _ Hq)
    as [->|[(Hv & n & c & ->)|[(Hv & Hn & ->)|(Hv & deps & n & c & Hg & ->)]]];
    [eauto| |eauto|].
  - apply IH. cbn in *. lia.
  - apply IH. cbn [queue visited]. rewrite remaining_snoc, length_app.
    assert (remaining depGraph (visited st) !! currentPkg = Some deps) as Hr
      by by apply remaining_lookup.
    apply entries_delete in Hr. cbn in Hfuel. lia.
Qed.





(** ** The claims about the filter and the walker *)

(** C6, as the code has it.  A changed file whose path ends with
    [package.json] or [tsconfig.json] is kept exactly when the
    test-directory pattern does not match it, that is, unless the path has
    [/src/] and, later, [__tests__] in it; the test-file pattern never
    matches such a path. *)
Theorem C6_privileged_kept_outside_test_dirs f :
  Js.endsWith f "package.json" = true ∨ Js.endsWith f "tsconfig.json" = true →
  matches isTestFileRegex f = false ∧
  needsChangeset f = negb (matches isInTestDirRegex f) ∧
  (needsChangeset f = false ↔
   ∃ a b c, oneLine a ∧ oneLine b ∧
     Js.chars f = a ++ Js.chars "/src/" ++ b ++ Js.chars "__tests__" ++ c).
Proof.
  intros Hp.
  assert (existsb (λ pattern, Js.endsWith f pattern) definitelyNeedChangeset = true)
    as Hex.
  { cbn [existsb definitelyNeedChangeset]. rewrite orb_false_r.
    by apply orb_true_iff. }
  pose proof (privileged_not_test_file f Hex) as Htest.
  assert (needsChangeset f = negb (matches isInTestDirRegex f)) as Hkeep.
  { unfold needsChangeset. rewrite Htest, Hex, orb_false_r.
    by destruct (matches isInTestDirRegex f). }
  split_and!; [done..|].
  by rewrite Hkeep, negb_false_iff, isInTestDirRegex_iff.
Qed.

Lemma C6_witness :
  matches isTestFileRegex "packages/foo/package.json" = false ∧
  needsChangeset "packages/foo/package.json"
  = negb (matches isInTestDirRegex "packages/foo/package.json") ∧
  (needsChangeset "packages/foo/package.json" = false ↔
   ∃ a b c, oneLine a ∧ oneLine b ∧
     Js.chars "packages/foo/package.json" =
     a ++ Js.chars "/src/" ++ b ++ Js.chars "__tests__" ++ c).
Proof.
  apply (C6_privileged_kept_outside_test_dirs "packages/foo/package.json").
  left. vm_compute. reflexivity.
Defined.

(** C6 as stated fails: a [package.json] below a test directory is not
    kept. *)
Lemma C6_counterexample :
  Js.endsWith "packages/foo/src/__tests__/fixtures/package.json" "package.json"
  = true ∧
  needsChangeset "packages/foo/src/__tests__/fixtures/package.json" = false ∧
  getChangedPackagesWithMandatoryChangesetSinceCommit "/" (λ _ f, f) ""
    [Sample.foo] ["packages/foo/src/__tests__/fixtures/package.json"] = [].
Proof. vm_compute. done. Qed.

(** The walk always ends within its bound. *)
Lemma getTransitiveDependencies_terminates pkgName depth depGraph :
  is_Some (getTransitiveDependencies pkgName depth depGraph).
Proof.
  unfold getTransitiveDependencies.
  destruct (loop_terminates (entries depGraph + 2) depGraph
              (default (-100)%Z depth) (mkWalk [] [pkgName] 1 (-1))) as [r ->].
  - cbn. rewrite entries_remaining_nil. lia.
  - destruct r; eauto.
Qed.


Lemma cyclic_reachable x :
  reachable Sample.cyclic "a" x → x = "a" ∨ x = "b" ∨ x = "c".
Proof.
  revert x. apply rtc_ind_r; [by left|].
  intros y z _ (deps & Hy & Hz) [->|[->| ->]]; vm_compute in Hy;
    injection Hy as <-;
    repeat (apply elem_of_cons in Hz as [->|Hz]; [by auto|]);
    by apply elem_of_nil in Hz.
Qed.



End ChangedPackagesFacts.

(** * More about the propagator *)

Module MinVersionsMore.

Import MinVersions MinVersionsFacts.

(** The conditions under which [main] assigns the range that the object
    [P] declares on [key] in category [t]. *)
Lemma run_targets plan packages i P t key :
  NoDup (names packages) →
  packages !! i = Some P →
  (∃ a, a ∈ run_actions plan packages ∧ targets a i t key) ↔
  ∃ r rng, r ∈ releases plan ∧ release_type r = minor ∧ release_name r = key ∧
    declared P t key = Some rng ∧ Js.startsWith rng "^" = true ∧
    notReleased (releasesByName_of plan) (name (packageJson P)) = true.
Proof.
  intros Hnd HP. split.
  - intros (a & Ha & Href & Htype & Hkey).
    apply elem_of_run_actions in Ha
      as (r & p & vr & Hr & Hm & Hp & Hvr & Hnr & Hc & Hk & _); [|done].
    rewrite Href in Hp. assert (p = P) as -> by congruence.
    exists r, vr. split_and!; try done; congruence.
  - intros (r & rng & Hr & Hm & Hk & Hd & Hc & Hnr).
    exists (mkAction i t key (caret_of (newVersion r))). split; [|done].
    apply elem_of_run_actions; [done|]. exists r, P, rng. cbn. subst key.
    by split_and!.
Qed.

(** A range that [main] does not assign is as it was. *)
Lemma run_cell_untouched plan packages i P t key :
  NoDup (names packages) →
  packages !! i = Some P →
  ¬ (∃ r rng, r ∈ releases plan ∧ release_type r = minor ∧ release_name r = key ∧
       declared P t key = Some rng ∧ Js.startsWith rng "^" = true ∧
       notReleased (releasesByName_of plan) (name (packageJson P)) = true) →
  cell (run_heap plan packages) i t key = declared P t key.
Proof.
  intros Hnd HP Hno. unfold run_heap. rewrite cell_foldl_untouched.
  - unfold cell. by rewrite HP.
  - intros a Ha Ht. apply Hno. apply (run_targets plan packages i P t key); eauto.
Qed.

Lemma run_heap_lookup plan packages i P :
  packages !! i = Some P →
  ∃ P', run_heap plan packages !! i = Some P' ∧ same_identity P P'.
Proof.
  intros HP.
  destruct (run_heap plan packages !! i) as [P'|] eqn:HP'.
  - exists P'. split; [done|].
    apply foldl_apply_action_identity in HP' as (P0 & HP0 & Hid).
    by assert (P0 = P) as -> by congruence.
  - apply lookup_ge_None in HP'. unfold run_heap in HP'.
    rewrite length_foldl_apply_action in HP'.
    apply lookup_lt_Some in HP. lia.
Qed.

(** ** Ranges that stay *)

(** X1.  A range that does not start with a caret is never rewritten. *)
Theorem non_caret_range_unchanged plan packages i P t key rng :
  NoDup (names packages) →
  packages !! i = Some P →
  declared P t key = Some rng →
  Js.startsWith rng "^" = false →
  ∃ w' P', run plan packages = (Ok tt, w') ∧ heap w' !! i = Some P' ∧
           declared P' t key = Some rng.
Proof.
  intros Hnd HP Hd Hc. rewrite run_spec by done.
  destruct (run_heap_lookup plan packages i P HP) as (P' & HP' & _).
  eexists _, P'. split_and!; [done..|].
  pose proof (run_cell_untouched plan packages i P t key Hnd HP) as Hcell.
  unfold cell in Hcell. rewrite HP' in Hcell. cbn in Hcell. rewrite Hcell; [done|].
  intros (r & rng' & _ & _ & _ & Hd' & Hc' & _). congruence.
Qed.

Lemma non_caret_range_unchanged_witness :
  ∃ w' P',
    run (mkReleasePlan [Sample.minor_a]) [Sample.package_a; Sample.tilde_b]
    = (Ok tt, w') ∧
    heap w' !! 1 = Some P' ∧
    declared P' T_dependencies "@af/package-a" = Some "~1.0.0".
Proof.
  apply (non_caret_range_unchanged (mkReleasePlan [Sample.minor_a])
           [Sample.package_a; Sample.tilde_b] 1 Sample.tilde_b).
  - apply (bool_decide_unpack _). vm_compute. exact I.
  - reflexivity.
  - vm_compute. reflexivity.
  - vm_compute. reflexivity.
Defined.

(** X2.  A range on a package that has no minor release in the plan (a patch,
    major or none release, or no release at all) is never rewritten. *)
Theorem range_on_non_minor_unchanged plan packages i P t key :
  NoDup (names packages) →
  packages !! i = Some P →
  (∀ r, r ∈ releases plan → release_name r = key → release_type r ≠ minor) →
  ∃ w' P', run plan packages = (Ok tt, w') ∧ heap w' !! i = Some P' ∧
           declared P' t key = declared P t key.
Proof.
  intros Hnd HP Hno. rewrite run_spec by done.
  destruct (run_heap_lookup plan packages i P HP) as (P' & HP' & _).
  eexists _, P'. split_and!; [done..|].
  pose proof (run_cell_untouched plan packages i P t key Hnd HP) as Hcell.
  unfold cell in Hcell. rewrite HP' in Hcell. cbn in Hcell. rewrite Hcell; [done|].
  intros (r & rng' & Hr & Hm & Hk & _). by eapply Hno.
Qed.

Lemma range_on_non_minor_unchanged_witness :
  ∃ w' P',
    run (mkReleasePlan [Sample.minor_a]) Sample.packages = (Ok tt, w') ∧
    heap w' !! 2 = Some P' ∧
    declared P' T_dependencies "@af/package-b"
    = declared Sample.package_c T_dependencies "@af/package-b".
Proof.
  apply (range_on_non_minor_unchanged (mkReleasePlan [Sample.minor_a])
           Sample.packages 2 Sample.package_c).
  - apply (bool_decide_unpack _). vm_compute. exact I.
  - reflexivity.
  - intros r ->%list_elem_of_singleton. discriminate.
Defined.

(** ** Released dependents *)

Lemma notReleased_released plan r :
  NoDup (map release_name (releases plan)) →
  r ∈ releases plan → oldVersion r ≠ newVersion r →
  notReleased (releasesByName_of plan) (Some (release_name r)) = false.
Proof.
  intros Hnd Hr Hv. unfold notReleased, releasesByName_of. cbn.
  rewrite (Map_of_lookup_in _ (release_name r) r).
  - by apply bool_decide_eq_false_2.
  - change (map ?f ?l) with (f <$> l). rewrite <- list_fmap_compose.
    exact Hnd.
  - apply list_elem_of_fmap. by exists r.
Qed.

Lemma foldl_apply_action_other acts h i :
  (∀ a, a ∈ acts → a_ref a ≠ i) →
  foldl apply_action h acts !! i = h !! i.
Proof.
  revert h. induction acts as [|a acts IH]; intros h Hn; cbn [foldl]; [done|].
  rewrite IH by (intros a' Ha'; apply Hn; by right).
  unfold apply_action. destruct (h !! a_ref a); [|done].
  apply list_lookup_insert_ne, Hn. by left.
Qed.

Lemma write_in_trace plan packages d json :
  NoDup (names packages) →
  WriteFile d json ∈
    omap (write_of (run_heap plan packages)) (run_updated plan packages)
    ++ commit_of (run_updated plan packages) →
  ∃ ref p a, packages !! ref = Some p ∧ dir p = d ∧
             a ∈ run_actions plan packages ∧ a_ref a = ref.
Proof.
  intros Hnd [Hw|Hc]%elem_of_app.
  - apply list_elem_of_omap in Hw as (ref & Hupd & Hw).
    unfold write_of in Hw.
    destruct (run_heap plan packages !! ref) as [p'|] eqn:Hp'; [|done].
    injection Hw as <- <-.
    apply run_updated_valid in Hupd as (p & a & Hp & Ha & Href); [|done].
    apply foldl_apply_action_identity in Hp' as (p0 & Hp0 & Hdir & _).
    assert (p0 = p) as -> by congruence. by exists ref, p, a.
  - unfold commit_of in Hc. case_bool_decide.
    + apply elem_of_cons in Hc as [?|Hc]; [done|].
      by apply list_elem_of_singleton in Hc.
    + by apply elem_of_nil in Hc.
Qed.

(** X3.  A dependent that is itself released with a version change is left
    alone: its object is as loaded when the run ends, and no manifest is
    written to its directory. *)
Theorem released_dependent_untouched plan packages i P r :
  NoDup (names packages) →
  NoDup (map dir packages) →
  NoDup (map release_name (releases plan)) →
  packages !! i = Some P →
  r ∈ releases plan → name (packageJson P) = Some (release_name r) →
  oldVersion r ≠ newVersion r →
  ∃ w', run plan packages = (Ok tt, w') ∧ heap w' !! i = Some P ∧
        ∀ json, WriteFile (dir P) json ∉ trace w'.
Proof.
  intros Hnd Hdirs Hrel HP Hr Hname Hv. rewrite run_spec by done.
  assert (∀ a, a ∈ run_actions plan packages → a_ref a ≠ i) as Hother.
  { intros a (r' & p & vr & _ & _ & Hp & _ & Hnr & _)%elem_of_run_actions Hi;
      [|done].
    rewrite Hi in Hp. assert (p = P) as -> by congruence.
    rewrite Hname, notReleased_released in Hnr; done. }
  eexists. split_and!; [done| |].
  - cbn [heap]. unfold run_heap. by rewrite foldl_apply_action_other.
  - cbn [trace]. intros json (ref & p & a & Hp & Hdir & Ha & Href)%write_in_trace;
      [|done].
    apply (Hother a Ha). rewrite Href.
    eapply NoDup_lookup; [exact Hdirs|..];
      change (map ?f ?l) with (f <$> l); rewrite list_lookup_fmap.
    + by rewrite Hp; cbn; rewrite Hdir.
    + by rewrite HP.
Qed.

Lemma released_dependent_untouched_witness :
  ∃ w', run (mkReleasePlan [Sample.minor_a; Sample.minor_b]) Sample.packages
        = (Ok tt, w') ∧
        heap w' !! 1 = Some Sample.package_b ∧
        ∀ json, WriteFile (dir Sample.package_b) json ∉ trace w'.
Proof.
  apply (released_dependent_untouched
           (mkReleasePlan [Sample.minor_a; Sample.minor_b]) Sample.packages
           1 Sample.package_b Sample.minor_b).
  - apply (bool_decide_unpack _). vm_compute. exact I.
  - apply (bool_decide_unpack _). vm_compute. exact I.
  - apply (bool_decide_unpack _). vm_compute. exact I.
  - reflexivity.
  - cbn. right. by left.
  - reflexivity.
  - discriminate.
Defined.

(** ** What a run keeps of every object *)

Lemma assign_dep_declared_is_Some p t key v t' key' :
  is_Some (declared (assign_dep p t key v) t' key') →
  is_Some (declared p t' key') ∨ (t = t' ∧ key = key').
Proof.
  destruct (get_deps t (packageJson p)) as [m|] eqn:Hm.
  - rewrite declared_assign_dep by eauto. case_decide; [by right|by left].
  - rewrite declared_assign_dep_absent by done. by left.
Qed.

Lemma has_deps_foldl acts h ref t :
  has_deps (foldl apply_action h acts) ref t ↔ has_deps h ref t.
Proof.
  revert h. induction acts as [|a acts IH]; intros h; cbn [foldl]; [done|].
  by rewrite IH, has_deps_apply.
Qed.

Lemma cell_apply_is_Some h a i t key :
  is_Some (cell h (a_ref a) (a_type a) (a_key a)) →
  is_Some (cell (apply_action h a) i t key) ↔ is_Some (cell h i t key).
Proof.
  intros [v Hv]. destruct (decide (targets a i t key)) as [(<- & <- & <-)|Hn].
  - rewrite cell_apply_hit by by eapply cell_has_deps. rewrite Hv.
    split; eauto.
  - by rewrite cell_apply_miss.
Qed.

Lemma cell_foldl_is_Some acts h i t key :
  (∀ a, a ∈ acts → is_Some (cell h (a_ref a) (a_type a) (a_key a))) →
  is_Some (cell (foldl apply_action h acts) i t key) ↔ is_Some (cell h i t key).
Proof.
  revert h. induction acts as [|a acts IH]; intros h Hs; cbn [foldl]; [done|].
  rewrite IH.
  - apply cell_apply_is_Some, Hs. by left.
  - intros a' Ha'. apply cell_apply_is_Some; [apply Hs; by left|].
    apply Hs. by right.
Qed.

(** X4.  On a workspace with pairwise different package names a run adds no
    dependency and removes none: whatever the plan, every object has, in
    each category, a range on exactly the packages it had one on when
    loaded, and a category that was missing is still missing.  Directory,
    name, version and privacy flag stay as well. *)
Theorem run_keeps_dependency_keys plan packages i P :
  NoDup (names packages) →
  packages !! i = Some P →
  ∃ w' P', run plan packages = (Ok tt, w') ∧ heap w' !! i = Some P' ∧
    same_identity P P' ∧
    ∀ t, (is_Some (get_deps t (packageJson P')) ↔
          is_Some (get_deps t (packageJson P))) ∧
         ∀ key, is_Some (declared P' t key) ↔ is_Some (declared P t key).
Proof.
  intros Hnd HP. rewrite run_spec by done.
  destruct (run_heap_lookup plan packages i P HP) as (P' & HP' & Hid).
  eexists _, P'. split_and!; [done..|]. intros t. split.
  - pose proof (has_deps_foldl (run_actions plan packages) packages i t) as Hh.
    unfold has_deps in Hh. fold (run_heap plan packages) in Hh.
    split; intros Hs.
    + destruct Hh as [Hh _]. destruct Hh as (p & Hp & Hsp); [by exists P'|].
      by assert (p = P) as -> by congruence.
    + destruct Hh as [_ Hh]. destruct Hh as (p & Hp & Hsp); [by exists P|].
      by assert (p = P') as -> by congruence.
  - intros key.
    pose proof (cell_foldl_is_Some (run_actions plan packages) packages i t key)
      as Hcell.
    fold (run_heap plan packages) in Hcell.
    assert (∀ a, a ∈ run_actions plan packages →
              is_Some (cell packages (a_ref a) (a_type a) (a_key a))) as Hs.
    { intros a (r & p & vr & _ & _ & Hp & Hvr & _ & _ & Hk & _)%elem_of_run_actions;
        [|done].
      unfold cell. rewrite Hp. cbn. rewrite Hk, Hvr. eauto. }
    specialize (Hcell Hs). unfold cell in Hcell.
    rewrite HP', HP in Hcell. exact Hcell.
Qed.

Lemma run_keeps_dependency_keys_witness :
  ∃ w' P',
    run (mkReleasePlan [Sample.minor_a]) Sample.packages = (Ok tt, w') ∧
    heap w' !! 1 = Some P' ∧ same_identity Sample.package_b P' ∧
    ∀ t, (is_Some (get_deps t (packageJson P')) ↔
          is_Some (get_deps t (packageJson Sample.package_b))) ∧
         ∀ key, is_Some (declared P' t key) ↔
                is_Some (declared Sample.package_b t key).
Proof.
  apply (run_keeps_dependency_keys (mkReleasePlan [Sample.minor_a])
           Sample.packages 1 Sample.package_b).
  - apply (bool_decide_unpack _). vm_compute. exact I.
  - reflexivity.
Defined.

(** ** Which manifests are written *)





(** X7.  The calls of a run come in this order: the manifest writes, then
    [git add -u], then the commit with [--no-verify]; the two git calls are
    issued exactly when at least one manifest was written. *)
Theorem commit_follows_writes plan packages :
  NoDup (names packages) →
  ∃ w' writes,
    run plan packages = (Ok tt, w') ∧
    Forall (λ e, ∃ d json, e = WriteFile d json) writes ∧
    trace w' = writes ++ match writes with
                         | [] => []
                         | _ => [GitAdd ["-u"]; GitCommit commitMessage true]
                         end.
Proof.
  intros Hnd. rewrite run_spec by done.
  set (h' := run_heap plan packages). set (upd := run_updated plan packages).
  assert (Forall (λ ref, is_Some (h' !! ref)) upd) as Hvalid.
  { apply Forall_forall. intros ref (p & _ & Hp & _)%run_updated_valid; [|done].
    destruct (run_heap_lookup plan packages ref p Hp) as (p' & Hp' & _). eauto. }
  apply writes_Forall2 in Hvalid.
  eexists _, (omap (write_of h') upd). split_and!; [done| |].
  - apply Forall_forall. intros e He.
    apply list_elem_of_lookup in He as [k Hk].
    eapply Forall2_lookup_r in Hvalid as (ref & _ & p & _ & ->); eauto.
  - cbn [trace]. f_equal. apply Forall2_length in Hvalid.
    unfold commit_of. destruct (omap (write_of h') upd), upd; cbn in *; done.
Qed.

Lemma commit_follows_writes_witness :
  ∃ w' writes,
    run (mkReleasePlan [Sample.minor_a]) Sample.packages = (Ok tt, w') ∧
    Forall (λ e, ∃ d json, e = WriteFile d json) writes ∧
    trace w' = writes ++ match writes with
                         | [] => []
                         | _ => [GitAdd ["-u"]; GitCommit commitMessage true]
                         end.
Proof.
  apply (commit_follows_writes (mkReleasePlan [Sample.minor_a]) Sample.packages).
  apply (bool_decide_unpack _). vm_compute. exact I.
Defined.

(** ** Failing runs *)





(** ** The order of the releases *)

Lemma Map_of_Permutation {K V} `{Countable K} (l l' : list (K * V)) :
  NoDup l.*1 → l ≡ₚ l' → Map_of l = Map_of l'.
Proof.
  intros Hnd Hperm. apply map_eq. intros k.
  assert (NoDup l'.*1) as Hnd' by by rewrite <- Hperm.
  destruct (decide (k ∈ l.*1)) as [Hin|Hnin].
  - apply list_elem_of_fmap in Hin as ([k' v] & -> & Hin). cbn.
    rewrite (Map_of_lookup_in l k' v) by done.
    rewrite (Map_of_lookup_in l' k' v); [done..|by rewrite <- Hperm].
  - unfold Map_of. rewrite !Map_of_from_lookup_notin; [done| |done].
    by rewrite <- Hperm.
Qed.

Lemma releasesByName_of_Permutation plan1 plan2 :
  NoDup (map release_name (releases plan1)) →
  releases plan1 ≡ₚ releases plan2 →
  releasesByName_of plan1 = releasesByName_of plan2.
Proof.
  intros Hnd Hperm. unfold releasesByName_of. apply Map_of_Permutation.
  - change (map ?f ?l) with (f <$> l). by rewrite <- list_fmap_compose.
  - change (map ?f ?l) with (f <$> l). by rewrite Hperm.
Qed.

Lemma run_cell_assigned plan packages i P t key r rng :
  NoDup (names packages) →
  NoDup (map release_name (releases plan)) →
  packages !! i = Some P →
  r ∈ releases plan → release_type r = minor → release_name r = key →
  declared P t key = Some rng → Js.startsWith rng "^" = true →
  notReleased (releasesByName_of plan) (name (packageJson P)) = true →
  cell (run_heap plan packages) i t key = Some (caret_of (newVersion r)).
Proof.
  intros Hnd Hrel HP Hr Hm Hk Hd Hc Hnr. unfold run_heap.
  apply cell_foldl_assigned.
  - exists P. split; [done|]. by eapply declared_is_Some.
  - apply (run_targets plan packages i P t key); [done..|].
    by exists r, rng.
  - intros a Ha (_ & _ & Hka). eapply run_actions_agree; eauto. congruence.
Qed.

Lemma run_cell_Permutation plan1 plan2 packages i P t key :
  NoDup (names packages) →
  NoDup (map release_name (releases plan1)) →
  releases plan1 ≡ₚ releases plan2 →
  packages !! i = Some P →
  cell (run_heap plan1 packages) i t key = cell (run_heap plan2 packages) i t key.
Proof.
  intros Hnd Hrel Hperm HP.
  assert (NoDup (map release_name (releases plan2))) as Hrel2.
  { change (map ?f ?l) with (f <$> l) in *. by rewrite <- Hperm. }
  pose proof (releasesByName_of_Permutation plan1 plan2 Hrel Hperm) as Hrbn.
  destruct (decide (Exists (λ a, targets a i t key) (run_actions plan1 packages)))
    as [Hyes|Hno].
  - apply Exists_exists in Hyes.
    apply (run_targets plan1 packages i P t key) in Hyes
      as (r & rng & Hr & Hm & Hk & Hd & Hc & Hnr); [|done..].
    rewrite (run_cell_assigned plan1 packages i P t key r rng) by done.
    rewrite (run_cell_assigned plan2 packages i P t key r rng); try done.
    + by rewrite <- Hperm.
    + by rewrite <- Hrbn.
  - rewrite (run_cell_untouched plan1 packages i P t key Hnd HP).
    + rewrite (run_cell_untouched plan2 packages i P t key Hnd HP); [done|].
      intros (r & rng & Hr & Hm & Hk & Hd & Hc & Hnr). apply Hno.
      apply Exists_exists.
      apply (run_targets plan1 packages i P t key); [done..|].
      exists r, rng. rewrite Hperm, Hrbn. done.
    + intros Hyes. apply Hno. apply Exists_exists.
      by apply (run_targets plan1 packages i P t key).
Qed.

Lemma run_heap_get_deps plan packages i P P' t :
  packages !! i = Some P → run_heap plan packages !! i = Some P' →
  is_Some (get_deps t (packageJson P')) ↔ is_Some (get_deps t (packageJson P)).
Proof.
  intros HP HP'.
  pose proof (has_deps_foldl (run_actions plan packages) packages i t) as Hh.
  unfold has_deps in Hh. fold (run_heap plan packages) in Hh.
  split; intros Hs.
  - destruct Hh as [Hh _]. destruct Hh as (p & Hp & Hsp); [by exists P'|].
    by assert (p = P) as -> by congruence.
  - destruct Hh as [_ Hh]. destruct Hh as (p & Hp & Hsp); [by exists P|].
    by assert (p = P') as -> by congruence.
Qed.

Lemma deps_eq (o1 o2 : option DepMap) :
  (is_Some o1 ↔ is_Some o2) →
  (∀ key, o1 ≫= (λ m, m !! key) = o2 ≫= (λ m, m !! key)) →
  o1 = o2.
Proof.
  intros Hs Hk. destruct o1 as [m1|], o2 as [m2|].
  - f_equal. apply map_eq. intros key. apply (Hk key).
  - destruct Hs as [Hs _]. by destruct Hs.
  - destruct Hs as [_ Hs]. by destruct Hs.
  - done.
Qed.

Lemma run_heap_Permutation plan1 plan2 packages :
  NoDup (names packages) →
  NoDup (map release_name (releases plan1)) →
  releases plan1 ≡ₚ releases plan2 →
  run_heap plan1 packages = run_heap plan2 packages.
Proof.
  intros Hnd Hrel Hperm. apply list_eq. intros i.
  destruct (packages !! i) as [P|] eqn:HP.
  - destruct (run_heap_lookup plan1 packages i P HP) as (P1 & HP1 & Hid1).
    destruct (run_heap_lookup plan2 packages i P HP) as (P2 & HP2 & Hid2).
    rewrite HP1, HP2. f_equal.
    assert (∀ t, get_deps t (packageJson P1) = get_deps t (packageJson P2)) as Hdeps.
    { intros t. apply deps_eq.
      - by rewrite (run_heap_get_deps plan1 packages i P P1),
                   (run_heap_get_deps plan2 packages i P P2).
      - intros key.
        pose proof (run_cell_Permutation plan1 plan2 packages i P t key
                      Hnd Hrel Hperm HP) as Hcell.
        unfold cell in Hcell. by rewrite HP1, HP2 in Hcell. }
    pose proof (Hdeps T_dependencies) as H1.
    pose proof (Hdeps T_devDependencies) as H2.
    pose proof (Hdeps T_peerDependencies) as H3.
    destruct Hid1 as (Hd1 & Hn1 & Hv1 & Hp1), Hid2 as (Hd2 & Hn2 & Hv2 & Hp2).
    destruct P1 as [d1 [n1 v1 p1 a1 b1 c1]], P2 as [d2 [n2 v2 p2 a2 b2 c2]].
    cbn in *. congruence.
  - assert (length (run_heap plan1 packages) = length packages) as Hl1
      by apply length_foldl_apply_action.
    assert (length (run_heap plan2 packages) = length packages) as Hl2
      by apply length_foldl_apply_action.
    apply lookup_ge_None in HP.
    rewrite !(proj2 (lookup_ge_None _ _)); [done|lia..].
Qed.

Lemma elem_of_run_updated plan packages i :
  NoDup (names packages) →
  i ∈ run_updated plan packages ↔
  ∃ P t r rng, packages !! i = Some P ∧ r ∈ releases plan ∧
    release_type r = minor ∧ declared P t (release_name r) = Some rng ∧
    Js.startsWith rng "^" = true ∧
    notReleased (releasesByName_of plan) (name (packageJson P)) = true.
Proof.
  intros Hnd. split.
  - intros (P & a & HP & Ha & Href)%run_updated_valid; [|done].
    destruct (run_targets plan packages i P (a_type a) (a_key a) Hnd HP)
      as [Hto _].
    destruct Hto as (r & rng & Hr & Hm & Hk & Hd & Hc & Hnr); [by exists a|].
    exists P, (a_type a), r, rng. by rewrite Hk.
  - intros (P & t & r & rng & HP & Hr & Hm & Hd & Hc & Hnr).
    destruct (run_targets plan packages i P t (release_name r) Hnd HP)
      as [_ Hfrom].
    destruct Hfrom as (a & Ha & Href & _); [by exists r, rng|].
    apply elem_of_foldl_Set_add. right. apply list_elem_of_fmap. by exists a.
Qed.

(** X9.  On a workspace with pairwise different package names, and with one
    release per package name, the order of the releases in the plan does
    not matter for the result: two plans with the same releases leave the
    same objects, and issue the same calls up to the order of the manifest
    writes. *)
Theorem release_order_irrelevant plan1 plan2 packages :
  NoDup (names packages) →
  NoDup (map release_name (releases plan1)) →
  releases plan1 ≡ₚ releases plan2 →
  ∃ w1 w2, run plan1 packages = (Ok tt, w1) ∧ run plan2 packages = (Ok tt, w2) ∧
           heap w1 = heap w2 ∧ trace w1 ≡ₚ trace w2.
Proof.
  intros Hnd Hrel Hperm. rewrite !run_spec by done.
  eexists _, _. split_and!; [done..| |]; cbn [heap trace].
  - by apply run_heap_Permutation.
  - rewrite (run_heap_Permutation plan1 plan2) by done.
    assert (run_updated plan1 packages ≡ₚ run_updated plan2 packages) as Hupd.
    { apply NoDup_Permutation.
      - apply NoDup_foldl_Set_add. constructor.
      - apply NoDup_foldl_Set_add. constructor.
      - intros i. rewrite !elem_of_run_updated by done.
        rewrite (releasesByName_of_Permutation plan1 plan2) by done.
        split; intros (P & t & r & rng & HP & Hr & Hrest);
          exists P, t, r, rng; (split; [done|]); (split; [|done]).
        + by rewrite <- Hperm.
        + by rewrite Hperm. }
    apply Permutation_app.
    + by rewrite Hupd.
    + unfold commit_of. by rewrite (Permutation_length Hupd).
Qed.

Lemma release_order_irrelevant_witness :
  ∃ w1 w2,
    run (mkReleasePlan [Sample.minor_a; Sample.minor_b]) Sample.packages
    = (Ok tt, w1) ∧
    run (mkReleasePlan [Sample.minor_b; Sample.minor_a]) Sample.packages
    = (Ok tt, w2) ∧
    heap w1 = heap w2 ∧ trace w1 ≡ₚ trace w2.
Proof.
  apply (release_order_irrelevant
           (mkReleasePlan [Sample.minor_a; Sample.minor_b])
           (mkReleasePlan [Sample.minor_b; Sample.minor_a]) Sample.packages).
  - apply (bool_decide_unpack _). vm_compute. exact I.
  - apply (bool_decide_unpack _). vm_compute. exact I.
  - apply perm_swap.
Defined.

End MinVersionsMore.

(** * More about the changed packages *)

Module ChangedPackagesMore.

Import Regex RegexFacts ChangedPackages ChangedPackagesFacts Walker.

(** ** What the patterns of the changeset filter match *)

Lemma isInSrcFileRegex_iff f :
  matches isInSrcFileRegex f = true ↔
  ∃ a c, oneLine a ∧ Js.chars f = a ++ Js.chars "/src/" ++ c.
Proof.
  rewrite matches_iff. split.
  - intros (read & p & p' & Hs & Hb & Hden). unfold isInSrcFileRegex in Hden.
    den_cat Hden as p1 H1 Hden1.
    den_cat Hden1 as p2 H2 Hden2.
    den_cat Hden2 as p3 H3 H4.
    inversion H1 as [| | | | | | | | | |? Hstart|]; subst.
    assert (read = []) as -> by (apply nil_length_inv; lia).
    apply Den_star_dot in H2 as (a & Ha & E2). apply Den_lit in H3.
    exists a, (rest p3). split; [done|]. rewrite Hs, E2, H3. done.
  - intros (a & c & Ha & Hf).
    exists [], (mkPos 0 (Js.chars f)). eexists. split_and!; [done..|].
    rewrite Hf. unfold isInSrcFileRegex.
    eapply Den_Cat; [by apply Den_Bol|].
    eapply Den_Cat; [by apply Den_star_dot_intro|].
    eapply Den_Cat; [apply Den_lit_intro|].
    apply Den_Star_stop.
Qed.

Lemma Den_dot_inv p p' :
  Den Dot p p' → ∃ c, isLineTerminator c = false ∧ rest p = c :: rest p'.
Proof.
  inversion 1 as [| |c ? xs Hr Hc| | | | | | | | |]; subst. by exists c.
Qed.

Lemma Den_dot_intro c n tail :
  isLineTerminator c = false →
  Den Dot (mkPos n (c :: tail)) (mkPos (S n) tail).
Proof. intros Hc. by apply (Den_Dot c (mkPos n (c :: tail)) tail). Qed.

(** The pattern for test files has its dots unescaped: it matches every
    name that ends with any character, [examples] or [test], any
    character, and one of the four extensions. *)
Lemma isTestFileRegex_iff f :
  matches isTestFileRegex f = true ↔
  ∃ front c1 w c2 e x,
    Js.chars f = front ++ c1 :: w ++ c2 :: e ++ x ∧
    isLineTerminator c1 = false ∧ isLineTerminator c2 = false ∧
    w ∈ [Js.chars "examples"; Js.chars "test"] ∧
    e ∈ [Js.chars "ts"; Js.chars "js"] ∧
    x ∈ [[]; Js.chars "x"].
Proof.
  rewrite matches_iff. split.
  - intros (read & p & p' & Hs & _ & Hden). unfold isTestFileRegex in Hden.
    den_cat Hden as p1 H1 Hden1.
    den_cat Hden1 as p2 H2 Hden2.
    den_cat Hden2 as p3 H3 Hden3.
    den_cat Hden3 as p4 H4 Hden4.
    den_cat Hden4 as p5 H5 Hden5.
    den_cat Hden5 as p6 H6 H7.
    apply Den_rest in H1 as [r1 E1].
    apply Den_dot_inv in H2 as (c1 & Hc1 & E2).
    apply Den_dot_inv in H4 as (c2 & Hc2 & E4).
    inversion H7 as [| | | | | | | | | | |? E7]; subst.
    assert (∃ w, w ∈ [Js.chars "examples"; Js.chars "test"] ∧
                 rest p2 = w ++ rest p3) as (w & Hw & E3).
    { inversion H3 as [| | | |? ? ? ? Hl|? ? ? ? Hl| | | | | |]; subst;
        apply Den_lit in Hl; eexists; (split; [|exact Hl]);
        [by left|right; by left]. }
    assert (∃ e, e ∈ [Js.chars "ts"; Js.chars "js"] ∧
                 rest p4 = e ++ rest p5) as (e & He & E5).
    { inversion H5 as [| | | |? ? ? ? Hl|? ? ? ? Hl| | | | | |]; subst;
        apply Den_lit in Hl; eexists; (split; [|exact Hl]);
        [by left|right; by left]. }
    assert (rest p5 ∈ [[]; Js.chars "x"]) as E6.
    { inversion H6 as [| | | | | | | |? ? ? Hx| | |]; subst.
      - inversion Hx as [|? ? ? Hr| | | | | | | | | |]; subst. cbn in E7. subst.
        rewrite Hr. right. by left.
      - rewrite E7. by left. }
    exists (read ++ r1), c1, w, c2, e, (rest p5). split_and!; try done.
    rewrite Hs, E1, E2, E3, E4, E5. by rewrite <- !app_assoc.
  - intros (front & c1 & w & c2 & e & x & Hf & Hc1 & Hc2 & Hw & He & Hx).
    exists front, (mkPos (length front) (c1 :: w ++ c2 :: e ++ x)).
    exists (mkPos (S (S (length front + length w)) + length e + length x) []).
    split_and!; [done..|]. unfold isTestFileRegex.
    eapply Den_Cat; [apply Den_Star_stop|].
    eapply Den_Cat; [by apply Den_dot_intro|].
    eapply Den_Cat with (p' := mkPos (S (length front) + length w) (c2 :: e ++ x)).
    { apply elem_of_cons in Hw as [->|Hw];
        [apply Den_Alt_l|apply Den_Alt_r; apply list_elem_of_singleton in Hw as ->];
        apply Den_lit_intro. }
    eapply Den_Cat; [by apply Den_dot_intro|].
    eapply Den_Cat with (p' := mkPos (S (S (length front + length w)) + length e) x).
    { apply elem_of_cons in He as [->|He];
        [apply Den_Alt_l|apply Den_Alt_r; apply list_elem_of_singleton in He as ->];
        apply (Den_lit_intro _ _ x). }
    eapply Den_Cat with (p' := mkPos (S (S (length front + length w)) + length e
                                      + length x) []).
    { apply elem_of_cons in Hx as [->|Hx].
      - rewrite Nat.add_0_r. apply Den_Opt_none.
      - apply list_elem_of_singleton in Hx as ->. apply Den_Opt_some.
        cbn [Js.chars length]. rewrite Nat.add_1_r.
        by apply (Den_Chr "x" (mkPos _ ["x"%char]) []). }
    by apply Den_Eol.
Qed.

(** ** Which files need a changeset *)

(** X10.  A changed file needs a changeset exactly when it is neither below a
    [__tests__] directory of a [src] directory nor named like a test or
    example file, and either ends with [package.json] or [tsconfig.json] or
    lies below a [src] directory.  A line terminator before [/src/] hides
    the directory from the patterns. *)
Theorem needsChangeset_iff f :
  needsChangeset f = true ↔
  ¬ (∃ a b c, oneLine a ∧ oneLine b ∧
       Js.chars f = a ++ Js.chars "/src/" ++ b ++ Js.chars "__tests__" ++ c) ∧
  ¬ (∃ front c1 w c2 e x,
       Js.chars f = front ++ c1 :: w ++ c2 :: e ++ x ∧
       isLineTerminator c1 = false ∧ isLineTerminator c2 = false ∧
       w ∈ [Js.chars "examples"; Js.chars "test"] ∧
       e ∈ [Js.chars "ts"; Js.chars "js"] ∧ x ∈ [[]; Js.chars "x"]) ∧
  (Js.endsWith f "package.json" = true ∨ Js.endsWith f "tsconfig.json" = true ∨
   ∃ a c, oneLine a ∧ Js.chars f = a ++ Js.chars "/src/" ++ c).
Proof.
  rewrite <- isInTestDirRegex_iff, <- isTestFileRegex_iff, <- isInSrcFileRegex_iff.
  unfold needsChangeset. cbn [existsb definitelyNeedChangeset].
  rewrite orb_false_r.
  destruct (matches isInTestDirRegex f), (matches isTestFileRegex f),
    (Js.endsWith f "package.json"), (Js.endsWith f "tsconfig.json"),
    (matches isInSrcFileRegex f); cbn; intuition congruence.
Qed.

(** X11.  The dots of the test-file pattern are not escaped: a name made of
    anything, one character, [examples] or [test], one more character and
    the extension [ts], [js], [tsx] or [jsx] counts as a test file and
    never needs a changeset, wherever it lies. *)
Theorem test_named_files_dropped (front : string) (c1 c2 : ascii) (w e : string) :
  isLineTerminator c1 = false → isLineTerminator c2 = false →
  w ∈ ["examples"; "test"]%string →
  e ∈ ["ts"; "js"; "tsx"; "jsx"]%string →
  needsChangeset (String.append front (String c1 (String.append w (String c2 e))))
  = false.
Proof.
  intros Hc1 Hc2 Hw He. unfold needsChangeset.
  assert (matches isTestFileRegex
            (String.append front (String c1 (String.append w (String c2 e))))
          = true) as ->; [|by rewrite orb_true_r].
  apply isTestFileRegex_iff.
  assert (∃ e0 x, Js.chars e = e0 ++ x ∧ e0 ∈ [Js.chars "ts"; Js.chars "js"] ∧
                  x ∈ [[]; Js.chars "x"]) as (e0 & x & Hex & He0 & Hx).
  { repeat (apply elem_of_cons in He as [->|He]);
      [exists (Js.chars "ts"), []|exists (Js.chars "js"), []
      |exists (Js.chars "ts"), (Js.chars "x")
      |exists (Js.chars "js"), (Js.chars "x")|by apply elem_of_nil in He];
      (split; [reflexivity|]); split;
      first [by left | right; by left]. }
  exists (Js.chars front), c1, (Js.chars w), c2, e0, x. split_and!; try done.
  - rewrite chars_append. f_equal.
    change (Js.chars (String c1 ?s)) with (c1 :: Js.chars s).
    rewrite chars_append.
    change (Js.chars (String c2 ?s)) with (c2 :: Js.chars s).
    by rewrite Hex.
  - apply elem_of_cons in Hw as [->|Hw]; [by left|].
    apply list_elem_of_singleton in Hw as ->. right. by left.
Qed.

Lemma test_named_files_dropped_witness :
  needsChangeset "packages/editor/src/contest.ts" = false.
Proof.
  apply (test_named_files_dropped "packages/editor/src/co" "n" "." "test" "ts").
  - reflexivity.
  - reflexivity.
  - right. by left.
  - by left.
Defined.

(** ** The changed packages of a list of files *)

Lemma NoDup_omap_inj {A B} (h : A → option B) (l : list A) :
  NoDup l →
  (∀ a b c, a ∈ l → b ∈ l → h a = Some c → h b = Some c → a = b) →
  NoDup (omap h l).
Proof.
  induction 1 as [|a l Ha Hnd IH]; intros Hinj; [constructor|].
  rewrite MinVersionsFacts.omap_cons_eq.
  assert (NoDup (omap h l)) as IH'.
  { apply IH. intros x y c Hx Hy. apply Hinj; by right. }
  destruct (h a) as [c|] eqn:Hc; [|done].
  constructor; [|done].
  intros (b & Hb & Hhb)%list_elem_of_omap. apply Ha.
  assert (a = b) as -> by (apply (Hinj a b c); [by left|by right|done..]).
  done.
Qed.

Lemma indexOf_Some (l : list (nat * AFPackage)) x i :
  indexOf l x = Some i ↔
  ∃ y, l !! i = Some y ∧ y.1 = x.1 ∧ ∀ j z, l !! j = Some z → j < i → z.1 ≠ x.1.
Proof.
  unfold indexOf. split.
  - destruct (list_find _ l) as [[i' y]|] eqn:Hf; [|done]. cbn.
    intros [= ->]. apply list_find_Some in Hf as (Hl & Hy & Hfirst). eauto.
  - intros (y & Hl & Hy & Hfirst).
    assert (list_find (λ q : nat * AFPackage, q.1 = x.1) l = Some (i, y)) as ->; [|done].
    apply list_find_Some. eauto.
Qed.

Lemma indexOf_ref (l : list (nat * AFPackage)) x y :
  x.1 = y.1 → indexOf l x = indexOf l y.
Proof. unfold indexOf. by intros ->. Qed.

Lemma indexOf_is_Some (l : list (nat * AFPackage)) x :
  x ∈ l → is_Some (indexOf l x).
Proof.
  intros Hx. unfold indexOf.
  destruct (list_find_elem_of (λ q : nat * AFPackage, q.1 = x.1) l x Hx eq_refl)
    as [[i y] ->].
  cbn. eauto.
Qed.

Lemma NoDup_imap_pair {A} (l : list A) : NoDup (imap pair l).
Proof.
  apply NoDup_alt. intros i j x Hi Hj.
  apply list_lookup_imap_Some in Hi as (y & _ & ->).
  by apply list_lookup_imap_Some in Hj as (z & _ & [= ->]).
Qed.

(** [unique] keeps one object per reference. *)
Lemma NoDup_unique (l : list (nat * AFPackage)) : NoDup (unique l).*1.
Proof.
  unfold unique. rewrite list_fmap_omap.
  apply NoDup_omap_inj; [apply NoDup_imap_pair|].
  intros [i x] [j y] c Ha Hb Hx Hy. cbn in Hx, Hy.
  destruct (bool_decide (indexOf l x = Some i)) eqn:Hi; [|done].
  destruct (bool_decide (indexOf l y = Some j)) eqn:Hj; [|done].
  apply bool_decide_eq_true in Hi, Hj. cbn in Hx, Hy.
  injection Hx as Hx. injection Hy as Hy.
  rewrite (indexOf_ref l x y) in Hi by congruence.
  assert (i = j) as -> by congruence.
  apply elem_of_lookup_imap in Ha as (? & ? & [= <- <-] & Hlx).
  apply elem_of_lookup_imap in Hb as (? & ? & [= <- <-] & Hly).
  congruence.
Qed.

Lemma elem_of_unique_iff (l : list (nat * AFPackage)) x :
  (∀ a b, a ∈ l → b ∈ l → a.1 = b.1 → a = b) →
  x ∈ unique l ↔ x ∈ l.
Proof.
  intros Hcons. split; [apply elem_of_unique|]. intros Hx.
  destruct (indexOf_is_Some l x Hx) as [i Hi].
  pose proof Hi as (y & Hl & Hy & _)%indexOf_Some.
  assert (y = x) as ->.
  { apply Hcons; [by eapply list_elem_of_lookup_2|done..]. }
  unfold unique. apply list_elem_of_omap. exists (i, x). split.
  - apply elem_of_lookup_imap. eauto.
  - cbn. by rewrite bool_decide_eq_true_2.
Qed.

Lemma indexOf_app_l (l k : list (nat * AFPackage)) x :
  x.1 ∈ l.*1 → indexOf (l ++ k) x = indexOf l x.
Proof.
  intros ([j y] & Hy & Hin)%list_elem_of_fmap. cbn in Hy.
  destruct (list_find_elem_of (λ q : nat * AFPackage, q.1 = x.1) l (j, y) Hin)
    as [[i z] Hfind]; [done|].
  unfold indexOf. rewrite Hfind.
  by rewrite (list_find_app_l _ l k i z Hfind).
Qed.

Lemma unique_snoc (l : list (nat * AFPackage)) x :
  unique (l ++ [x]) = if bool_decide (x.1 ∈ l.*1) then unique l else unique l ++ [x].
Proof.
  unfold unique at 1. rewrite imap_app, omap_app.
  assert (omap (λ y : nat * (nat * AFPackage),
                  if bool_decide (indexOf (l ++ [x]) y.2 = Some y.1)
                  then Some y.2 else None) (imap pair l) = unique l) as ->.
  { unfold unique. apply list_omap_ext, Forall_Forall2_diag, Forall_forall.
    intros [i y] (? & ? & [= <- <-] & Hl)%elem_of_lookup_imap. cbn [fst snd].
    rewrite (indexOf_app_l l [x] y); [done|].
    apply list_elem_of_fmap. exists y. split; [done|].
    by eapply list_elem_of_lookup_2. }
  cbn [imap omap list_omap snd fst].
  destruct (decide (x.1 ∈ l.*1)) as [Hin|Hin].
  - rewrite (bool_decide_eq_true_2 (x.1 ∈ l.*1)) by done.
    rewrite indexOf_app_l by done.
    destruct (indexOf l x) as [i|] eqn:Hi.
    + apply indexOf_Some in Hi as (y & Hy%lookup_lt_Some & _).
      rewrite bool_decide_eq_false_2; [by rewrite app_nil_r|].
      intros [= ->]. lia.
    + rewrite bool_decide_eq_false_2 by done. by rewrite app_nil_r.
  - rewrite (bool_decide_eq_false_2 (x.1 ∈ l.*1)) by done.
    rewrite bool_decide_eq_true_2; [done|].
    unfold indexOf. rewrite list_find_app_r.
    + cbn. rewrite decide_True by done. cbn. f_equal. lia.
    + apply list_find_None, Forall_forall. intros y Hy Heq. apply Hin.
      apply list_elem_of_fmap. by exists y.
Qed.

Lemma unique_refs (l : list (nat * AFPackage)) i :
  i ∈ (unique l).*1 ↔ i ∈ l.*1.
Proof.
  split.
  - intros (x & -> & Hx%elem_of_unique)%list_elem_of_fmap.
    apply list_elem_of_fmap. by exists x.
  - intros (x & -> & Hx)%list_elem_of_fmap.
    destruct (indexOf_is_Some l x Hx) as [j Hj].
    pose proof Hj as (y & Hl & Hy & _)%indexOf_Some.
    apply list_elem_of_fmap. exists y. split; [done|].
    unfold unique. apply list_elem_of_omap. exists (j, y). split.
    + apply elem_of_lookup_imap. eauto.
    + cbn. rewrite (indexOf_ref l y x Hy). by rewrite bool_decide_eq_true_2.
Qed.

Section more_resolver_facts.

Context (sep : string) (path_relative : string → string → string)
        (projectDir : string) (workspaces : list Workspace).

Local Abbreviation allPkgs := (allPackages path_relative projectDir workspaces).
Local Abbreviation resolve :=
  (fileNameToPackage sep path_relative projectDir workspaces).
Local Abbreviation fromFiles :=
  (getChangedPackagesFromChangedFiles sep path_relative projectDir workspaces).
Local Abbreviation withFiles :=
  (getChangedPackagesWithChangedFiles sep path_relative projectDir workspaces).
Local Abbreviation mandatory :=
  (getChangedPackagesWithMandatoryChangesetSinceCommit
     sep path_relative projectDir workspaces).

Lemma resolve_consistent f g a b :
  resolve f = Some a → resolve g = Some b → a.1 = b.1 → a = b.
Proof.
  destruct a as [i p], b as [j q]. cbn.
  intros (Hp & _)%fileNameToPackage_Some (Hq & _)%fileNameToPackage_Some ->.
  congruence.
Qed.

Lemma elem_of_fromFiles files x :
  x ∈ fromFiles files ↔
  ∃ fileName, fileName ∈ files ∧ isRatchet fileName = false ∧
              resolve fileName = Some x.
Proof.
  split; [apply fromFiles_witness|].
  intros (f & Hf & Hk & Hr).
  unfold getChangedPackagesFromChangedFiles, filterDefined.
  assert (∀ y, y ∈ omap id (map resolve (filter (λ f, isRatchet f = false) files))
            → ∃ g, resolve g = Some y) as Hall.
  { intros y (o & Ho & Hy)%list_elem_of_omap. cbn in Hy. subst o.
    apply list_elem_of_fmap in Ho as (g & Hg & _). eauto. }
  apply elem_of_unique_iff.
  - intros a b [ga Ha]%Hall [gb Hb]%Hall. by eapply resolve_consistent.
  - apply list_elem_of_omap. exists (Some x). split; [|done].
    apply list_elem_of_fmap. exists f. split; [done|].
    by apply list_elem_of_filter.
Qed.

(** X12.  The changed packages of a list of files are the packages that some
    file of the list, other than a bundle-size ratchet file, lies below;
    each of them is returned once. *)
Theorem changed_packages_exact files :
  NoDup (fromFiles files).*1 ∧
  ∀ i pkg, (i, pkg) ∈ fromFiles files ↔
    ∃ fileName, fileName ∈ files ∧ isRatchet fileName = false ∧
                resolve fileName = Some (i, pkg).
Proof.
  split.
  - unfold getChangedPackagesFromChangedFiles. apply NoDup_unique.
  - intros i pkg. apply elem_of_fromFiles.
Qed.

Lemma elem_of_mandatory files x :
  x ∈ mandatory files ↔
  ∃ fileName, fileName ∈ files ∧ needsChangeset fileName = true ∧
              isRatchet fileName = false ∧ resolve fileName = Some x.
Proof.
  unfold getChangedPackagesWithMandatoryChangesetSinceCommit.
  rewrite elem_of_fromFiles. split.
  - intros (f & [Hn Hf]%list_elem_of_filter & Hk & Hr). by exists f.
  - intros (f & Hf & Hn & Hk & Hr). exists f. split; [|done].
    by apply list_elem_of_filter.
Qed.

(** X13.  The packages with a mandatory changeset are the packages below which
    lies a file that needs a changeset and is no ratchet file; each is
    listed once, and each is one of the changed packages. *)
Theorem mandatory_packages_exact files :
  NoDup (mandatory files).*1 ∧
  (∀ x, x ∈ mandatory files ↔
     ∃ fileName, fileName ∈ files ∧ needsChangeset fileName = true ∧
                 isRatchet fileName = false ∧ resolve fileName = Some x) ∧
  mandatory files ⊆ fromFiles files.
Proof.
  split_and!.
  - unfold getChangedPackagesWithMandatoryChangesetSinceCommit,
      getChangedPackagesFromChangedFiles. apply NoDup_unique.
  - apply elem_of_mandatory.
  - intros x (f & Hf & _ & Hk & Hr)%elem_of_mandatory.
    apply elem_of_fromFiles. by exists f.
Qed.

(** X14.  The changed packages come in the order in which the files first
    mention them: one more file at the end adds its package at the end,
    unless the file is a ratchet file, lies below no package, or its
    package is listed already. *)
Theorem changed_packages_snoc files fileName :
  fromFiles (files ++ [fileName]) =
  match (if isRatchet fileName then None else resolve fileName) with
  | Some x => if bool_decide (x.1 ∈ (fromFiles files).*1)
              then fromFiles files else fromFiles files ++ [x]
  | None => fromFiles files
  end.
Proof.
  unfold getChangedPackagesFromChangedFiles, filterDefined.
  rewrite filter_app. change (map ?f ?l) with (f <$> l).
  rewrite fmap_app, omap_app.
  destruct (isRatchet fileName) eqn:Hk.
  - rewrite filter_cons_False by (by rewrite Hk).
    rewrite filter_nil. cbn. by rewrite app_nil_r.
  - rewrite filter_cons_True by done. rewrite filter_nil. cbn [fmap list_fmap].
    destruct (resolve fileName) as [x|]; cbn.
    + rewrite unique_snoc.
      destruct (bool_decide (x.1 ∈ _.*1)) eqn:H1.
      * apply bool_decide_eq_true in H1.
        by rewrite bool_decide_eq_true_2 by by apply unique_refs.
      * apply bool_decide_eq_false in H1.
        rewrite bool_decide_eq_false_2; [done|]. by rewrite unique_refs.
    + by rewrite app_nil_r.
Qed.

(** ** The changed files of each package *)

Local Abbreviation rel := (path_relative projectDir).
Local Abbreviation nameOf :=
  (λ fileName, (λ x : nat * AFPackage, name x.2) <$> resolve fileName).
Local Abbreviation step_of := (reducer sep path_relative projectDir workspaces).
Local Abbreviation steps_of := (reduce sep path_relative projectDir workspaces).

(** The accumulator after the files [done]: one entry per package name
    met, holding the first package resolved under that name and the files
    resolved under it, in order. *)
Local Abbreviation collected done acc :=
  (NoDup acc.*1 ∧
   (∀ k c, (k, c) ∈ acc →
      (k ≠ ""%string) ∧ (k ∉ inherited) ∧ name (package c) = k ∧
      (∃ f i, f ∈ done ∧ resolve f = Some (i, package c)) ∧
      changedFiles c = rel <$> filter (λ f, nameOf f = Some k) done) ∧
   (∀ f k, f ∈ done → nameOf f = Some k → k ≠ ""%string → k ∈ acc.*1)).

Lemma acc_get_Some acc k c : acc_get acc k = Some c → (k, c) ∈ acc.
Proof.
  induction acc as [|[k0 v0] acc IH]; cbn; [done|].
  case_bool_decide as Hk.
  - intros [= <-]. subst. by left.
  - intros Hc. right. by apply IH.
Qed.

Lemma acc_get_None acc k : acc_get acc k = None ↔ k ∉ acc.*1.
Proof.
  induction acc as [|[k0 v0] acc IH]; cbn.
  - split; [intros _; apply not_elem_of_nil|done].
  - rewrite not_elem_of_cons. case_bool_decide as Hk.
    + split; [done|]. intros [Hne _]. by subst.
    + rewrite IH. split; [intros ?; split; [congruence|done]|by intros [_ ?]].
Qed.

Lemma acc_push_keys acc key f : (acc_push acc key f).*1 = acc.*1.
Proof.
  induction acc as [|[k0 v0] acc IH]; cbn; [done|].
  case_bool_decide; cbn; [done|]. by rewrite IH.
Qed.

Lemma acc_push_spec acc key f k c :
  NoDup acc.*1 → (k, c) ∈ acc_push acc key f →
  (k ≠ key ∧ (k, c) ∈ acc) ∨
  (k = key ∧ ∃ c0, (key, c0) ∈ acc ∧
     c = mkChanged (changedFiles c0 ++ [f]) (package c0)).
Proof.
  induction acc as [|[k0 v0] acc IH]; cbn; [by intros _ ?%elem_of_nil|].
  intros [Hk0 Hnd]%NoDup_cons. case_bool_decide as Hk.
  - subst k0. intros [[= -> ->]|Hin]%elem_of_cons.
    + right. split; [done|]. exists v0. split; [by left|done].
    + left. split; [|by right]. intros ->. apply Hk0.
      apply list_elem_of_fmap. by exists (key, c).
  - intros [[= -> ->]|Hin]%elem_of_cons.
    + left. split; [done|by left].
    + destruct (IH Hnd Hin) as [[Hne Hc]|(-> & c0 & Hc0 & ->)].
      * left. split; [done|by right].
      * right. split; [done|]. exists c0. split; [by right|done].
Qed.

Lemma filter_named_skip (done : list string) f k :
  nameOf f ≠ Some k →
  filter (λ f, nameOf f = Some k) (done ++ [f])
  = filter (λ f, nameOf f = Some k) done.
Proof.
  intros Hk. rewrite filter_app, filter_cons_False by done.
  by rewrite filter_nil, app_nil_r.
Qed.

Lemma filter_named_take (done : list string) f k :
  nameOf f = Some k →
  filter (λ f, nameOf f = Some k) (done ++ [f])
  = filter (λ f, nameOf f = Some k) done ++ [f].
Proof.
  intros Hk. rewrite filter_app, filter_cons_True by done.
  by rewrite filter_nil.
Qed.

Lemma collected_skip done acc f :
  collected done acc →
  (∀ k, nameOf f = Some k → k = ""%string) →
  collected (done ++ [f]) acc.
Proof.
  intros (Hnd & Hent & Hcov) Hf. split_and!; [done| |].
  - intros k c Hin.
    destruct (Hent k c Hin) as (H1 & H2 & H3 & (g & i & Hg & Hr) & H5).
    split_and!; [done..| |].
    + exists g, i. split; [|done]. apply elem_of_app. by left.
    + rewrite filter_named_skip; [done|]. intros Hk. by apply Hf in Hk.
  - intros g k [Hg|Hg%list_elem_of_singleton]%elem_of_app Hk Hne;
      [by eapply Hcov|].
    subst g. by apply Hf in Hk.
Qed.

Lemma reducer_outcome done acc f :
  collected done acc →
  match step_of acc f with
  | Js.Ok acc' => collected (done ++ [f]) acc' ∧
                  ¬ (∃ k, nameOf f = Some k ∧ k ∈ inherited)
  | Js.Throw e => e = TypeError ∧ ∃ k, nameOf f = Some k ∧ k ∈ inherited
  end.
Proof.
  intros Hcol. pose proof Hcol as (Hnd & Hent & Hcov). unfold reducer.
  destruct (resolve f) as [[i pkg]|] eqn:Hr; cbn [fmap option_fmap option_map snd].
  2:{ split.
      - apply collected_skip; [done|]. intros k. by rewrite Hr.
      - by intros (k & Hk & _). }
  set (n := name pkg).
  assert (nameOf f = Some n) as Hn by (by rewrite Hr).
  case_bool_decide as Hempty.
  { split.
    - apply collected_skip; [done|]. intros k Hk. congruence.
    - intros (k & Hk & Hin). assert (k = ""%string) as -> by congruence.
      revert Hin. by apply (bool_decide_eq_false_1 _). }
  destruct (acc_get acc n) as [c0|] eqn:Hget.
  - apply acc_get_Some in Hget.
    destruct (Hent n c0 Hget) as (_ & Hninh & _).
    split; [|intros (k & Hk & Hin); congruence]. split_and!.
    + by rewrite acc_push_keys.
    + intros k c [[Hne Hin]|(-> & c1 & Hin & ->)]%acc_push_spec; [| |done].
      * destruct (Hent k c Hin) as (H1 & H2 & H3 & (g & j & Hg & Hrg) & H5).
        split_and!; [done..| |].
        -- exists g, j. split; [|done]. apply elem_of_app. by left.
        -- rewrite filter_named_skip; [done|]. congruence.
      * destruct (Hent n c1 Hin) as (H1 & H2 & H3 & (g & j & Hg & Hrg) & H5).
        cbn [changedFiles package]. split_and!; [done..| |].
        -- exists g, j. split; [|done]. apply elem_of_app. by left.
        -- rewrite filter_named_take by done. by rewrite fmap_app, H5.
    + rewrite acc_push_keys.
      intros g k [Hg|Hg%list_elem_of_singleton]%elem_of_app Hk Hne;
        [by eapply Hcov|].
      subst g. assert (k = n) as -> by congruence.
      apply list_elem_of_fmap. by exists (n, c0).
  - apply acc_get_None in Hget. case_bool_decide as Hinh.
    { split; [done|]. by exists n. }
    split; [|intros (k & Hk & Hin); congruence].
    assert (filter (λ f, nameOf f = Some n) done = []) as Hnone.
    { destruct (filter _ done) as [|g l] eqn:Hfil; [done|]. exfalso.
      assert (g ∈ filter (λ f, nameOf f = Some n) done) as Hg
        by (rewrite Hfil; by left).
      apply list_elem_of_filter in Hg as [Hgn Hg].
      apply Hget. by eapply Hcov. }
    split_and!.
    + rewrite fmap_app. apply NoDup_app. split_and!; [done| |].
      * intros k Hk [->|[]%elem_of_nil]%elem_of_cons. done.
      * apply NoDup_singleton.
    + intros k c [Hin|[= -> ->]%list_elem_of_singleton]%elem_of_app.
      * destruct (Hent k c Hin) as (H1 & H2 & H3 & (g & j & Hg & Hrg) & H5).
        split_and!; [done..| |].
        -- exists g, j. split; [|done]. apply elem_of_app. by left.
        -- rewrite filter_named_skip; [done|]. intros Hk. apply Hget.
           assert (k = n) as -> by congruence.
           apply list_elem_of_fmap. by exists (n, c).
      * cbn [changedFiles package]. split_and!; [done..| |].
        -- exists f, i. split; [|done]. apply elem_of_app. right. by left.
        -- rewrite filter_named_take by done. by rewrite Hnone.
    + rewrite fmap_app.
      intros g k [Hg|Hg%list_elem_of_singleton]%elem_of_app Hk Hne.
      * apply elem_of_app. left. by eapply Hcov.
      * subst g. assert (k = n) as -> by congruence.
        apply elem_of_app. right. by left.
Qed.

Lemma reduce_outcome todo done acc :
  collected done acc →
  match steps_of todo acc with
  | Js.Ok acc' => collected (done ++ todo) acc' ∧
                  ¬ (∃ f k, f ∈ todo ∧ nameOf f = Some k ∧ k ∈ inherited)
  | Js.Throw e => e = TypeError ∧
                  ∃ f k, f ∈ todo ∧ nameOf f = Some k ∧ k ∈ inherited
  end.
Proof.
  revert done acc. induction todo as [|f todo IH]; intros done acc Hcol;
    cbn [reduce].
  - rewrite app_nil_r. split; [done|]. by intros (f & k & []%elem_of_nil & _).
  - pose proof (reducer_outcome done acc f Hcol) as Hstep.
    destruct (step_of acc f) as [acc1|e].
    + destruct Hstep as [Hcol1 Hno1]. specialize (IH (done ++ [f]) acc1 Hcol1).
      destruct (steps_of todo acc1) as [acc'|e].
      * destruct IH as [Hcol' Hno]. rewrite <- app_assoc in Hcol'.
        split; [done|].
        intros (g & k & [->|Hg]%elem_of_cons & Hk & Hin); [by apply Hno1; eauto|].
        apply Hno. eauto.
      * destruct IH as (-> & g & k & Hg & Hk & Hin). split; [done|].
        exists g, k. split; [by right|done].
    + destruct Hstep as (-> & k & Hk & Hin). split; [done|].
      exists f, k. split; [by left|done].
Qed.

(** X15.  [getChangedPackagesWithChangedFiles] fails exactly when a file, other
    than a ratchet file, lies below a package named like a property that
    every object inherits, such as [constructor] or [toString]: the lookup
    [acc[packagename]] then finds the inherited value, which has no
    [changedFiles]. *)
Theorem changed_files_failure files :
  (∃ e, withFiles files = Throw e) ↔
  ∃ fileName i pkg, fileName ∈ files ∧ isRatchet fileName = false ∧
    resolve fileName = Some (i, pkg) ∧ name pkg ∈ inherited.
Proof.
  unfold getChangedPackagesWithChangedFiles.
  pose proof (reduce_outcome (filter (λ f, isRatchet f = false) files) [] []) as Hout.
  destruct (steps_of _ []) as [acc|e].
  - destruct Hout as [_ Hno].
    { split_and!; [constructor|by intros k c ?%elem_of_nil
                  |by intros f k ?%elem_of_nil]. }
    split; [by intros [e ?]|].
    intros (f & i & pkg & Hf & Hk & Hr & Hin). exfalso. apply Hno.
    exists f, (name pkg). split_and!; [|by rewrite Hr|done].
    by apply list_elem_of_filter.
  - destruct Hout as (-> & f & k & [Hk Hf]%list_elem_of_filter & Hn & Hin).
    { split_and!; [constructor|by intros k c ?%elem_of_nil
                  |by intros f k ?%elem_of_nil]. }
    split; [|eauto]. intros _.
    destruct (resolve f) as [[i pkg]|] eqn:Hr; [|done].
    exists f, i, pkg. injection Hn as <-. done.
Qed.

(** X16.  When it returns, the result has one entry per package name met.  The
    entry holds the first package resolved under that name and, in the
    order of the input, the project-relative names of all files resolved
    under it, at least one; every file below a package with a non-empty
    name is recorded. *)
Theorem changed_files_exact files cs :
  withFiles files = Ok cs →
  NoDup (map (λ c, name (package c)) cs) ∧
  (∀ c, c ∈ cs →
     changedFiles c ≠ [] ∧
     changedFiles c =
       rel <$> filter (λ f, nameOf f = Some (name (package c)))
                      (filter (λ f, isRatchet f = false) files)) ∧
  (∀ fileName i pkg,
     fileName ∈ files → isRatchet fileName = false →
     resolve fileName = Some (i, pkg) → name pkg ≠ ""%string →
     ∃ c, c ∈ cs ∧ name (package c) = name pkg ∧ rel fileName ∈ changedFiles c).
Proof.
  unfold getChangedPackagesWithChangedFiles.
  pose proof (reduce_outcome (filter (λ f, isRatchet f = false) files) [] []) as Hout.
  destruct (steps_of _ []) as [acc|e]; [|done]. intros [= <-].
  destruct Hout as [(Hnd & Hent & Hcov) _].
  { split_and!; [constructor|by intros k c ?%elem_of_nil
                |by intros f k ?%elem_of_nil]. }
  rewrite app_nil_l in Hent, Hcov.
  assert (map (λ c, name (package c)) (map snd acc) = acc.*1) as Hkeys.
  { rewrite map_map. apply list_eq. intros j.
    change (map ?f ?l) with (f <$> l). rewrite !list_lookup_fmap.
    destruct (acc !! j) as [[k c]|] eqn:Hj; [|done]. cbn. f_equal.
    apply list_elem_of_lookup_2 in Hj. by destruct (Hent k c Hj) as (_ & _ & ? & _). }
  split_and!.
  - by rewrite Hkeys.
  - intros c ([k c'] & -> & Hin)%list_elem_of_fmap. cbn.
    destruct (Hent k c' Hin) as (_ & _ & Hname & (g & j & Hg & Hrg) & Hfiles).
    rewrite Hname. split; [|done]. rewrite Hfiles.
    assert (g ∈ filter (λ f, nameOf f = Some k)
                       (filter (λ f, isRatchet f = false) files)) as Hgin.
    { apply list_elem_of_filter. split; [|done]. by rewrite Hrg; cbn; rewrite Hname. }
    intros Hnil%fmap_nil_inv. cbv beta in Hgin, Hnil. rewrite Hnil in Hgin.
    by apply elem_of_nil in Hgin.
  - intros f i pkg Hf Hk Hr Hne.
    assert (f ∈ filter (λ f, isRatchet f = false) files) as Hfk
      by by apply list_elem_of_filter.
    assert (nameOf f = Some (name pkg)) as Hn by by rewrite Hr.
    pose proof (Hcov f (name pkg) Hfk Hn Hne) as ([k c] & Hkc & Hin)%list_elem_of_fmap.
    cbn in Hkc. subst k.
    destruct (Hent _ c Hin) as (_ & _ & Hname & _ & Hfiles).
    exists c. split_and!; [|done|].
    + apply list_elem_of_fmap. by exists (name pkg, c).
    + rewrite Hfiles. apply list_elem_of_fmap. exists f. split; [done|].
      by apply list_elem_of_filter.
Qed.

Lemma withFiles_collected files cs :
  withFiles files = Ok cs →
  ∃ acc, cs = map snd acc ∧
         collected (filter (λ f, isRatchet f = false) files) acc.
Proof.
  unfold getChangedPackagesWithChangedFiles.
  pose proof (reduce_outcome (filter (λ f, isRatchet f = false) files) [] []) as Hout.
  destruct (steps_of _ []) as [acc|e]; [|done]. intros [= <-].
  destruct Hout as [Hcol _].
  { split_and!; [constructor|by intros k c ?%elem_of_nil
                |by intros f k ?%elem_of_nil]. }
  by exists acc.
Qed.

(** X17.  The two listings agree: when the workspace names are pairwise
    different, the packages of the entries with changed files are the
    changed packages that have a non-empty name. *)
Theorem changed_files_agree files cs pkg :
  NoDup (map ws_name workspaces) →
  getChangedPackagesWithChangedFiles sep path_relative projectDir workspaces files
  = Ok cs →
  (∃ c, c ∈ cs ∧ package c = pkg) ↔
  (name pkg ≠ ""%string ∧
   ∃ i, (i, pkg) ∈ getChangedPackagesFromChangedFiles
                     sep path_relative projectDir workspaces files).
Proof.
  intros Hnames (acc & -> & Hnd & Hent & Hcov)%withFiles_collected. split.
  - intros (c & ([k c'] & -> & Hin)%list_elem_of_fmap & <-). cbn.
    destruct (Hent k c' Hin) as (Hne & _ & Hname & (g & i & Hg & Hr) & _).
    split; [congruence|]. exists i. apply elem_of_fromFiles.
    apply list_elem_of_filter in Hg as [Hk Hg]. by exists g.
  - intros (Hne & i & (f & Hf & Hk & Hr)%elem_of_fromFiles).
    assert (f ∈ filter (λ f, isRatchet f = false) files) as Hfk
      by by apply list_elem_of_filter.
    assert (nameOf f = Some (name pkg)) as Hn by by rewrite Hr.
    pose proof (Hcov f (name pkg) Hfk Hn Hne) as ([k c] & Hkc & Hin)%list_elem_of_fmap.
    cbn in Hkc. subst k.
    destruct (Hent _ c Hin) as (_ & _ & Hname & (g & j & Hg & Hrg) & _).
    exists c. split; [apply list_elem_of_fmap; by exists (name pkg, c)|].
    apply fileNameToPackage_Some in Hr as (Hi & _).
    apply fileNameToPackage_Some in Hrg as (Hj & _).
    assert (∀ n q, allPkgs !! n = Some q →
              map ws_name workspaces !! n = Some (name q)) as Hlook.
    { intros n q. unfold allPackages. change (map ?f ?l) with (f <$> l).
      rewrite !list_lookup_fmap.
      destruct (workspaces !! n) as [w|]; [|done]. cbn. by intros [= <-]. }
    assert (i = j) as ->; [|congruence].
    apply (NoDup_lookup _ i j (name pkg) Hnames); [by apply Hlook|].
    rewrite <- Hname. by apply Hlook.
Qed.

End more_resolver_facts.

Lemma changed_files_exact_witness :
  let foo := mkAFPackage "packages/foo" "foo" "packages/foo" in
  let foo_bar := mkAFPackage "packages/foo-bar" "foo-bar" "packages/foo-bar" in
  let cs := [mkChanged ["packages/foo/src/a.ts"; "packages/foo/c.ts"]%string foo;
             mkChanged ["packages/foo-bar/b.ts"]%string foo_bar] in
  NoDup (map (λ c, name (package c)) cs) ∧
  ∀ c, c ∈ cs → changedFiles c ≠ [].
Proof.
  cbv zeta.
  destruct (changed_files_exact "/" (λ _ f, f) "" [Sample.foo; Sample.foo_bar]
              ["packages/foo/src/a.ts"; "packages/foo-bar/b.ts"; "packages/foo/c.ts"]
              [mkChanged ["packages/foo/src/a.ts"; "packages/foo/c.ts"]%string
                 (mkAFPackage "packages/foo" "foo" "packages/foo");
               mkChanged ["packages/foo-bar/b.ts"]%string
                 (mkAFPackage "packages/foo-bar" "foo-bar" "packages/foo-bar")])
    as (Hnd & Hfiles & _); [vm_compute; reflexivity|].
  split; [done|]. intros c Hc. by destruct (Hfiles c Hc).
Defined.

Lemma changed_files_agree_witness :
  let foo := mkAFPackage "packages/foo" "foo" "packages/foo" in
  let foo_bar := mkAFPackage "packages/foo-bar" "foo-bar" "packages/foo-bar" in
  let cs := [mkChanged ["packages/foo/src/a.ts"]%string foo;
             mkChanged ["packages/foo-bar/b.ts"]%string foo_bar] in
  (∃ c, c ∈ cs ∧ package c = foo) ↔
  (name foo ≠ ""%string ∧
   ∃ i, (i, foo) ∈ getChangedPackagesFromChangedFiles "/" (λ _ f, f) ""
                     [Sample.foo; Sample.foo_bar]
                     ["packages/foo/src/a.ts"; "packages/foo-bar/b.ts"]).
Proof.
  cbv zeta.
  apply (changed_files_agree "/" (λ _ f, f) "" [Sample.foo; Sample.foo_bar]
           ["packages/foo/src/a.ts"; "packages/foo-bar/b.ts"]).
  - apply (bool_decide_unpack _). vm_compute. exact I.
  - vm_compute. reflexivity.
Defined.

(** ** The walker at any depth *)

Lemma loop_sound fuel depGraph depth root st r :
  NoDup (visited st) →
  (∀ x, x ∈ visited st ∨ x ∈ queue st → reachable depGraph root x) →
  loop fuel depGraph depth st = Some r →
  match r with
  | Js.Ok v => NoDup v ∧ ∀ x, x ∈ v → reachable depGraph root x
  | Js.Throw e => ∃ x, e = CannotFindInGraph x ∧ reachable depGraph root x ∧
                       depGraph !! x = None
  end.
Proof.
  revert st. induction fuel as [|fuel IH]; intros st Hnd Hreach; [done|].
  cbn [loop]. destruct (queue st) as [|currentPkg queue'] eqn:Hq.
  { unfold step. rewrite Hq. intros [= <-]. split; [done|]. eauto. }
  assert (reachable depGraph root currentPkg) as Hcur.
  { apply Hreach. right. rewrite ?Hq. by left. }
  destruct (step_cases depGraph depth st _ _ Hq)
    as [->|[(Hv & n & c & ->)|[(Hv & Hn & ->)|(Hv & deps & n & c & Hg & ->)]]].
  - intros [= <-]. split; [done|]. eauto.
  - apply IH; cbn [visited queue]; [done|].
    intros x [Hx|Hx]; apply Hreach; [by left|right]. rewrite ?Hq. by right.
  - intros [= <-]. by exists currentPkg.
  - apply IH; cbn [visited queue].
    + apply NoDup_app. split_and!; [done| |apply NoDup_singleton].
      by intros x Hx ->%list_elem_of_singleton.
    + intros x [[Hx| ->%list_elem_of_singleton]%elem_of_app
               |[Hx|Hx]%elem_of_app].
      * apply Hreach. by left.
      * done.
      * apply Hreach. right. rewrite ?Hq. by right.
      * eapply rtc_r; [exact Hcur|]. by exists deps.
Qed.

(** X18.  Whatever the depth and the graph, the walk ends.  It returns packages
    that can be reached from the start along dependency entries, each
    once and never the start itself; or it fails on a reachable package
    that has no entry in the graph. *)
Theorem walk_sound pkgName depth depGraph :
  ∃ r, getTransitiveDependencies pkgName depth depGraph = Some r ∧
    match r with
    | Js.Ok l => NoDup l ∧ (pkgName ∉ l) ∧
                 ∀ x, x ∈ l → reachable depGraph pkgName x
    | Js.Throw e => ∃ x, e = CannotFindInGraph x ∧
                         reachable depGraph pkgName x ∧ depGraph !! x = None
    end.
Proof.
  destruct (getTransitiveDependencies_terminates pkgName depth depGraph)
    as [r Hr].
  exists r. split; [done|]. unfold getTransitiveDependencies in Hr.
  destruct (loop _ _ _ _) as [r0|] eqn:Hloop; [|done].
  apply (loop_sound _ _ _ pkgName) in Hloop; cbn [visited queue].
  - destruct r0 as [v|e]; injection Hr as <-; [|done].
    destruct Hloop as [Hnd Hv]. split_and!.
    + by apply NoDup_filter.
    + by intros [? _]%list_elem_of_filter.
    + intros x [_ Hx]%list_elem_of_filter. by apply Hv.
  - constructor.
  - intros x [Hx|Hx%list_elem_of_singleton]; [by apply elem_of_nil in Hx|].
    subst x. apply rtc_refl.
Qed.

(** X19.  At depth [-1] the loop breaks before it visits the start, so the
    result is empty for every graph, also one without the start.  At any
    other depth a start without an entry in the graph makes the walk fail,
    naming the start. *)
Theorem walk_from_unknown_start pkgName depth depGraph :
  getTransitiveDependencies pkgName (Some (-1)%Z) depGraph = Some (Ok []) ∧
  (depGraph !! pkgName = None → depth ≠ Some (-1)%Z →
   getTransitiveDependencies pkgName depth depGraph
   = Some (Throw (CannotFindInGraph pkgName))).
Proof.
  split.
  - unfold getTransitiveDependencies.
    replace (entries depGraph + 2) with (S (entries depGraph + 1)) by lia.
    reflexivity.
  - intros Hg Hd. unfold getTransitiveDependencies.
    replace (entries depGraph + 2) with (S (entries depGraph + 1)) by lia.
    cbn [loop]. unfold step. cbn [queue nodesUntilDepthIncrease currentDepth visited].
    rewrite bool_decide_eq_true_2 by done.
    rewrite bool_decide_eq_false_2.
    + rewrite bool_decide_eq_false_2 by apply not_elem_of_nil. by rewrite Hg.
    + destruct depth as [d|]; cbn; [|lia]. intros Heq. apply Hd. f_equal. lia.
Qed.

Lemma walk_from_unknown_start_witness :
  getTransitiveDependencies "z" (Some (-1)%Z) Sample.cyclic = Some (Ok []) ∧
  getTransitiveDependencies "z" (Some 3%Z) Sample.cyclic
  = Some (Throw (CannotFindInGraph "z")).
Proof.
  destruct (walk_from_unknown_start "z" (Some 3%Z) Sample.cyclic) as [H1 H2].
  split; [exact H1|]. apply H2; [reflexivity|discriminate].
Defined.

(** ** The walker at a given depth *)

Lemma bsteps_S_inv {A} (R : relation A) n x z :
  bsteps R (S n) x z → bsteps R n x z ∨ ∃ y, bsteps R n x y ∧ R y z.
Proof.
  intros (m & Hm & Hsteps)%bsteps_nsteps.
  destruct (decide (m ≤ n)) as [Hle|Hgt].
  - left. apply bsteps_nsteps. eauto.
  - assert (m = S n) as -> by lia.
    apply nsteps_inv_r in Hsteps as (y & Hy & HR).
    right. exists y. split; [|done]. apply bsteps_nsteps. eauto.
Qed.

Lemma levelled_next depGraph root c st q2 x :
  levelled depGraph root c st [] q2 →
  bsteps (dependsOn depGraph) (S c) root x →
  x ∈ visited st ∨ x ∈ q2.
Proof.
  intros (Hq & _ & _ & _ & _ & _ & _ & Hall & Hclosed)
    [Hx|(y & Hy & deps & Hdeps & Hin)]%bsteps_S_inv.
  - destruct (Hall x Hx) as [?|[]%elem_of_nil]. by left.
  - destruct (Hall y Hy) as [Hv|[]%elem_of_nil].
    rewrite Hq in Hclosed. by eapply Hclosed.
Qed.

Lemma levelled_closed depGraph root c st x :
  levelled depGraph root c st [] [] →
  reachable depGraph root x → x ∈ visited st.
Proof.
  intros (Hq & _ & _ & _ & _ & _ & _ & Hall & Hclosed). revert x.
  apply rtc_ind_r.
  - destruct (Hall root) as [?|[]%elem_of_nil]; [constructor|done].
  - intros y z _ (deps & Hy & Hz) IH. rewrite Hq in Hclosed.
    destruct (Hclosed y deps z IH Hy Hz) as [?|[]%elem_of_nil]. done.
Qed.

Lemma levelled_skip depGraph root c st st' q1 q2 y :
  queue st = y :: q1 ++ q2 → NoDup (visited st) →
  (∀ x, x ∈ visited st → bsteps (dependsOn depGraph) c root x) →
  (∀ x, x ∈ q1 → bsteps (dependsOn depGraph) c root x) →
  (∀ x, x ∈ q2 → bsteps (dependsOn depGraph) (S c) root x) →
  (∀ x, bsteps (dependsOn depGraph) c root x →
        x ∈ visited st ∨ x ∈ y :: q1) →
  (∀ v deps d, v ∈ visited st → depGraph !! v = Some deps → d ∈ deps →
               d ∈ visited st ∨ d ∈ queue st) →
  y ∈ visited st →
  visited st' = visited st → queue st' = q1 ++ q2 →
  nodesUntilDepthIncrease st' = Z.of_nat (S (length q1)) →
  currentDepth st' = Z.of_nat c →
  levelled depGraph root c st' q1 q2.
Proof.
  intros Hq Hnd Hvis Hq1 Hq2 Hall Hclosed Hy Hv' Hq' Hn' Hc'.
  unfold levelled. rewrite Hv', Hq'. split_and!; try done.
  - intros x [?|[->|?]%elem_of_cons]%Hall; auto.
  - intros v deps d Hv Hdeps Hd.
    destruct (Hclosed v deps d Hv Hdeps Hd) as [?|Hin]; [by left|].
    rewrite Hq in Hin. apply elem_of_cons in Hin as [->|?]; auto.
Qed.

Lemma levelled_visit depGraph root c st st' q1 q2 y deps :
  queue st = y :: q1 ++ q2 → NoDup (visited st) →
  (∀ x, x ∈ visited st → bsteps (dependsOn depGraph) c root x) →
  bsteps (dependsOn depGraph) c root y →
  (∀ x, x ∈ q1 → bsteps (dependsOn depGraph) c root x) →
  (∀ x, x ∈ q2 → bsteps (dependsOn depGraph) (S c) root x) →
  (∀ x, bsteps (dependsOn depGraph) c root x →
        x ∈ visited st ∨ x ∈ y :: q1) →
  (∀ v deps d, v ∈ visited st → depGraph !! v = Some deps → d ∈ deps →
               d ∈ visited st ∨ d ∈ queue st) →
  y ∉ visited st → depGraph !! y = Some deps →
  visited st' = visited st ++ [y] → queue st' = (q1 ++ q2) ++ deps →
  nodesUntilDepthIncrease st' = Z.of_nat (S (length q1)) →
  currentDepth st' = Z.of_nat c →
  levelled depGraph root c st' q1 (q2 ++ deps).
Proof.
  intros Hq Hnd Hvis Hy Hq1 Hq2 Hall Hclosed Hny Hdeps Hv' Hq' Hn' Hc'.
  unfold levelled. rewrite Hv', Hq'. split_and!; try done.
  - by rewrite app_assoc.
  - apply NoDup_app. split_and!; [done| |apply NoDup_singleton].
    by intros x Hx ->%list_elem_of_singleton.
  - intros x [?| ->%list_elem_of_singleton]%elem_of_app; auto.
  - intros x [?|Hx]%elem_of_app; [auto|].
    eapply bsteps_r; [exact Hy|]. by exists deps.
  - intros x [?|[->|?]%elem_of_cons]%Hall; [left|left|by right];
      apply elem_of_app; [by left|right; by left].
  - intros v ds d [Hv| ->%list_elem_of_singleton]%elem_of_app Hds Hd.
    + destruct (Hclosed v ds d Hv Hds Hd) as [?|Hin].
      * left. apply elem_of_app. by left.
      * rewrite Hq in Hin. apply elem_of_cons in Hin as [->|?].
        -- left. apply elem_of_app. right. by left.
        -- right. apply elem_of_app. by left.
    + right. apply elem_of_app. right. congruence.
Qed.

Lemma loop_levelled fuel depGraph root D :
  (∀ x, bsteps (dependsOn depGraph) D root x → is_Some (depGraph !! x)) →
  ∀ c st q1 q2 r,
    c ≤ D → levelled depGraph root c st q1 q2 →
    loop fuel depGraph (Z.of_nat D) st = Some r →
    ∃ v, r = Ok v ∧ NoDup v ∧
         ∀ x, x ∈ v ↔ bsteps (dependsOn depGraph) D root x.
Proof.
  intros Hkeys. induction fuel as [|fuel IH]; intros c st q1 q2 r Hc Hlev; [done|].
  pose proof Hlev as (Hq & Hcur & Hn & Hnd & Hvis & Hq1 & Hq2 & Hall & Hclosed).
  cbn [loop]. unfold step.
  destruct q1 as [|y q1]; [destruct q2 as [|y q2]|]; rewrite Hq; cbn [app].
  - intros [= <-]. exists (visited st). split_and!; [done..|].
    intros x. split.
    + intros Hx. eapply bsteps_weaken; [exact Hc|]. by apply Hvis.
    + intros Hx%rtc_bsteps_2. by eapply levelled_closed.
  - rewrite Hn, Hcur. cbn [length].
    rewrite bool_decide_eq_true_2 by lia.
    case_bool_decide as Hbreak.
    { intros [= <-]. assert (c = D) as -> by lia.
      exists (visited st). split_and!; [done..|]. intros x. split; [by apply Hvis|].
      intros Hx. by destruct (Hall x Hx) as [?|[]%elem_of_nil]. }
    assert (∀ x, bsteps (dependsOn depGraph) (S c) root x →
                 x ∈ visited st ∨ x ∈ y :: q2) as Hall'
      by (intros x Hx; by eapply levelled_next).
    assert (queue st = y :: q2 ++ []) as Hq' by by rewrite app_nil_r.
    case_bool_decide as Hy.
    + apply (IH (S c) _ q2 []); [lia|].
      apply (levelled_skip depGraph root (S c) st _ q2 [] y); cbn.
      * done.
      * done.
      * eauto using bsteps_S.
      * intros x Hx. apply Hq2. by right.
      * by intros x []%elem_of_nil.
      * done.
      * done.
      * done.
      * done.
      * by rewrite app_nil_r.
      * lia.
      * lia.
    + destruct (Hkeys y) as [deps Hdeps].
      { eapply bsteps_weaken; [|apply Hq2; by left]. lia. }
      rewrite Hdeps. apply (IH (S c) _ q2 ([] ++ deps)); [lia|].
      apply (levelled_visit depGraph root (S c) st _ q2 [] y deps); cbn.
      * done.
      * done.
      * eauto using bsteps_S.
      * apply Hq2. by left.
      * intros x Hx. apply Hq2. by right.
      * by intros x []%elem_of_nil.
      * done.
      * done.
      * done.
      * done.
      * done.
      * by rewrite app_nil_r.
      * lia.
      * lia.
  - rewrite Hn, Hcur. cbn [length].
    rewrite bool_decide_eq_false_2 by lia.
    rewrite bool_decide_eq_false_2 by lia.
    case_bool_decide as Hy.
    + apply (IH c _ q1 q2); [lia|].
      apply (levelled_skip depGraph root c st _ q1 q2 y); cbn.
      * done.
      * done.
      * done.
      * intros x Hx. apply Hq1. by right.
      * done.
      * done.
      * done.
      * done.
      * done.
      * done.
      * lia.
      * lia.
    + destruct (Hkeys y) as [deps Hdeps].
      { eapply bsteps_weaken; [exact Hc|]. apply Hq1. by left. }
      rewrite Hdeps. apply (IH c _ q1 (q2 ++ deps)); [lia|].
      apply (levelled_visit depGraph root c st _ q1 q2 y deps); cbn.
      * done.
      * done.
      * done.
      * apply Hq1. by left.
      * intros x Hx. apply Hq1. by right.
      * done.
      * done.
      * done.
      * done.
      * done.
      * done.
      * done.
      * lia.
      * lia.
Qed.

(** X20.  With a depth [d ≥ 0] the walk returns exactly the packages that can be
    reached from the start in at most [d] steps along dependency entries,
    each once and without the start, when every such package has an entry
    in the graph.  Depth [0] gives the empty list, depth [1] the direct
    dependencies. *)
Theorem walk_to_depth pkgName (d : nat) depGraph :
  (∀ x, bsteps (dependsOn depGraph) d pkgName x → is_Some (depGraph !! x)) →
  ∃ l, getTransitiveDependencies pkgName (Some (Z.of_nat d)) depGraph
       = Some (Ok l) ∧
       NoDup l ∧
       ∀ x, x ∈ l ↔ bsteps (dependsOn depGraph) d pkgName x ∧ x ≠ pkgName.
Proof.
  intros Hkeys.
  destruct (getTransitiveDependencies_terminates pkgName (Some (Z.of_nat d))
              depGraph) as [r Hr].
  unfold getTransitiveDependencies in *. cbn [default] in *.
  destruct (loop _ _ _ _) as [r0|] eqn:Hloop; [|done].
  replace (entries depGraph + 2) with (S (entries depGraph + 1)) in Hloop by lia.
  cbn [loop] in Hloop. unfold step in Hloop.
  cbn [queue nodesUntilDepthIncrease currentDepth visited length] in Hloop.
  rewrite bool_decide_eq_true_2 in Hloop by done. unfold id in Hloop.
  rewrite bool_decide_eq_false_2 in Hloop by lia.
  rewrite bool_decide_eq_false_2 in Hloop by apply not_elem_of_nil.
  destruct (Hkeys pkgName) as [deps Hdeps]; [constructor|].
  rewrite Hdeps in Hloop.
  apply (loop_levelled _ _ pkgName d Hkeys 0 _ [] deps) in Hloop
    as (v & -> & Hnd & Hv); [|lia|].
  - exists (filter (λ x, x ≠ pkgName) v). split_and!; [done| |].
    + by apply NoDup_filter.
    + intros x. rewrite list_elem_of_filter, Hv. tauto.
  - unfold levelled. cbn. split_and!; try done.
    + apply NoDup_singleton.
    + intros x ->%list_elem_of_singleton. constructor.
    + by intros x []%elem_of_nil.
    + intros x Hx. apply bsteps_once. by exists deps.
    + intros x Hx. left. inversion Hx; subst. by apply list_elem_of_singleton.
    + intros v ds x ->%list_elem_of_singleton Hds Hx. right. congruence.
Qed.

Lemma walk_to_depth_witness :
  ∃ l, getTransitiveDependencies "a" (Some (Z.of_nat 1)) Sample.cyclic
       = Some (Ok l) ∧
       NoDup l ∧
       ∀ x, x ∈ l ↔ bsteps (dependsOn Sample.cyclic) 1 "a" x ∧ x ≠ "a"%string.
Proof.
  apply (walk_to_depth "a" 1 Sample.cyclic).
  intros x Hx%rtc_bsteps_2.
  destruct (cyclic_reachable x Hx) as [->|[->| ->]]; vm_compute; eauto.
Defined.

End ChangedPackagesMore.

(** * Changed packages with their dependents *)

Module DependentsFacts.

Import ChangedPackages Dependents.

Lemma elem_of_dedupe_from (l s : list string) x :
  x ∈ foldl (λ s x, if bool_decide (x ∈ s) then s else s ++ [x]) s l ↔
  x ∈ s ∨ x ∈ l.
Proof.
  revert s. induction l as [|y l IH]; intros s; cbn [foldl].
  - rewrite elem_of_nil. tauto.
  - rewrite IH, elem_of_cons. case_bool_decide as Hy.
    + split; [tauto|]. intros [?|[->|?]]; auto.
    + rewrite elem_of_app, list_elem_of_singleton. tauto.
Qed.

Lemma elem_of_dedupe l x : x ∈ dedupe l ↔ x ∈ l.
Proof. unfold dedupe. rewrite elem_of_dedupe_from, elem_of_nil. tauto. Qed.

Lemma NoDup_dedupe_from (l s : list string) :
  NoDup s →
  NoDup (foldl (λ s x, if bool_decide (x ∈ s) then s else s ++ [x]) s l).
Proof.
  revert s. induction l as [|y l IH]; intros s Hs; cbn [foldl]; [done|].
  apply IH. case_bool_decide as Hy; [done|].
  apply NoDup_app. split_and!; [done| |apply NoDup_singleton].
  by intros x Hx ->%list_elem_of_singleton.
Qed.

Lemma NoDup_dedupe l : NoDup (dedupe l).
Proof. apply NoDup_dedupe_from. constructor. Qed.

Section dependents_facts.

Context (path_relative : string → string → string) (cwd : string)
        (allPackages : list BoltPackage)
        (dependencyGraph : gmap string (list string)).

Local Abbreviation lookupPkg := (getPackageJSON allPackages).
Local Abbreviation withDependents :=
  (getChangedPackagesWithDependents path_relative cwd allPackages dependencyGraph).

Lemma filterDependents_outcome flag cn deps :
  match filterDependents allPackages flag cn deps with
  | Js.Ok kept =>
      (∀ d, d ∈ deps → is_Some (lookupPkg d)) ∧
      (deps = [] ∨ flag = "direct"%string) ∧
      ∀ d, d ∈ kept ↔
           d ∈ deps ∧ ∃ pkg, lookupPkg d = Some pkg ∧
                             declares (bp_config pkg) cn = true
  | Js.Throw e =>
      e ≠ TypeError ∧
      ¬ ((∀ d, d ∈ deps → is_Some (lookupPkg d)) ∧
         (deps = [] ∨ flag = "direct"%string))
  end.
Proof.
  induction deps as [|d deps IH]; cbn [filterDependents].
  - split_and!; [by intros d []%elem_of_nil|by left|].
    intros d. split; [by intros []%elem_of_nil|by intros [[]%elem_of_nil _]].
  - destruct (lookupPkg d) as [pkg|] eqn:Hd.
    2:{ split; [done|]. intros [Hall _].
        destruct (Hall d) as [? ?]; [by left|congruence]. }
    case_bool_decide as Hflag.
    2:{ split; [done|]. by intros [_ [?|?]]. }
    destruct (filterDependents allPackages flag cn deps) as [kept|e].
    + destruct IH as (Hall & _ & Hkept). split_and!.
      * intros d' [->|Hd']%elem_of_cons; [by rewrite Hd|by apply Hall].
      * by right.
      * intros d'. destruct (declares (bp_config pkg) cn) eqn:Hdecl.
        -- rewrite !elem_of_cons, Hkept. split.
           ++ intros [->|[? ?]]; [|by auto]. split; [by left|]. by exists pkg.
           ++ intros [[->|?] ?]; auto.
        -- rewrite Hkept, elem_of_cons. split; [intros [? ?]; auto|].
           intros [[->|?] (pkg' & Hpkg' & Hdecl')]; [|eauto]. congruence.
    + destruct IH as [Hne Hno]. split; [done|]. intros [Hall Hflag'].
      apply Hno. split; [intros d' Hd'; apply Hall; by right|by right].
Qed.

Lemma dirsOf_outcome kept :
  (∀ d, d ∈ kept → is_Some (lookupPkg d)) →
  ∃ dirs, dirsOf allPackages kept = Ok dirs ∧
    ∀ p, p ∈ dirs ↔ ∃ d pkg, d ∈ kept ∧ lookupPkg d = Some pkg ∧ p = bp_dir pkg.
Proof.
  induction kept as [|d kept IH]; intros Hall; cbn [dirsOf].
  - exists []. split; [done|]. intros p.
    split; [by intros []%elem_of_nil|by intros (? & ? & []%elem_of_nil & _)].
  - destruct (Hall d) as [pkg Hd]; [by left|]. rewrite Hd.
    destruct IH as (dirs & -> & Hdirs); [intros d' Hd'; apply Hall; by right|].
    eexists. split; [done|]. intros p. rewrite elem_of_cons, Hdirs. split.
    + intros [->|(d' & pkg' & Hd' & Hpkg' & ->)].
      * exists d, pkg. split; [by left|done].
      * exists d', pkg'. split; [by right|done].
    + intros (d' & pkg' & [->|Hd']%elem_of_cons & Hpkg' & ->).
      * left. congruence.
      * right. eauto.
Qed.

Lemma dependentsOf_outcome flag changed :
  match dependentsOf path_relative cwd allPackages dependencyGraph flag changed with
  | Js.Ok paths =>
      (∃ deps, dependencyGraph !! name changed = Some deps ∧
         (∀ d, d ∈ deps → is_Some (lookupPkg d)) ∧
         (deps = [] ∨ flag = "direct"%string)) ∧
      ∀ p, p ∈ paths ↔
        ∃ deps d pkg, dependencyGraph !! name changed = Some deps ∧ d ∈ deps ∧
          lookupPkg d = Some pkg ∧ declares (bp_config pkg) (name changed) = true ∧
          p = path_relative cwd (bp_dir pkg)
  | Js.Throw e =>
      e ≠ TypeError ∧
      ¬ (∃ deps, dependencyGraph !! name changed = Some deps ∧
           (∀ d, d ∈ deps → is_Some (lookupPkg d)) ∧
           (deps = [] ∨ flag = "direct"%string))
  end.
Proof.
  unfold dependentsOf.
  destruct (dependencyGraph !! name changed) as [deps|] eqn:Hdeps.
  2:{ split; [done|]. by intros (? & ? & _). }
  pose proof (filterDependents_outcome flag (name changed) deps) as Hout.
  destruct (filterDependents allPackages flag (name changed) deps) as [kept|e].
  - destruct Hout as (Hall & Hflag & Hkept).
    destruct (dirsOf_outcome kept) as (dirs & -> & Hdirs).
    { intros d [_ (pkg & -> & _)]%Hkept. eauto. }
    split; [by exists deps|].
    intros p. change (map ?f ?l) with (f <$> l). rewrite list_elem_of_fmap. split.
    + intros (dir & -> & (d & pkg & [Hd (pkg' & Hpkg' & Hdecl)]%Hkept & Hpkg & ->)%Hdirs).
      exists deps, d, pkg. split_and!; try done. congruence.
    + intros (deps' & d & pkg & [= <-] & Hd & Hpkg & Hdecl & ->).
      exists (bp_dir pkg). split; [done|]. apply Hdirs. exists d, pkg.
      split_and!; [|done..]. apply Hkept. split; [done|]. by exists pkg.
  - destruct Hout as [Hne Hno]. split; [done|].
    intros (deps' & [= <-] & Hall & Hflag). by apply Hno.
Qed.

Lemma mapDependents_outcome flag changedPackages :
  match mapDependents path_relative cwd allPackages dependencyGraph flag
                      changedPackages with
  | Js.Ok lists =>
      answerable allPackages dependencyGraph changedPackages flag ∧
      ∀ p, p ∈ concat lists ↔
        ∃ changed deps d pkg, changed ∈ changedPackages ∧
          dependencyGraph !! name changed = Some deps ∧ d ∈ deps ∧
          lookupPkg d = Some pkg ∧ declares (bp_config pkg) (name changed) = true ∧
          p = path_relative cwd (bp_dir pkg)
  | Js.Throw e =>
      e ≠ TypeError ∧ ¬ answerable allPackages dependencyGraph changedPackages flag
  end.
Proof.
  induction changedPackages as [|changed rest IH]; cbn [mapDependents].
  - split; [by intros ? []%elem_of_nil|]. intros p. cbn.
    split; [by intros []%elem_of_nil|by intros (? & ? & ? & ? & []%elem_of_nil & _)].
  - pose proof (dependentsOf_outcome flag changed) as Hone.
    destruct (dependentsOf _ _ _ _ flag changed) as [paths|e].
    2:{ destruct Hone as [Hne Hno]. split; [done|]. intros Hans. apply Hno.
        apply Hans. by left. }
    destruct Hone as [Hok Hpaths].
    destruct (mapDependents _ _ _ _ flag rest) as [others|e].
    2:{ destruct IH as [Hne Hno]. split; [done|]. intros Hans. apply Hno.
        intros c Hc. apply Hans. by right. }
    destruct IH as [Hans Hothers]. split.
    + intros c [->|Hc]%elem_of_cons; [done|by apply Hans].
    + intros p. cbn [concat]. rewrite elem_of_app, Hpaths, Hothers. split.
      * intros [(deps & d & pkg & H)|(c & deps & d & pkg & Hc & H)].
        -- exists changed, deps, d, pkg. split; [by left|done].
        -- exists c, deps, d, pkg. split; [by right|done].
      * intros (c & deps & d & pkg & [->|Hc]%elem_of_cons & H).
        -- left. by exists deps, d, pkg.
        -- right. by exists c, deps, d, pkg.
Qed.

(** X21.  [getChangedPackagesWithDependents] returns exactly when every changed
    package has an entry in the graph of dependents, every dependent
    listed there is a workspace, and the flag is [direct] unless no
    dependent is listed at all.  With another flag it fails as soon as a
    changed package has a dependent. *)
Theorem with_dependents_returns_iff changedPackages dependentFlag :
  match withDependents changedPackages dependentFlag with
  | Js.Ok _ => answerable allPackages dependencyGraph changedPackages dependentFlag
  | Js.Throw e =>
      ¬ answerable allPackages dependencyGraph changedPackages dependentFlag ∧
      e ≠ TypeError
  end.
Proof.
  unfold getChangedPackagesWithDependents.
  pose proof (mapDependents_outcome dependentFlag changedPackages) as Hout.
  destruct (mapDependents _ _ _ _ dependentFlag changedPackages) as [lists|e].
  - by destruct Hout.
  - by destruct Hout.
Qed.

(** X22.  The result lists every path once: the relative directories of the
    changed packages, and the directories, relative to the working
    directory, of the workspaces that the graph lists as dependents of a
    changed package and that declare it among their [dependencies]. *)
Theorem with_dependents_exact changedPackages dependentFlag paths :
  withDependents changedPackages dependentFlag = Ok paths →
  NoDup paths ∧
  ∀ p, p ∈ paths ↔
    p ∈ map relativeDir changedPackages ∨
    ∃ changed deps d pkg, changed ∈ changedPackages ∧
      dependencyGraph !! name changed = Some deps ∧ d ∈ deps ∧
      lookupPkg d = Some pkg ∧ declares (bp_config pkg) (name changed) = true ∧
      p = path_relative cwd (bp_dir pkg).
Proof.
  unfold getChangedPackagesWithDependents.
  pose proof (mapDependents_outcome dependentFlag changedPackages) as Hout.
  destruct (mapDependents _ _ _ _ dependentFlag changedPackages) as [lists|e];
    [|done].
  intros [= <-]. destruct Hout as [_ Hlists]. split; [apply NoDup_dedupe|].
  intros p. by rewrite elem_of_dedupe, elem_of_app, Hlists.
Qed.

End dependents_facts.

Lemma with_dependents_exact_witness :
  NoDup ["packages/foo"; "packages/foo-bar"]%string ∧
  ("packages/foo-bar"%string ∈ ["packages/foo"; "packages/foo-bar"]%string ↔
   "packages/foo-bar"%string ∈ map relativeDir [Sample.changed_foo] ∨
   ∃ changed deps d pkg, changed ∈ [Sample.changed_foo] ∧
     Sample.dependents_graph !! name changed = Some deps ∧ d ∈ deps ∧
     getPackageJSON [Sample.bolt_foo; Sample.bolt_foo_bar] d = Some pkg ∧
     declares (bp_config pkg) (name changed) = true ∧
     "packages/foo-bar"%string
     = (λ _ d, String.substring 6 (String.length d - 6) d) "/repo" (bp_dir pkg)).
Proof.
  destruct (with_dependents_exact
              (λ _ d, String.substring 6 (String.length d - 6) d) "/repo"
              [Sample.bolt_foo; Sample.bolt_foo_bar] Sample.dependents_graph
              [Sample.changed_foo] "direct"
              ["packages/foo"; "packages/foo-bar"]%string) as [Hnd Hiff].
  - vm_compute. reflexivity.
  - split; [exact Hnd|]. apply Hiff.
Defined.

End DependentsFacts.

(** * The changeset check of the CI *)

Module CheckChangesetsFacts.

Import ChangedPackages ChangedPackagesMore CheckChangesets.

Lemma elem_of_packagesWithChangesets releases n :
  n ∈ packagesWithChangesets releases ↔
  ∃ r, r ∈ releases ∧ release_name r = n ∧ changesets r ≠ [].
Proof.
  unfold packagesWithChangesets. change (map ?f ?l) with (f <$> l).
  rewrite list_elem_of_fmap. split.
  - intros (r & -> & [Hlen Hr]%list_elem_of_filter). exists r.
    split_and!; [done..|]. intros Hnil. rewrite Hnil in Hlen. cbn in Hlen. lia.
  - intros (r & Hr & <- & Hne). exists r. split; [done|].
    apply list_elem_of_filter. split; [|done].
    destruct (changesets r); [done|cbn; lia].
Qed.

Lemma exact_optout branch :
  existsb (λ name, bool_decide (branch = name)) BRANCH_EXACT_OPTOUTS = true ↔
  branch ∈ BRANCH_EXACT_OPTOUTS.
Proof.
  rewrite existsb_exists. split.
  - intros (n & Hn%list_elem_of_In & ->%bool_decide_eq_true). done.
  - intros Hin. exists branch. split; [by apply list_elem_of_In|].
    by apply bool_decide_eq_true.
Qed.

Section check_facts.

Context (sep : string) (path_relative : string → string → string)
        (projectDir : string) (workspaces : list Workspace)
        (config : nat → Config)
        (containsBranchPrefix : string → list string → bool).

Local Abbreviation resolve :=
  (fileNameToPackage sep path_relative projectDir workspaces).
Local Abbreviation check :=
  (main sep path_relative projectDir workspaces config containsBranchPrefix).

Lemma elem_of_missingChangesets releases files n :
  n ∈ missingChangesets config releases
        (getChangedPackagesWithMandatoryChangesetSinceCommit
           sep path_relative projectDir workspaces files) ↔
  ∃ fileName i pkg,
    fileName ∈ files ∧ needsChangeset fileName = true ∧
    isRatchet fileName = false ∧ resolve fileName = Some (i, pkg) ∧
    name pkg = n ∧
    (∀ r, r ∈ releases → release_name r = n → changesets r = []) ∧
    isExcluded config (i, pkg) = false.
Proof.
  unfold missingChangesets. change (map ?f ?l) with (f <$> l).
  rewrite list_elem_of_fmap. split.
  - intros ([i pkg] & -> & [[Hno Hex] Hin]%list_elem_of_filter).
    apply elem_of_mandatory in Hin as (f & Hf & Hn & Hk & Hr).
    exists f, i, pkg. split_and!; try done. intros r Hr' Hname.
    destruct (changesets r) eqn:Hcs; [done|]. exfalso. apply Hno.
    apply elem_of_packagesWithChangesets. exists r.
    split_and!; [done..|]. by rewrite Hcs.
  - intros (f & i & pkg & Hf & Hn & Hk & Hr & <- & Hno & Hex).
    exists (i, pkg). split; [done|]. apply list_elem_of_filter. split.
    + split; [|done]. intros (r & Hr' & Hname & Hne)%elem_of_packagesWithChangesets.
      by apply Hne, Hno.
    + apply elem_of_mandatory. by exists f.
Qed.

(** X23.  On a branch without escape hatch the check passes exactly when
    every package that holds a changed file needing a changeset (a ratchet
    file apart) has a release with a changeset in the plan, or is private
    and has not opted in.  A file that lies below no package never makes
    the check fail, whether it needs a changeset or not. *)
Theorem check_passes_iff branch releases files :
  containsBranchPrefix branch BRANCH_PREFIX_OPTOUTS = false →
  branch ∉ BRANCH_EXACT_OPTOUTS →
  check branch releases files = Passed ↔
  ∀ fileName i pkg,
    fileName ∈ files → needsChangeset fileName = true →
    isRatchet fileName = false → resolve fileName = Some (i, pkg) →
    (∃ r, r ∈ releases ∧ release_name r = name pkg ∧ changesets r ≠ []) ∨
    isExcluded config (i, pkg) = true.
Proof.
  intros Hprefix Hexact. unfold main. rewrite Hprefix. cbn [orb].
  destruct (existsb _ BRANCH_EXACT_OPTOUTS) eqn:He;
    [by apply exact_optout in He|].
  cbv zeta. set (missing := missingChangesets _ _ _).
  case_bool_decide as Hlen; split.
  - done.
  - intros Hall. exfalso.
    destruct missing as [|n rest] eqn:Hm; [cbn in Hlen; lia|].
    assert (n ∈ missing) as Hin by (rewrite Hm; by left).
    apply elem_of_missingChangesets in Hin
      as (f & i & pkg & Hf & Hn & Hk & Hr & <- & Hno & Hex).
    destruct (Hall f i pkg Hf Hn Hk Hr) as [(r & Hr' & Hname & Hne)|Hex'];
      [|congruence].
    by apply Hne, Hno.
  - intros _ f i pkg Hf Hn Hk Hr.
    destruct (isExcluded config (i, pkg)) eqn:Hex; [by right|left].
    destruct (decide (name pkg ∈ packagesWithChangesets releases)) as [Hin|Hnin].
    { by apply elem_of_packagesWithChangesets in Hin. }
    exfalso. apply Hlen.
    assert (name pkg ∈ missing) as Hin.
    { apply elem_of_missingChangesets. exists f, i, pkg. split_and!; try done.
      intros r Hr' Hname. destruct (changesets r) eqn:Hcs; [done|].
      exfalso. apply Hnin. apply elem_of_packagesWithChangesets. exists r.
      split_and!; [done..|]. by rewrite Hcs. }
    destruct missing; [by apply elem_of_nil in Hin|cbn; lia].
  - done.
Qed.


End check_facts.

Lemma check_passes_iff_witness :
  main "/" (λ _ f, f) "" [Sample.foo] (λ _, mkConfig false "foo")
       (λ _ _, false) "feature/x" [mkRelease "foo" ["quick-cats-fly"]%string]
       ["packages/foo/src/index.ts"]%string = Passed ↔
  ∀ fileName i pkg,
    fileName ∈ ["packages/foo/src/index.ts"]%string →
    needsChangeset fileName = true →
    isRatchet fileName = false →
    fileNameToPackage "/" (λ _ f, f) "" [Sample.foo] fileName = Some (i, pkg) →
    (∃ r, r ∈ [mkRelease "foo" ["quick-cats-fly"]%string] ∧
          release_name r = name pkg ∧ changesets r ≠ []) ∨
    isExcluded (λ _, mkConfig false "foo") (i, pkg) = true.
Proof.
  apply (check_passes_iff "/" (λ _ f, f) "" [Sample.foo]
           (λ _, mkConfig false "foo") (λ _ _, false) "feature/x").
  - reflexivity.
  - intros [[=]|[[=]|[]%elem_of_nil]%elem_of_cons]%elem_of_cons.
Defined.


End CheckChangesetsFacts.
